(** * Coverage safeguard engine of plugin-newsreporter

    A shallow embedding of [NewsReporterService]
    (src/services/news-reporter-service.ts) and of the decision part of the
    STORY_PROMPT provider (src/providers/story-prompt-provider.ts).

    JavaScript numbers are modelled as [Z] (millisecond timestamps and small
    counters, all far below 2^53), except story confidence, which is a
    rational.  JavaScript objects live in a heap and are referred to by
    address, because the service mutates the objects held by its cache in
    place.  The runtime collaborators (persistence and logger) may throw; which
    calls throw is decided by two oracles carried in the world. *)

From Stdlib Require Import ZArith QArith Lia.
From stdpp Require Import base option list gmap strings.

Local Open Scope Z_scope.

(** ** Data model (src/types) *)

Record OutputRoomConfig := {
  cfg_name : string;
  cfg_platform : string;
  cfg_cadenceMs : option Z;
  cfg_sourceFilter : option (list string);
}.

Record CoverageState := {
  roomId : string;
  roomName : string;
  platform : string;
  lastMentionAt : Z;
  mentionCount24h : Z;
  cadenceMs : Z;
  strikes : Z;
  mutedUntil : option Z;
}.

Definition set_lastMentionAt (v : Z) (s : CoverageState) : CoverageState :=
  {| roomId := roomId s; roomName := roomName s; platform := platform s;
     lastMentionAt := v; mentionCount24h := mentionCount24h s;
     cadenceMs := cadenceMs s; strikes := strikes s;
     mutedUntil := mutedUntil s |}.

Definition set_mentionCount24h (v : Z) (s : CoverageState) : CoverageState :=
  {| roomId := roomId s; roomName := roomName s; platform := platform s;
     lastMentionAt := lastMentionAt s; mentionCount24h := v;
     cadenceMs := cadenceMs s; strikes := strikes s;
     mutedUntil := mutedUntil s |}.

Definition set_strikes (v : Z) (s : CoverageState) : CoverageState :=
  {| roomId := roomId s; roomName := roomName s; platform := platform s;
     lastMentionAt := lastMentionAt s; mentionCount24h := mentionCount24h s;
     cadenceMs := cadenceMs s; strikes := v;
     mutedUntil := mutedUntil s |}.

Definition set_mutedUntil (v : Z) (s : CoverageState) : CoverageState :=
  {| roomId := roomId s; roomName := roomName s; platform := platform s;
     lastMentionAt := lastMentionAt s; mentionCount24h := mentionCount24h s;
     cadenceMs := cadenceMs s; strikes := strikes s;
     mutedUntil := Some v |}.

(** [x || d] on an optional number: [undefined] and [0] are falsy. *)
Definition js_or (x : option Z) (d : Z) : Z :=
  match x with
  | Some v => if v =? 0 then d else v
  | None => d
  end.

(** The settings bag read by the constructor, and the resulting
    [reporterConfig] (the three price fields play no role here). *)
Record Settings := {
  REPORTER_COVERAGE_CHECK_MS : option Z;
  REPORTER_DEFAULT_CADENCE_MS : option Z;
  REPORTER_BREAKING_OVERRIDE : option bool;
  REPORTER_MIN_IDLE_BEFORE_NUDGE_MS : option Z;
  REPORTER_DAILY_MENTION_CAP : option Z;
  REPORTER_STRIKE_MUTE_HOURS : option Z;
  REPORTER_STRIKE_DECAY_HOURS : option Z;
}.

Record ReporterConfig := {
  coverageCheckMs : Z;
  defaultCadenceMs : Z;
  breakingOverride : bool;
  minIdleBeforeNudgeMs : Z;
  dailyMentionCap : Z;
  strikeMuteHours : Z;
  strikeDecayHours : Z;
}.

Definition mkReporterConfig (c : Settings) : ReporterConfig :=
  {| coverageCheckMs := js_or (REPORTER_COVERAGE_CHECK_MS c) 1800000;
     defaultCadenceMs := js_or (REPORTER_DEFAULT_CADENCE_MS c) 7200000;
     breakingOverride :=
       match REPORTER_BREAKING_OVERRIDE c with Some false => false | _ => true end;
     minIdleBeforeNudgeMs := js_or (REPORTER_MIN_IDLE_BEFORE_NUDGE_MS c) 1800000;
     dailyMentionCap := js_or (REPORTER_DAILY_MENTION_CAP c) 15;
     strikeMuteHours := js_or (REPORTER_STRIKE_MUTE_HOURS c) 24;
     strikeDecayHours := js_or (REPORTER_STRIKE_DECAY_HOURS c) 48 |}.

Definition noSettings : Settings :=
  {| REPORTER_COVERAGE_CHECK_MS := None; REPORTER_DEFAULT_CADENCE_MS := None;
     REPORTER_BREAKING_OVERRIDE := None; REPORTER_MIN_IDLE_BEFORE_NUDGE_MS := None;
     REPORTER_DAILY_MENTION_CAP := None; REPORTER_STRIKE_MUTE_HOURS := None;
     REPORTER_STRIKE_DECAY_HOURS := None |}.

Definition defaultConfig : ReporterConfig := mkReporterConfig noSettings.

(** The immutable part of the service: its configuration and the output
    rooms, a [Map] that the pump iterates in insertion order. *)
Record Service := {
  reporterConfig : ReporterConfig;
  outputRooms : list (string * OutputRoomConfig);
}.

(** ** The world the service runs in *)

Inductive Exn := PersistenceError | LoggerError | TypeError.

Inductive LogEntry :=
| DebugCoverageGap (name : string) (gap : Z)
| WarnAutoMuted (name : string) (n : Z)
| DebugLoadedStates (count : nat)
| ErrorLoadingState (e : Exn)
| ErrorSavingState (e : Exn)
| ErrorInPump (e : Exn).

(** A row of the table [reporter_coverage_state]; the metadata is a copy of
    the state taken when the row was written. *)
Record Memory := {
  mem_id : nat;
  mem_roomId : string;
  mem_metadata : CoverageState;
}.

(** The outcome of one iteration of the pump's loop body: which [continue]
    ended it, or that it reached the coverage-gap signal. *)
Inductive Verdict :=
| SkippedMuted
| SkippedCapped
| SkippedTooSoon
| CoverageGap (gap : Z).

Record World := {
  heap : list CoverageState;
  coverageStateCache : gmap string nat;
  memories : list Memory;
  logged : list LogEntry;
  evaluated : list (string * Verdict);
  dbFaults : list bool;
  logFaults : list bool;
}.

Definition with_heap (h : list CoverageState) (w : World) : World :=
  {| heap := h; coverageStateCache := coverageStateCache w;
     memories := memories w; logged := logged w; evaluated := evaluated w;
     dbFaults := dbFaults w; logFaults := logFaults w |}.

Definition with_cache (c : gmap string nat) (w : World) : World :=
  {| heap := heap w; coverageStateCache := c;
     memories := memories w; logged := logged w; evaluated := evaluated w;
     dbFaults := dbFaults w; logFaults := logFaults w |}.

Definition with_memories (m : list Memory) (w : World) : World :=
  {| heap := heap w; coverageStateCache := coverageStateCache w;
     memories := m; logged := logged w; evaluated := evaluated w;
     dbFaults := dbFaults w; logFaults := logFaults w |}.

Definition with_logged (l : list LogEntry) (w : World) : World :=
  {| heap := heap w; coverageStateCache := coverageStateCache w;
     memories := memories w; logged := l; evaluated := evaluated w;
     dbFaults := dbFaults w; logFaults := logFaults w |}.

Definition with_evaluated (l : list (string * Verdict)) (w : World) : World :=
  {| heap := heap w; coverageStateCache := coverageStateCache w;
     memories := memories w; logged := logged w; evaluated := l;
     dbFaults := dbFaults w; logFaults := logFaults w |}.

Definition with_dbFaults (f : list bool) (w : World) : World :=
  {| heap := heap w; coverageStateCache := coverageStateCache w;
     memories := memories w; logged := logged w; evaluated := evaluated w;
     dbFaults := f; logFaults := logFaults w |}.

Definition with_logFaults (f : list bool) (w : World) : World :=
  {| heap := heap w; coverageStateCache := coverageStateCache w;
     memories := memories w; logged := logged w; evaluated := evaluated w;
     dbFaults := dbFaults w; logFaults := f |}.

(** ** A state and exception monad *)

Inductive Outcome (A : Type) :=
| Returned (a : A)
| Thrown (e : Exn).
Arguments Returned {A} a.
Arguments Thrown {A} e.

Definition Eff (A : Type) : Type := World -> Outcome A * World.

Definition ret {A} (a : A) : Eff A := fun w => (Returned a, w).

Definition throw {A} (e : Exn) : Eff A := fun w => (Thrown e, w).

Definition bind {A B} (m : Eff A) (k : A -> Eff B) : Eff B :=
  fun w =>
    match m w with
    | (Returned a, w') => k a w'
    | (Thrown e, w') => (Thrown e, w')
    end.

Definition try_catch {A} (m : Eff A) (h : Exn -> Eff A) : Eff A :=
  fun w =>
    match m w with
    | (Returned a, w') => (Returned a, w')
    | (Thrown e, w') => h e w'
    end.

Notation "'let!' x ':=' m 'in' k" := (bind m (fun x => k))
  (at level 10, x name, m at level 100, k at level 200).
Notation "'exec' m ';' k" := (bind m (fun _ => k))
  (at level 10, m at level 100, k at level 200).

(** *** Primitive effects *)

(** The next answer of an oracle; an exhausted oracle reports no fault. *)
Definition next_fault (fs : list bool) : bool * list bool :=
  match fs with
  | f :: rest => (f, rest)
  | [] => (false, [])
  end.

(** A call to [runtime.logger]. *)
Definition logger (entry : LogEntry) : Eff unit :=
  fun w =>
    let '(f, rest) := next_fault (logFaults w) in
    if f then (Thrown LoggerError, with_logFaults rest w)
    else (Returned tt, with_logged (logged w ++ [entry]) (with_logFaults rest w)).

(** A call to one of the runtime's persistence methods. *)
Definition db_call {A} (op : list Memory -> A * list Memory) : Eff A :=
  fun w =>
    let '(f, rest) := next_fault (dbFaults w) in
    if f then (Thrown PersistenceError, with_dbFaults rest w)
    else let '(a, m) := op (memories w) in
         (Returned a, with_memories m (with_dbFaults rest w)).

(** An object literal: allocates a new object and yields its address. *)
Definition new_object (s : CoverageState) : Eff nat :=
  fun w => (Returned (length (heap w)), with_heap (heap w ++ [s]) w).

(** Reading the fields of the object at an address. *)
Definition deref (l : nat) : Eff CoverageState :=
  fun w =>
    match heap w !! l with
    | Some s => (Returned s, w)
    | None => (Thrown TypeError, w)
    end.

(** Assigning to fields of the object at an address. *)
Definition assign (l : nat) (f : CoverageState -> CoverageState) : Eff unit :=
  fun w =>
    match heap w !! l with
    | Some s => (Returned tt, with_heap (<[l := f s]> (heap w)) w)
    | None => (Thrown TypeError, w)
    end.

Definition cache_set (k : string) (l : nat) : Eff unit :=
  fun w => (Returned tt, with_cache (<[k := l]> (coverageStateCache w)) w).

Definition record_verdict (k : string) (v : Verdict) : Eff unit :=
  fun w => (Returned tt, with_evaluated (evaluated w ++ [(k, v)]) w).

(** ** The service *)

Fixpoint assoc_get {V} (k : string) (l : list (string * V)) : option V :=
  match l with
  | [] => None
  | (k', v) :: rest => if decide (k = k') then Some v else assoc_get k rest
  end.

Definition isOutputRoom (svc : Service) (k : string) : bool :=
  match assoc_get k (outputRooms svc) with Some _ => true | None => false end.

Definition getOutputRoomConfig (svc : Service) (k : string) : option OutputRoomConfig :=
  assoc_get k (outputRooms svc).

(** [getCoverageState] yields the cached object itself, not a copy. *)
Definition getCoverageState (k : string) : Eff (option nat) :=
  fun w => (Returned (coverageStateCache w !! k), w).

(** What a caller of [getCoverageState] reads from the object it is given. *)
Definition coverageView (w : World) (k : string) : option CoverageState :=
  l ← coverageStateCache w !! k; heap w !! l.

(** [loadCoverageState]: the metadata object of every stored row that has a
    room id is put in the cache under that id, whether or not the room is an
    output room. *)
Fixpoint cacheRows (rows : list Memory) : Eff unit :=
  match rows with
  | [] => ret tt
  | memory :: rest =>
      let meta := mem_metadata memory in
      exec (if bool_decide (roomId meta = "")
            then ret tt
            else let! l := new_object meta in cache_set (roomId meta) l);
      cacheRows rest
  end.

Definition loadCoverageState : Eff unit :=
  try_catch
    (let! rows := db_call (fun tbl => (take 100 tbl, tbl)) in
     exec cacheRows rows;
     logger (DebugLoadedStates (length rows)))
    (fun e => logger (ErrorLoadingState e)).

(** [runtime.getMemories] with a room filter and [count: 1]. *)
Definition getMemories (k : string) : Eff (list Memory) :=
  db_call (fun tbl =>
    (take 1 (filter (fun m => mem_roomId m = k) tbl), tbl)).

(** [runtime.updateMemory]: the row with the same id is replaced. *)
Definition updateMemory (row : Memory) : Eff unit :=
  db_call (fun tbl =>
    (tt, (fun m => if decide (mem_id m = mem_id row) then row else m) <$> tbl)).

(** [runtime.createMemory] with a new id (the table never loses a row, so
    its length is an unused id). *)
Definition createMemory (k : string) (meta : CoverageState) : Eff unit :=
  db_call (fun tbl =>
    (tt, tbl ++ [{| mem_id := length tbl; mem_roomId := k; mem_metadata := meta |}])).

(** The stored metadata is a copy of the state ([{ type, ...state }]); every
    stored row has an id, so the test [if (existing.id)] always succeeds.  The
    cache is set last, inside the [try]. *)
Definition saveCoverageState (l : nat) : Eff unit :=
  try_catch
    (let! state := deref l in
     let! existingMemories := getMemories (roomId state) in
     exec match existingMemories with
         | existing :: _ =>
             updateMemory {| mem_id := mem_id existing;
                             mem_roomId := mem_roomId existing;
                             mem_metadata := state |}
         | [] => createMemory (roomId state) state
         end;
     cache_set (roomId state) l)
    (fun e => logger (ErrorSavingState e)).

Definition oneDayMs : Z := 24 * 60 * 60 * 1000.

Definition hoursMs (h : Z) : Z := h * 60 * 60 * 1000.

(** A state is created on first use from the room's configuration. *)
Definition initialState (svc : Service) (k : string) (roomConfig : OutputRoomConfig)
    (mentionedAt count strikeCount : Z) : CoverageState :=
  {| roomId := k; roomName := cfg_name roomConfig;
     platform := cfg_platform roomConfig;
     lastMentionAt := mentionedAt; mentionCount24h := count;
     cadenceMs := js_or (cfg_cadenceMs roomConfig)
                    (defaultCadenceMs (reporterConfig svc));
     strikes := strikeCount; mutedUntil := None |}.

(** [now] is the clock reading taken for [lastMentionAt]; [now'] is the later
    reading taken for [oneDayAgo]. *)
Definition recordMention (svc : Service) (k : string) (now now' : Z) : Eff unit :=
  match getOutputRoomConfig svc k with
  | None => ret tt
  | Some roomConfig =>
      let! existing := getCoverageState k in
      let! state :=
        match existing with
        | None =>
            new_object (initialState svc k roomConfig now 1 0)
        | Some l =>
            exec assign l (set_lastMentionAt now);
            exec assign l (fun s => set_mentionCount24h (mentionCount24h s + 1) s);
            let! s := deref l in
            exec (if lastMentionAt s <? now' - oneDayMs
                 then assign l (set_mentionCount24h 1)
                 else ret tt);
            ret l
        end in
      saveCoverageState state
  end.

Definition recordStrike (svc : Service) (k : string) (now : Z) : Eff unit :=
  let autoMuteAndSave (state : nat) : Eff unit :=
    let! s := deref state in
    exec (if strikes s >=? 2
          then
            exec assign state
              (set_mutedUntil (now + hoursMs (strikeMuteHours (reporterConfig svc))));
            logger (WarnAutoMuted (roomName s) (strikes s))
          else ret tt);
    saveCoverageState state in
  let! existing := getCoverageState k in
  match existing with
  | None =>
      match getOutputRoomConfig svc k with
      | None => ret tt
      | Some roomConfig =>
          let! state := new_object (initialState svc k roomConfig now 0 1) in
          autoMuteAndSave state
      end
  | Some state =>
      exec assign state (fun s => set_strikes (strikes s + 1) s);
      autoMuteAndSave state
  end.

(** [state.mutedUntil && now < state.mutedUntil] *)
Definition isMuted (now : Z) (s : CoverageState) : bool :=
  match mutedUntil s with
  | Some m => negb (m =? 0) && (now <? m)
  | None => false
  end.

Definition isCapped (svc : Service) (now : Z) (s : CoverageState) : bool :=
  (lastMentionAt s >? now - oneDayMs)
  && (mentionCount24h s >=? dailyMentionCap (reporterConfig svc)).

(** The body of the pump's loop for one entry of [outputRooms], in its two
    parts: "initialize state if needed" and the "safeguard gauntlet". *)
Definition ensureState (svc : Service) (k : string)
    (roomConfig : OutputRoomConfig) : Eff nat :=
  let! existingState := getCoverageState k in
  match existingState with
  | Some l => ret l
  | None =>
      let! l := new_object (initialState svc k roomConfig 0 0 0) in
      exec saveCoverageState l;
      ret l
  end.

Definition safeguardGauntlet (svc : Service) (now : Z) (state : nat) : Eff Verdict :=
  let! s := deref state in
  if isMuted now s then ret SkippedMuted
  else if isCapped svc now s then ret SkippedCapped
  else
    let gap := now - lastMentionAt s in
    if gap <? cadenceMs s then ret SkippedTooSoon
    else
      exec (if strikes s >? 0
            then
              let lastStrikeAgo := now - lastMentionAt s in
              let decayMs := hoursMs (strikeDecayHours (reporterConfig svc)) in
              if lastStrikeAgo >? decayMs
              then
                exec assign state (fun s => set_strikes (Z.max 0 (strikes s - 1)) s);
                saveCoverageState state
              else ret tt
            else ret tt);
      exec logger (DebugCoverageGap (roomName s) gap);
      ret (CoverageGap gap).

Definition pumpRoom (svc : Service) (now : Z) (k : string)
    (roomConfig : OutputRoomConfig) : Eff Verdict :=
  let! state := ensureState svc k roomConfig in
  safeguardGauntlet svc now state.

Fixpoint pumpLoop (svc : Service) (now : Z)
    (rooms : list (string * OutputRoomConfig)) : Eff unit :=
  match rooms with
  | [] => ret tt
  | (k, roomConfig) :: rest =>
      let! v := pumpRoom svc now k roomConfig in
      exec record_verdict k v;
      pumpLoop svc now rest
  end.

Definition coveragePumpTick (svc : Service) (now : Z) : Eff unit :=
  try_catch (pumpLoop svc now (outputRooms svc))
            (fun e => logger (ErrorInPump e)).

(** ** The STORY_PROMPT provider, from the story list onwards *)

Record Story := {
  title : string;
  momentum : string;
  confidence : Q;
  sources : list string;
}.

Inductive PromptSection :=
| BreakingStories (titles : list string)
| StorytellingOpportunity (best : string).

Record PromptResult := {
  sections : list PromptSection;
  hasBreaking : bool;
  coverageGap : bool;
  relevantStoryCount : nat;
}.

Definition Qgt_bool (x y : Q) : bool := negb (Qle_bool x y).

Definition isBreaking (s : Story) : bool :=
  String.eqb (momentum s) "growing" && Qgt_bool (confidence s) (8 # 10).

Definition fromAllowedSource (allowed : list string) (s : Story) : bool :=
  existsb (fun src => bool_decide (src ∈ allowed)) (sources s).

(** [None] stands for the empty result of the early exits.  [getRoomTopics]
    returns no topics, so the topic filter never applies. *)
Definition storyPrompt (svc : Service) (w : World) (k : string) (now : Z)
    (stories : list Story) : option PromptResult :=
  if negb (isOutputRoom svc k) then None
  else if bool_decide (stories = []) then None
  else
    let roomConfig := getOutputRoomConfig svc k in
    let relevantStories :=
      match roomConfig ≫= cfg_sourceFilter with
      | Some allowed => List.filter (fromAllowedSource allowed) stories
      | None => stories
      end in
    let hasGap :=
      match coverageView w k with
      | Some c => now - lastMentionAt c >? js_or (roomConfig ≫= cfg_cadenceMs) 7200000
      | None => true
      end in
    let breaking := List.filter isBreaking relevantStories in
    let breakingPart :=
      match breaking with
      | [] => []
      | _ => [BreakingStories (title <$> take 3 breaking)]
      end in
    let opportunityPart :=
      match hasGap, relevantStories with
      | true, first :: _ =>
          [StorytellingOpportunity (title (default first (head breaking)))]
      | _, _ => []
      end in
    Some {| sections := breakingPart ++ opportunityPart;
            hasBreaking := negb (bool_decide (breaking = []));
            coverageGap := hasGap;
            relevantStoryCount := length relevantStories |}.

(** * Further parts of the plugin *)

(** ** JavaScript strings

    Where the code inspects text, a string is the list of its UTF-16 code
    units, so that [length], [includes], [split] and [trim] count and compare
    what JavaScript counts and compares. *)

Abbreviation jsstring := (list N).

(** The code units of a literal made of ASCII characters. *)
Fixpoint units (s : string) : jsstring :=
  match s with
  | EmptyString => []
  | String a rest => Ascii.N_of_ascii a :: units rest
  end.

(** [String.prototype.startsWith] and [includes]. *)
Fixpoint startsWith (s p : jsstring) : bool :=
  match p, s with
  | [], _ => true
  | _ :: _, [] => false
  | x :: p', y :: s' => (x =? y)%N && startsWith s' p'
  end.

Fixpoint includes (s p : jsstring) : bool :=
  startsWith s p
  || match s with
     | [] => false
     | _ :: s' => includes s' p
     end.

(** [toLowerCase], exact on the ASCII range and on the two characters
    outside it whose lower case contains an ASCII letter (the Kelvin sign and
    the dotted capital I).  Every other code unit is kept: JavaScript may
    replace it by other non-ASCII units, which no search for an ASCII phrase
    can tell apart. *)
Definition lowerUnit (u : N) : jsstring :=
  if ((65 <=? u) && (u <=? 90))%N then [(u + 32)%N]
  else if (u =? 8490)%N then [107%N]
  else if (u =? 304)%N then [105%N; 775%N]
  else [u].

Definition toLowerCase (s : jsstring) : jsstring := flat_map lowerUnit s.

(** White space and line terminators: what [trim] removes and [\s] matches. *)
Definition isSpace (u : N) : bool :=
  ((9 <=? u) && (u <=? 13)
   || (u =? 32) || (u =? 160) || (u =? 5760)
   || (8192 <=? u) && (u <=? 8202)
   || (u =? 8232) || (u =? 8233) || (u =? 8239) || (u =? 8287)
   || (u =? 12288) || (u =? 65279))%N.

Fixpoint trimStart (s : jsstring) : jsstring :=
  match s with
  | [] => []
  | u :: rest => if isSpace u then trimStart rest else s
  end.

Definition trimEnd (s : jsstring) : jsstring := rev (trimStart (rev s)).

Definition trim (s : jsstring) : jsstring := trimEnd (trimStart s).

(** ** Negative feedback (isNegativeFeedback) *)

Definition negativePhrases : list jsstring :=
  units <$> ["stop"; "enough"; "too much"; "spam"; "annoying"; "shut up";
             "quiet"; "mute"; "don't care"; "not interested"]%string.

Definition isNegativeFeedback (text : jsstring) : bool :=
  match text with
  | [] => false
  | _ => existsb (fun phrase => includes (toLowerCase text) phrase) negativePhrases
  end.

(** ** The two evaluators *)

Record Message := {
  msg_entityId : string;
  msg_roomId : string;
  msg_text : option jsstring;
}.

(** A message of the evaluators' own to the logger.  The world's log keeps
    the service's messages only, so a handler yields the lines it wrote. *)
Inductive EvaluatorLog :=
| WarnStrikeRecorded (room : string)
| DebugMentionRecorded (room : string)
| ErrorInFeedbackSentinel (e : Exn)
| ErrorInCoverageTracker (e : Exn).

Definition evaluatorLogger (line : EvaluatorLog) : Eff (list EvaluatorLog) :=
  fun w =>
    let '(f, rest) := next_fault (logFaults w) in
    if f then (Thrown LoggerError, with_logFaults rest w)
    else (Returned [line], with_logFaults rest w).

(** [reporter] is the result of [runtime.getService('news-reporter')]. *)
Definition feedbackSentinelValidate (agentId : string) (reporter : option Service)
    (message : Message) : bool :=
  if bool_decide (msg_entityId message = agentId) then false
  else match reporter with
       | None => false
       | Some svc => isOutputRoom svc (msg_roomId message)
       end.

Definition feedbackSentinelHandler (reporter : option Service) (message : Message)
    (now : Z) : Eff (list EvaluatorLog) :=
  match reporter with
  | None => ret []
  | Some svc =>
      try_catch
        (let text := default [] (msg_text message) in
         if isNegativeFeedback text
         then
           exec recordStrike svc (msg_roomId message) now;
           evaluatorLogger (WarnStrikeRecorded (msg_roomId message))
         else ret [])
        (fun e => evaluatorLogger (ErrorInFeedbackSentinel e))
  end.

Definition coverageTrackerValidate (agentId : string) (reporter : option Service)
    (message : Message) : bool :=
  if negb (bool_decide (msg_entityId message = agentId)) then false
  else match reporter with
       | None => false
       | Some svc => isOutputRoom svc (msg_roomId message)
       end.

Definition coverageTrackerHandler (reporter : option Service) (message : Message)
    (now now' : Z) : Eff (list EvaluatorLog) :=
  match reporter with
  | None => ret []
  | Some svc =>
      try_catch
        (exec recordMention svc (msg_roomId message) now now';
         evaluatorLogger (DebugMentionRecorded (msg_roomId message)))
        (fun e => evaluatorLogger (ErrorInCoverageTracker e))
  end.

(** ** Output rooms at start *)

(** An entry of [settings.newsreporter.outputRooms]. *)
Record OutputRoomSetting := {
  set_channelId : string;
  set_roomId : option string;
  set_room : OutputRoomConfig;
}.

(** [Map.prototype.set]: an existing key keeps its place and gets the new
    value, a new key goes to the end. *)
Fixpoint map_set {V} (k : string) (v : V) (m : list (string * V)) : list (string * V) :=
  match m with
  | [] => [(k, v)]
  | (k', v') :: rest =>
      if decide (k = k') then (k, v) :: rest else (k', v') :: map_set k v rest
  end.

(** [room.roomId || createUniqueUuid(runtime, room.channelId)] *)
Definition resolveRoomId (createUniqueUuid : string -> string)
    (room : OutputRoomSetting) : string :=
  match set_roomId room with
  | Some r => if bool_decide (r = ""%string) then createUniqueUuid (set_channelId room) else r
  | None => createUniqueUuid (set_channelId room)
  end.

(** The loop of [start] that fills [outputRooms]. *)
Definition loadOutputRooms (createUniqueUuid : string -> string)
    (rooms : list OutputRoomSetting) : list (string * OutputRoomConfig) :=
  foldl (fun m room => map_set (resolveRoomId createUniqueUuid room) (set_room room) m)
        [] rooms.

(** ** Reports *)

Record ReportTypeMetadata := {
  rt_type : string;
  rt_name : string;
  rt_basePrice : Z;
  rt_estimatedWordCount : Z;
  rt_deliveryTimeMs : Z;
}.

(** The table of src/knowledge/report-types.ts, in the order of its keys. *)
Definition reportTypes : list ReportTypeMetadata :=
  [ {| rt_type := "briefing"; rt_name := "Story Briefing"; rt_basePrice := 50;
       rt_estimatedWordCount := 300; rt_deliveryTimeMs := 300000 |};
    {| rt_type := "deep-dive"; rt_name := "Deep Dive Analysis"; rt_basePrice := 200;
       rt_estimatedWordCount := 1500; rt_deliveryTimeMs := 1800000 |};
    {| rt_type := "trend-report"; rt_name := "Trend Report"; rt_basePrice := 150;
       rt_estimatedWordCount := 800; rt_deliveryTimeMs := 900000 |};
    {| rt_type := "breaking-news"; rt_name := "Breaking News Alert"; rt_basePrice := 75;
       rt_estimatedWordCount := 200; rt_deliveryTimeMs := 120000 |};
    {| rt_type := "daily-recap"; rt_name := "Daily Recap"; rt_basePrice := 100;
       rt_estimatedWordCount := 600; rt_deliveryTimeMs := 600000 |} ].

(** What indexing the table gives.  [reportTypes] is a plain object, so a
    key that is not its own is looked up in [Object.prototype]; what is found
    there is kept with its [name] property, the only one of its properties
    that the service reads and that may be there. *)
Inductive TableValue :=
| OwnEntry (metadata : ReportTypeMetadata)
| Inherited (name : option string).

(** The properties of [Object.prototype].  The methods are functions named
    after their key, [constructor] is the function [Object], and [__proto__]
    reads as the prototype object itself, which has no [name]. *)
Definition objectPrototype : list (string * option string) :=
  [ ("constructor", Some "Object");
    ("__defineGetter__", Some "__defineGetter__");
    ("__defineSetter__", Some "__defineSetter__");
    ("hasOwnProperty", Some "hasOwnProperty");
    ("__lookupGetter__", Some "__lookupGetter__");
    ("__lookupSetter__", Some "__lookupSetter__");
    ("isPrototypeOf", Some "isPrototypeOf");
    ("propertyIsEnumerable", Some "propertyIsEnumerable");
    ("toString", Some "toString");
    ("valueOf", Some "valueOf");
    ("__proto__", None);
    ("toLocaleString", Some "toLocaleString") ]%string.

(** [reportTypes[type] || null]: whatever is found is an object or a
    function, hence truthy. *)
Definition getReportMetadata (type : string) : option TableValue :=
  match List.find (fun m => bool_decide (rt_type m = type)) reportTypes with
  | Some metadata => Some (OwnEntry metadata)
  | None => Inherited <$> assoc_get type objectPrototype
  end.

(** [Object.values(reportTypes)]: the own entries only. *)
Definition getAllReportTypes : list ReportTypeMetadata := reportTypes.

(** [metadata.basePrice] and [metadata.name] *)
Definition basePriceOf (v : TableValue) : option Z :=
  match v with
  | OwnEntry metadata => Some (rt_basePrice metadata)
  | Inherited _ => None
  end.

Definition nameOf (v : TableValue) : option string :=
  match v with
  | OwnEntry metadata => Some (rt_name metadata)
  | Inherited name => name
  end.

(** [metadata?.basePrice || 100] *)
Definition getPriceForReportType (type : string) : Z :=
  js_or (getReportMetadata type ≫= basePriceOf) 100.

(** [content.trim().split('\n')[0]]: the text before the first line feed. *)
Fixpoint firstLine (s : jsstring) : jsstring :=
  match s with
  | [] => []
  | u :: rest => if (u =? 10)%N then [] else u :: firstLine rest
  end.

Fixpoint dropHashes (s : jsstring) : jsstring :=
  match s with
  | [] => []
  | u :: rest => if (u =? 35)%N then dropHashes rest else s
  end.

(** [replace(/^#+\s*/, '')] *)
Definition stripHeading (s : jsstring) : jsstring :=
  match s with
  | u :: _ => if (u =? 35)%N then trimStart (dropHashes s) else s
  | [] => []
  end.

Definition extractTitle (content fallback : jsstring) : jsstring :=
  let firstLine := trim (stripHeading (firstLine (trim content))) in
  if (0 <? length firstLine)%nat && (length firstLine <? 100)%nat
  then firstLine else fallback.

(** [split(/\s+/)]: [cur] holds, in reverse, the piece being read and
    [inRun] tells whether the last unit read was white space. *)
Fixpoint splitSpaces (cur : jsstring) (inRun : bool) (s : jsstring) : list jsstring :=
  match s with
  | [] => [rev cur]
  | u :: rest =>
      if isSpace u
      then if inRun then splitSpaces [] true rest
           else rev cur :: splitSpaces [] true rest
      else splitSpaces (u :: cur) false rest
  end.

Definition wordCount (content : jsstring) : nat :=
  length (splitSpaces [] false content).

(** [extractTitle] with a fallback that may be [undefined] ([None]).  A
    title taken from the content has at least one code unit, so the empty
    result of [extractTitle content []] tells that the fallback was taken. *)
Definition extractTitleOr (content : jsstring) (fallback : option jsstring)
    : option jsstring :=
  match fallback with
  | Some name => Some (extractTitle content name)
  | None =>
      match extractTitle content [] with
      | [] => None
      | title => Some title
      end
  end.

Record NewsReport := {
  rep_type : string;
  rep_title : option jsstring;
  rep_content : jsstring;
  rep_storyIds : list string;
  rep_wordCount : nat;
  rep_generatedAt : Z;
  rep_jobId : option string;
}.

Inductive ReportError :=
| UnknownReportType (type : string)
| CollaboratorFailed
| LoggerFailed.

Inductive ReportLog :=
| ErrorGeneratingReport (e : ReportError) (type : string)
| ErrorSavingReport.

(** What one call of [generateReport] leaves behind: its result, the table
    [reporter_reports] and the lines it logged. *)
Record ReportRun := {
  run_result : ReportError + NewsReport;
  run_saved : list NewsReport;
  run_log : list ReportLog;
}.

(** [saveReport]: [saveThrows] tells whether [createMemory] throws.  That
    is caught and logged; only a failure of this call of the logger leaves
    the function.  [faults] are the answers of the logger's oracle.  The
    function yields the exception that left it, if any, the table, the lines
    logged and the answers that the oracle has left. *)
Definition saveReport (report : NewsReport) (saveThrows : bool) (faults : list bool)
    (reports : list NewsReport)
    : option ReportError * list NewsReport * list ReportLog * list bool :=
  if saveThrows
  then
    let '(f, rest) := next_fault faults in
    if f then (Some LoggerFailed, reports, [], rest)
    else (None, reports, [ErrorSavingReport], rest)
  else (None, reports ++ [report], [], faults).

(** [answer] is what [runtime.useModel] gives for the prompt, [None] when
    it, or the investigator asked for the stories before it, throws.  The
    stories and the other fields of the metadata only enter the prompt.
    Whatever is thrown inside the [try] is logged and thrown again; when the
    logger throws in that handler, its exception leaves instead. *)
Definition generateReport (type : string) (storyIds : list string)
    (jobId : option string) (now : Z) (answer : option jsstring)
    (saveThrows : bool) (faults : list bool) (reports : list NewsReport) : ReportRun :=
  let attempt : (ReportError + NewsReport) * list NewsReport * list ReportLog * list bool :=
    match getReportMetadata type with
    | None => (inl (UnknownReportType type), reports, [], faults)
    | Some metadata =>
        match answer with
        | None => (inl CollaboratorFailed, reports, [], faults)
        | Some content =>
            let report :=
              {| rep_type := type;
                 rep_title := extractTitleOr content (units <$> nameOf metadata);
                 rep_content := content;
                 rep_storyIds := storyIds;
                 rep_wordCount := wordCount content;
                 rep_generatedAt := now;
                 rep_jobId := jobId |} in
            match saveReport report saveThrows faults reports with
            | (Some e, saved, log, rest) => (inl e, saved, log, rest)
            | (None, saved, log, rest) => (inr report, saved, log, rest)
            end
        end
    end in
  match attempt with
  | (inr report, saved, log, _) =>
      {| run_result := inr report; run_saved := saved; run_log := log |}
  | (inl e, saved, log, rest) =>
      if (next_fault rest).1
      then {| run_result := inl LoggerFailed; run_saved := saved; run_log := log |}
      else {| run_result := inl e; run_saved := saved;
              run_log := log ++ [ErrorGeneratingReport e type] |}
  end.

(** ** Report type detection in the actions *)

(** WRITE_ARTICLE: the text is searched as it is. *)
Definition writeArticleType (text : jsstring) : string :=
  if includes text (units "deep dive") || includes text (units "deep-dive") then "deep-dive"
  else if includes text (units "trend") then "trend-report"
  else if includes text (units "breaking") then "breaking-news"
  else if includes text (units "recap") || includes text (units "digest") then "daily-recap"
  else "briefing".

(** QUOTE_REPORT: the first type of the table whose key or lower-cased name
    occurs in the lower-cased text, the first of the table by default. *)
Definition mentionsType (text : jsstring) (m : ReportTypeMetadata) : bool :=
  includes (toLowerCase text) (units (rt_type m))
  || includes (toLowerCase text) (toLowerCase (units (rt_name m))).

Definition quoteReportType (text : jsstring) : option ReportTypeMetadata :=
  match List.find (mentionsType text) getAllReportTypes with
  | Some m => Some m
  | None => head getAllReportTypes
  end.

Definition quoteReportPrice (text : jsstring) : option Z :=
  (fun m => getPriceForReportType (rt_type m)) <$> quoteReportType text.

(** * Predicates and scenario data used in the statements *)

(** Every reference held by the cache points to an object. *)
Definition cache_valid (w : World) : Prop :=
  forall k l, coverageStateCache w !! k = Some l -> is_Some (heap w !! l).

(** The persistence calls of one [saveCoverageState] throw: either the
    lookup of the existing row or the write that follows it. *)
Definition persistFails (fs : list bool) : bool :=
  match fs with
  | true :: _ => true
  | false :: true :: _ => true
  | _ => false
  end.

(** Two output rooms without overrides, and services with the default
    configuration. *)
Definition newsRoom : OutputRoomConfig :=
  {| cfg_name := "#news"; cfg_platform := "discord";
     cfg_cadenceMs := None; cfg_sourceFilter := None |}.

Definition alphaRoom : OutputRoomConfig :=
  {| cfg_name := "#alpha"; cfg_platform := "discord";
     cfg_cadenceMs := None; cfg_sourceFilter := None |}.

Definition oneRoomService : Service :=
  {| reporterConfig := defaultConfig; outputRooms := [("room-1"%string, newsRoom)] |}.

Definition twoRoomService : Service :=
  {| reporterConfig := defaultConfig;
     outputRooms := [("room-1"%string, newsRoom); ("room-2"%string, alphaRoom)] |}.

(** The world at first start: nothing cached, nothing stored, no faults. *)
Definition emptyWorld : World :=
  {| heap := []; coverageStateCache := ∅; memories := []; logged := [];
     evaluated := []; dbFaults := []; logFaults := [] |}.

(** A world whose cache holds exactly one state, under the state's room id,
    with a matching stored row. *)
Definition worldWith (s : CoverageState) : World :=
  {| heap := [s]; coverageStateCache := {[ roomId s := 0%nat ]};
     memories := [{| mem_id := 0; mem_roomId := roomId s; mem_metadata := s |}];
     logged := []; evaluated := []; dbFaults := []; logFaults := [] |}.

(** A state of "room-1" with the default cadence of two hours. *)
Definition newsState (mentionedAt count strikeCount : Z) (muted : option Z)
    : CoverageState :=
  {| roomId := "room-1"; roomName := "#news"; platform := "discord";
     lastMentionAt := mentionedAt; mentionCount24h := count;
     cadenceMs := 7200000; strikes := strikeCount; mutedUntil := muted |}.

(** A reading of [Date.now()]. *)
Definition clock : Z := 1700000000000.

(** The same service with another value of the [breakingOverride] setting. *)
Definition with_breakingOverride (b : bool) (svc : Service) : Service :=
  {| reporterConfig :=
       {| coverageCheckMs := coverageCheckMs (reporterConfig svc);
          defaultCadenceMs := defaultCadenceMs (reporterConfig svc);
          breakingOverride := b;
          minIdleBeforeNudgeMs := minIdleBeforeNudgeMs (reporterConfig svc);
          dailyMentionCap := dailyMentionCap (reporterConfig svc);
          strikeMuteHours := strikeMuteHours (reporterConfig svc);
          strikeDecayHours := strikeDecayHours (reporterConfig svc) |};
     outputRooms := outputRooms svc |}.

(** A story that meets the breaking test of the provider. *)
Definition urgentStory : Story :=
  {| title := "Whale activity"; momentum := "growing";
     confidence := 9 # 10; sources := ["babylon"%string] |}.

(** A state left behind by an earlier configuration: its room is no longer
    an output room, but its row is still stored and is loaded at start. *)
Definition retiredState : CoverageState :=
  {| roomId := "room-9"; roomName := "#old"; platform := "discord";
     lastMentionAt := clock - hoursMs 100; mentionCount24h := 3;
     cadenceMs := 7200000; strikes := 1; mutedUntil := None |}.

(** The world after [loadCoverageState] has read that row. *)
Definition restartedWorld : World :=
  (loadCoverageState
     (with_memories
        [{| mem_id := 0; mem_roomId := "room-9"; mem_metadata := retiredState |}]
        emptyWorld)).2.

(** A world in which the loop can go on: the cache is sound, the logger
    does not throw, and the verdicts recorded so far are [ev]. *)
Definition steady (ev : list (string * Verdict)) (w : World) : Prop :=
  cache_valid w /\ logFaults w = [] /\ evaluated w = ev.

(** The key under which [loadCoverageState] caches a stored row. *)
Definition rowKey (row : Memory) : string := roomId (mem_metadata row).

(** The stored table as the service itself builds it: the id of a row is
    its position, a row is filed under the room id of its metadata, and no
    room has two rows. *)
Definition table_ok (tbl : list Memory) : Prop :=
  (forall i row, tbl !! i = Some row -> mem_id row = i)
  /\ (forall row, row ∈ tbl -> mem_roomId row = rowKey row)
  /\ NoDup (mem_roomId <$> tbl).

(** The world after a restart of the process: the stored rows are all that
    is left. *)
Definition restart (w : World) : World := with_memories (memories w) emptyWorld.

(** Words put in a row with one separator between neighbours. *)
Fixpoint joinWords (sep : N) (words : list jsstring) : jsstring :=
  match words with
  | [] => []
  | [word] => word
  | word :: rest => word ++ sep :: joinWords sep rest
  end.

(** A word: at least one code unit, none of them white space. *)
Definition isWord (word : jsstring) : Prop :=
  word <> [] /\ Forall (fun u => isSpace u = false) word.

(** The line that [saveCoverageState] logs for a persistence call that
    threw, and how many of them a log holds. *)
Definition isSavingError (entry : LogEntry) : bool :=
  match entry with
  | ErrorSavingState PersistenceError => true
  | _ => false
  end.

Definition savingErrors (log : list LogEntry) : nat :=
  length (List.filter isSavingError log).

(** The persistence calls that throw among the answers of an oracle. *)
Definition faultCount (fs : list bool) : nat :=
  length (List.filter (fun f : bool => f) fs).

(** Between [w] and [w'] the persistence layer gave the answers [used], and
    every call of it that threw has its line in the log. *)
Definition failures_logged (w w' : World) : Prop :=
  exists used,
    dbFaults w = used ++ dbFaults w'
    /\ savingErrors (logged w') = (savingErrors (logged w) + faultCount used)%nat.

(** Every reference held by the cache points to the state of the room it
    is cached for.  The service caches a state under no other key: see
    [cache_set] in [saveCoverageState] and [cacheRows]. *)
Definition cache_keyed (w : World) : Prop :=
  forall k l, coverageStateCache w !! k = Some l ->
    exists s, heap w !! l = Some s /\ roomId s = k.

(** What work on other rooms leaves of room [k]: the state a reader sees
    for it and, on a table in the service's shape, its stored rows. *)
Definition keeps_room (k : string) (w w' : World) : Prop :=
  coverageView w' k = coverageView w k
  /\ (table_ok (memories w) ->
      table_ok (memories w')
      /\ forall row, row ∈ memories w -> mem_roomId row = k -> row ∈ memories w').

(** The three checks of the gauntlet that end an iteration with [continue]:
    not muted, not capped, cadence elapsed. *)
Definition passesChecks (svc : Service) (now : Z) (s : CoverageState) : bool :=
  negb (isMuted now s) && negb (isCapped svc now s)
  && negb (now - lastMentionAt s <? cadenceMs s).

(** * Properties *)

(** ** Units and defaults *)

Lemma oneDayMs_value : oneDayMs = 86400000.
Proof. reflexivity. Qed.

Lemma default_mute_duration : hoursMs (strikeMuteHours defaultConfig) = 86400000.
Proof. reflexivity. Qed.

Lemma default_decay_window : hoursMs (strikeDecayHours defaultConfig) = 172800000.
Proof. reflexivity. Qed.

Lemma default_daily_cap : dailyMentionCap defaultConfig = 15.
Proof. reflexivity. Qed.

Lemma default_breaking_override : breakingOverride defaultConfig = true.
Proof. reflexivity. Qed.

(** ** Saving a state *)

Ltac eff_unfold :=
  unfold saveCoverageState, getMemories, updateMemory, createMemory,
    getCoverageState, cache_set, record_verdict, new_object, deref, assign,
    db_call, logger, try_catch, bind, ret, throw, next_fault in *.

Ltac eff_case :=
  match goal with
  | |- context [match ?x with _ => _ end] =>
      lazymatch x with
      | context [match _ with _ => _ end] => fail
      | _ => destruct x eqn:?
      end
  end.

(** [saveCoverageState] never changes an object; it leaves the cache alone or
    stores the reference it was given under the object's room id. *)
Lemma saveCoverageState_frame l w :
  heap (saveCoverageState l w).2 = heap w
  /\ evaluated (saveCoverageState l w).2 = evaluated w
  /\ (coverageStateCache (saveCoverageState l w).2 = coverageStateCache w
      \/ exists s, heap w !! l = Some s
           /\ coverageStateCache (saveCoverageState l w).2
              = <[roomId s := l]> (coverageStateCache w)).
Proof.
  eff_unfold. repeat (eff_case; simpl in *; simplify_eq); simpl; eauto 6.
Qed.

(** With a working logger, [saveCoverageState] returns normally whatever
    the persistence layer does. *)
Lemma saveCoverageState_returns l w :
  logFaults w = [] ->
  (saveCoverageState l w).1 = Returned tt
  /\ logFaults (saveCoverageState l w).2 = [].
Proof.
  intros Hlog. eff_unfold.
  repeat (eff_case; simpl in *; rewrite ?Hlog in *; simplify_eq);
    simpl; rewrite ?Hlog; eauto.
Qed.

(** [saveCoverageState] lets nothing escape but a failure of the logger in
    its own handler. *)
Lemma saveCoverageState_outcome l w :
  (saveCoverageState l w).1 = Returned tt
  \/ (saveCoverageState l w).1 = Thrown LoggerError.
Proof.
  eff_unfold. repeat (eff_case; simpl in *; simplify_eq); simpl; auto.
Qed.

(** A failed persistence call leaves the cache table and the stored rows as
    they were. *)
Lemma saveCoverageState_failed l w :
  persistFails (dbFaults w) = true ->
  coverageStateCache (saveCoverageState l w).2 = coverageStateCache w
  /\ memories (saveCoverageState l w).2 = memories w
  /\ heap (saveCoverageState l w).2 = heap w.
Proof.
  intros Hf. eff_unfold.
  destruct (dbFaults w) as [|[] [|[] ?]] eqn:Hdb; simpl in Hf; try discriminate;
    repeat (eff_case; simpl in *; simplify_eq); simpl; eauto.
Qed.

(** The row written for a state is found in the table afterwards. *)
Lemma updated_row_stored (tbl : list Memory) (k : string) existing rest s :
  take 1 (filter (fun m => mem_roomId m = k) tbl) = existing :: rest ->
  exists row,
    row ∈ ((fun m => if decide (mem_id m = mem_id existing)
                     then {| mem_id := mem_id existing;
                             mem_roomId := mem_roomId existing;
                             mem_metadata := s |}
                     else m) <$> tbl)
    /\ mem_metadata row = s /\ mem_roomId row = k.
Proof.
  intros Htake.
  assert (Hin : existing ∈ filter (fun m => mem_roomId m = k) tbl).
  { apply (subseteq_take 1). rewrite Htake. left. }
  apply list_elem_of_filter in Hin as [Hk Hin].
  eexists. split.
  - apply list_elem_of_fmap. exists existing. split; [reflexivity | exact Hin].
  - rewrite decide_True by reflexivity. simpl. auto.
Qed.

(** When persistence works, the state is written and the cache then holds
    the reference under the state's room id. *)
Lemma saveCoverageState_ok l s w :
  dbFaults w = [] ->
  heap w !! l = Some s ->
  (saveCoverageState l w).1 = Returned tt
  /\ coverageStateCache (saveCoverageState l w).2
     = <[roomId s := l]> (coverageStateCache w)
  /\ heap (saveCoverageState l w).2 = heap w
  /\ dbFaults (saveCoverageState l w).2 = []
  /\ logFaults (saveCoverageState l w).2 = logFaults w
  /\ logged (saveCoverageState l w).2 = logged w
  /\ exists row, row ∈ memories (saveCoverageState l w).2
       /\ mem_metadata row = s /\ mem_roomId row = roomId s.
Proof.
  intros Hdb Hl. eff_unfold. rewrite Hl. simpl. rewrite Hdb. simpl.
  destruct (take 1 (filter _ (memories w))) as [|existing rest] eqn:Htake;
    simpl; rewrite ?Hdb; simpl.
  - repeat split; auto. eexists. split.
    + apply elem_of_app. right. apply list_elem_of_singleton. reflexivity.
    + simpl. auto.
  - repeat split; auto.
    eapply updated_row_stored. exact Htake.
Qed.

(** ** Objects and references *)

Lemma deref_eq l s w : heap w !! l = Some s -> deref l w = (Returned s, w).
Proof. intros H. unfold deref. rewrite H. reflexivity. Qed.

Lemma assign_eq l f s w :
  heap w !! l = Some s ->
  assign l f w = (Returned tt, with_heap (<[l := f s]> (heap w)) w).
Proof. intros H. unfold assign. rewrite H. reflexivity. Qed.

Lemma heap_insert_lookup (h : list CoverageState) l s x :
  h !! l = Some s -> <[l := x]> h !! l = Some x.
Proof.
  intros H. apply list_lookup_insert_eq.
  apply lookup_lt_is_Some. eauto.
Qed.

Lemma new_object_lookup (h : list CoverageState) s : (h ++ [s]) !! length h = Some s.
Proof. apply list_lookup_middle. reflexivity. Qed.

(** After a save, a key that held the saved reference still holds it, so
    a reader of that key sees the object as it is now. *)
Lemma coverageView_saved l k s w :
  coverageStateCache w !! k = Some l ->
  heap w !! l = Some s ->
  coverageView (saveCoverageState l w).2 k = Some s.
Proof.
  intros Hk Hl. unfold coverageView.
  destruct (saveCoverageState_frame l w) as (Hheap & _ & [Hc | (s0 & Hs0 & Hc)]);
    rewrite Hc, Hheap.
  - rewrite Hk. simpl. exact Hl.
  - rewrite lookup_insert. case_decide; rewrite ?Hk; simpl; exact Hl.
Qed.

(** ** recordMention *)

(** On an existing state [recordMention] stores the new timestamp and adds
    one to the count.  The timestamp is overwritten before it is compared
    with [oneDayAgo], so unless the two clock readings of the one call are more
    than a day apart the count is never reset. *)
Lemma recordMention_existing svc k roomConfig now now' w s :
  getOutputRoomConfig svc k = Some roomConfig ->
  coverageView w k = Some s ->
  now' - oneDayMs <= now ->
  coverageView (recordMention svc k now now' w).2 k
  = Some (set_mentionCount24h (mentionCount24h s + 1) (set_lastMentionAt now s)).
Proof.
  intros Hcfg Hview Hclock. unfold coverageView in Hview.
  destruct (coverageStateCache w !! k) as [l|] eqn:Hk; [simpl in Hview | discriminate].
  unfold recordMention. rewrite Hcfg.
  unfold bind at 1. unfold getCoverageState. rewrite Hk.
  unfold bind at 1. unfold bind at 1.
  rewrite (assign_eq _ _ _ _ Hview).
  unfold bind at 1.
  erewrite assign_eq by (cbn [heap with_heap]; eapply heap_insert_lookup; exact Hview).
  unfold bind at 1. cbn [heap with_heap].
  erewrite deref_eq
    by (cbn [heap with_heap]; eapply heap_insert_lookup, heap_insert_lookup; exact Hview).
  simpl lastMentionAt.
  assert (Hcmp : (now <? now' - oneDayMs) = false).
  { apply Z.ltb_ge. exact Hclock. }
  rewrite Hcmp. unfold bind at 1, ret at 1. unfold ret at 1.
  apply coverageView_saved; simpl; [exact Hk |].
  eapply heap_insert_lookup, heap_insert_lookup. exact Hview.
Qed.

(** C1. A state last mentioned 25 hours ago with a count of 10: the claim
    expects the count to restart at 1, but [recordMention] leaves 11, as it
    does for a state mentioned one hour ago. *)
Theorem recordMention_stale_count_is_11 :
  coverageView
    (recordMention oneRoomService "room-1" clock clock
       (worldWith (newsState (clock - hoursMs 25) 10 0 None))).2 "room-1"
  = Some (newsState clock 11 0 None)
  /\ coverageView
       (recordMention oneRoomService "room-1" clock clock
          (worldWith (newsState (clock - hoursMs 1) 10 0 None))).2 "room-1"
     = Some (newsState clock 11 0 None).
Proof. split; vm_compute; reflexivity. Qed.

(** ** The pump's loop body on an existing state *)

Lemma view_inv w k s :
  coverageView w k = Some s ->
  exists l, coverageStateCache w !! k = Some l /\ heap w !! l = Some s.
Proof.
  unfold coverageView. destruct (coverageStateCache w !! k) as [l|]; [|discriminate].
  simpl. eauto.
Qed.

Lemma pumpRoom_existing svc now k roomConfig w l :
  coverageStateCache w !! k = Some l ->
  pumpRoom svc now k roomConfig w = safeguardGauntlet svc now l w.
Proof.
  intros Hk. unfold pumpRoom, ensureState, getCoverageState, bind, ret.
  rewrite Hk. reflexivity.
Qed.

Lemma gauntlet_muted svc now l s w :
  heap w !! l = Some s -> isMuted now s = true ->
  safeguardGauntlet svc now l w = (Returned SkippedMuted, w).
Proof.
  intros Hl Hm. unfold safeguardGauntlet, bind.
  rewrite (deref_eq _ _ _ Hl), Hm. reflexivity.
Qed.

Lemma gauntlet_capped svc now l s w :
  heap w !! l = Some s -> isMuted now s = false -> isCapped svc now s = true ->
  safeguardGauntlet svc now l w = (Returned SkippedCapped, w).
Proof.
  intros Hl Hm Hc. unfold safeguardGauntlet, bind.
  rewrite (deref_eq _ _ _ Hl), Hm, Hc. reflexivity.
Qed.

Lemma gauntlet_too_soon svc now l s w :
  heap w !! l = Some s -> isMuted now s = false -> isCapped svc now s = false ->
  now - lastMentionAt s < cadenceMs s ->
  safeguardGauntlet svc now l w = (Returned SkippedTooSoon, w).
Proof.
  intros Hl Hm Hc Hgap. unfold safeguardGauntlet, bind.
  rewrite (deref_eq _ _ _ Hl), Hm, Hc.
  apply Z.ltb_lt in Hgap. rewrite Hgap. reflexivity.
Qed.

Lemma isMuted_true now s m :
  mutedUntil s = Some m -> 0 <= now -> now < m -> isMuted now s = true.
Proof.
  intros Hm H0 Hlt. unfold isMuted. rewrite Hm.
  apply andb_true_iff. split.
  - apply negb_true_iff, Z.eqb_neq. lia.
  - apply Z.ltb_lt. exact Hlt.
Qed.

(** C2. A destination whose state carries a mute deadline that lies in the
    future is skipped by the pump's loop body at the mute check, the first of
    the checks: whatever its mention count, cadence and strikes, the verdict
    is "muted" and the world is left exactly as it was, so no coverage-gap
    signal is logged.  The loop body takes no candidate items at all.  The
    clock reading is a time since the epoch, hence not negative. *)
Theorem pumpRoom_muted_is_skipped svc now k roomConfig w s m :
  coverageView w k = Some s ->
  mutedUntil s = Some m ->
  0 <= now ->
  now < m ->
  pumpRoom svc now k roomConfig w = (Returned SkippedMuted, w).
Proof.
  intros Hview Hm H0 Hlt.
  destruct (view_inv _ _ _ Hview) as (l & Hk & Hl).
  rewrite (pumpRoom_existing _ _ _ _ _ _ Hk).
  eapply gauntlet_muted; [exact Hl |].
  eapply isMuted_true; eassumption.
Qed.

Lemma pumpRoom_muted_is_skipped_witness :
  let w := worldWith (newsState 0 0 2 (Some (clock + hoursMs 1))) in
  pumpRoom oneRoomService clock "room-1" newsRoom w = (Returned SkippedMuted, w).
Proof.
  apply (pumpRoom_muted_is_skipped oneRoomService clock "room-1" newsRoom
           (worldWith (newsState 0 0 2 (Some (clock + hoursMs 1))))
           (newsState 0 0 2 (Some (clock + hoursMs 1)))
           (clock + hoursMs 1)).
  - vm_compute. reflexivity.
  - reflexivity.
  - vm_compute. discriminate.
  - vm_compute. reflexivity.
Defined.

(** C8. A destination that is not muted, was last mentioned within the
    last 24 hours and has reached the daily cap is skipped as "capped",
    without regard to its cadence; a destination last mentioned 24 hours
    ago or earlier is never skipped as "capped", whatever its count. *)
Theorem pumpRoom_daily_cap svc now k roomConfig w s :
  coverageView w k = Some s ->
  isMuted now s = false ->
  (now - oneDayMs < lastMentionAt s ->
   dailyMentionCap (reporterConfig svc) <= mentionCount24h s ->
   pumpRoom svc now k roomConfig w = (Returned SkippedCapped, w))
  /\ (lastMentionAt s <= now - oneDayMs ->
      (pumpRoom svc now k roomConfig w).1 <> Returned SkippedCapped).
Proof.
  intros Hview Hm.
  destruct (view_inv _ _ _ Hview) as (l & Hk & Hl).
  rewrite (pumpRoom_existing _ _ _ _ _ _ Hk). split.
  - intros Hrecent Hcount. eapply gauntlet_capped; eauto.
    unfold isCapped. apply andb_true_iff. split.
    + apply Z.gtb_lt. exact Hrecent.
    + apply Z.geb_le. exact Hcount.
  - intros Hold. unfold safeguardGauntlet, bind.
    rewrite (deref_eq _ _ _ Hl), Hm.
    assert (Hc : isCapped svc now s = false).
    { unfold isCapped. apply andb_false_iff. left.
      rewrite Z.gtb_ltb. apply Z.ltb_ge. lia. }
    rewrite Hc. unfold ret.
    repeat (eff_case; simpl; try discriminate).
Qed.

Lemma pumpRoom_daily_cap_witness :
  let capped := worldWith (newsState (clock - hoursMs 3) 15 0 None) in
  let stale := worldWith (newsState (clock - hoursMs 25) 40 0 None) in
  pumpRoom oneRoomService clock "room-1" newsRoom capped = (Returned SkippedCapped, capped)
  /\ (pumpRoom oneRoomService clock "room-1" newsRoom stale).1 <> Returned SkippedCapped.
Proof.
  split.
  - apply (proj1 (pumpRoom_daily_cap oneRoomService clock "room-1" newsRoom
                    (worldWith (newsState (clock - hoursMs 3) 15 0 None))
                    (newsState (clock - hoursMs 3) 15 0 None)
                    ltac:(vm_compute; reflexivity) eq_refl)).
    + vm_compute. reflexivity.
    + vm_compute. discriminate.
  - apply (proj2 (pumpRoom_daily_cap oneRoomService clock "room-1" newsRoom
                    (worldWith (newsState (clock - hoursMs 25) 40 0 None))
                    (newsState (clock - hoursMs 25) 40 0 None)
                    ltac:(vm_compute; reflexivity) eq_refl)).
    vm_compute. discriminate.
Defined.

(** ** The breaking override *)

(** The pump never reads the [breakingOverride] setting. *)
Lemma pumpRoom_ignores_breakingOverride b svc now k roomConfig w :
  pumpRoom (with_breakingOverride b svc) now k roomConfig w
  = pumpRoom svc now k roomConfig w.
Proof. reflexivity. Qed.

(** Nor does the provider: it reads the cache only for [lastMentionAt]. *)
Lemma storyPrompt_ignores_breakingOverride b svc w k now stories :
  storyPrompt (with_breakingOverride b svc) w k now stories
  = storyPrompt svc w k now stories.
Proof. reflexivity. Qed.

(** A destination that passed the mute and cap checks and was mentioned less
    than a cadence ago is skipped as "too soon", whatever the setting. *)
Lemma pumpRoom_too_soon svc now k roomConfig w s :
  coverageView w k = Some s ->
  isMuted now s = false -> isCapped svc now s = false ->
  now - lastMentionAt s < cadenceMs s ->
  pumpRoom svc now k roomConfig w = (Returned SkippedTooSoon, w).
Proof.
  intros Hview Hm Hc Hgap.
  destruct (view_inv _ _ _ Hview) as (l & Hk & Hl).
  rewrite (pumpRoom_existing _ _ _ _ _ _ Hk).
  eapply gauntlet_too_soon; eauto.
Qed.

(** C3. The override is enabled and a story with growing momentum and
    confidence 0.9 is at hand, for a destination that is neither muted nor
    capped and was mentioned an hour ago with a cadence of two hours.  The
    claim expects the cadence check to be waived; the pump still skips the
    destination as "too soon".  The provider, for its part, lists breaking
    stories without looking at the setting, the mute or the cap: it lists
    the story for a muted, capped destination with the override disabled. *)
Theorem breaking_override_not_applied :
  let recent := worldWith (newsState (clock - hoursMs 1) 0 0 None) in
  let muted := worldWith (newsState (clock - hoursMs 1) 15 2 (Some (clock + hoursMs 23))) in
  breakingOverride (reporterConfig oneRoomService) = true
  /\ isBreaking urgentStory = true
  /\ pumpRoom oneRoomService clock "room-1" newsRoom recent
     = (Returned SkippedTooSoon, recent)
  /\ pumpRoom oneRoomService clock "room-1" newsRoom muted
     = (Returned SkippedMuted, muted)
  /\ storyPrompt (with_breakingOverride false oneRoomService) muted "room-1" clock
       [urgentStory]
     = Some {| sections := [BreakingStories ["Whale activity"%string]];
               hasBreaking := true; coverageGap := false;
               relevantStoryCount := 1 |}.
Proof. repeat split; vm_compute; reflexivity. Qed.

(** ** recordStrike *)

Lemma recordMention_unregistered svc k now now' w :
  getOutputRoomConfig svc k = None ->
  recordMention svc k now now' w = (Returned tt, w).
Proof. intros H. unfold recordMention. rewrite H. reflexivity. Qed.

Lemma recordStrike_unregistered_absent svc k now w :
  getOutputRoomConfig svc k = None ->
  coverageStateCache w !! k = None ->
  recordStrike svc k now w = (Returned tt, w).
Proof.
  intros Hcfg Hk. unfold recordStrike, bind, getCoverageState.
  rewrite Hk, Hcfg. reflexivity.
Qed.

(** The first strike against a registered destination without a state. *)
Lemma recordStrike_fresh svc k roomConfig t w :
  getOutputRoomConfig svc k = Some roomConfig ->
  coverageStateCache w !! k = None ->
  dbFaults w = [] ->
  let w1 := (recordStrike svc k t w).2 in
  coverageStateCache w1 = <[k := length (heap w)]> (coverageStateCache w)
  /\ heap w1 = heap w ++ [initialState svc k roomConfig t 0 1]
  /\ dbFaults w1 = [] /\ logFaults w1 = logFaults w /\ logged w1 = logged w.
Proof.
  intros Hcfg Hk Hdb.
  set (w0 := with_heap (heap w ++ [initialState svc k roomConfig t 0 1]) w).
  assert (Heq : recordStrike svc k t w = saveCoverageState (length (heap w)) w0).
  { unfold recordStrike.
    unfold bind at 1. unfold getCoverageState. rewrite Hk, Hcfg.
    unfold bind at 1. unfold new_object.
    unfold bind at 1.
    erewrite deref_eq by (cbn [heap with_heap]; apply new_object_lookup).
    reflexivity. }
  rewrite Heq.
  assert (Hl : heap w0 !! length (heap w) = Some (initialState svc k roomConfig t 0 1)).
  { subst w0. cbn [heap with_heap]. apply new_object_lookup. }
  destruct (saveCoverageState_ok _ _ w0 Hdb Hl) as (_ & Hc & Hh & Hd & Hlf & Hlg & _).
  cbn zeta. rewrite Hc, Hh, Hd, Hlf, Hlg. subst w0. simpl. auto.
Qed.

(** A strike against an existing state that reaches the threshold: the
    count and the mute deadline are assigned in place, before the logger and
    the persistence layer are called, so they are visible whatever those do. *)
Lemma recordStrike_existing svc k t w s :
  coverageView w k = Some s ->
  1 <= strikes s ->
  coverageView (recordStrike svc k t w).2 k
  = Some (set_mutedUntil (t + hoursMs (strikeMuteHours (reporterConfig svc)))
            (set_strikes (strikes s + 1) s)).
Proof.
  intros Hview Hs.
  destruct (view_inv _ _ _ Hview) as (l & Hk & Hl).
  unfold recordStrike.
  unfold bind at 1. unfold getCoverageState. rewrite Hk.
  unfold bind at 1. rewrite (assign_eq _ _ _ _ Hl).
  unfold bind at 1.
  erewrite deref_eq by (cbn [heap with_heap]; eapply heap_insert_lookup; exact Hl).
  cbn [strikes set_strikes].
  assert (Hge : (strikes s + 1 >=? 2) = true) by (apply Z.geb_le; lia).
  rewrite Hge.
  unfold bind at 1. unfold bind at 1.
  erewrite assign_eq by (cbn [heap with_heap]; eapply heap_insert_lookup; exact Hl).
  cbn [heap with_heap roomName set_strikes].
  set (w2 := with_heap _ (with_heap _ w)).
  assert (Hk2 : coverageStateCache w2 !! k = Some l) by exact Hk.
  assert (Hl2 : heap w2 !! l
                = Some (set_mutedUntil (t + hoursMs (strikeMuteHours (reporterConfig svc)))
                          (set_strikes (strikes s + 1) s))).
  { subst w2. cbn [heap with_heap].
    eapply heap_insert_lookup, heap_insert_lookup. exact Hl. }
  unfold logger. destruct (next_fault (logFaults w2)) as [[] rest].
  - cbn. unfold coverageView. cbn. rewrite Hk. cbn. exact Hl2.
  - apply coverageView_saved; assumption.
Qed.

(** C6. Two strikes against a registered destination that has no state
    leave it with two strikes and a mute deadline one mute duration after the
    second strike; and any strike against a state that already has two or more
    strikes sets the deadline afresh, one mute duration after that strike. *)
Theorem two_strikes_then_mute svc k roomConfig t1 t2 w :
  getOutputRoomConfig svc k = Some roomConfig ->
  coverageStateCache w !! k = None ->
  dbFaults w = [] ->
  (exists s,
      coverageView (recordStrike svc k t2 (recordStrike svc k t1 w).2).2 k = Some s
      /\ strikes s = 2
      /\ mutedUntil s = Some (t2 + hoursMs (strikeMuteHours (reporterConfig svc))))
  /\ (forall t w' s,
        coverageView w' k = Some s ->
        2 <= strikes s ->
        exists s',
          coverageView (recordStrike svc k t w').2 k = Some s'
          /\ strikes s' = strikes s + 1
          /\ mutedUntil s' = Some (t + hoursMs (strikeMuteHours (reporterConfig svc)))).
Proof.
  intros Hcfg Hk Hdb. split.
  - destruct (recordStrike_fresh svc k roomConfig t1 w Hcfg Hk Hdb)
      as (Hc & Hh & _).
    eexists. split.
    + apply recordStrike_existing with (s := initialState svc k roomConfig t1 0 1).
      * unfold coverageView. rewrite Hc, Hh, lookup_insert_eq. simpl.
        apply new_object_lookup.
      * simpl. lia.
    + simpl. auto.
  - intros t w' s Hview Hs. eexists. split.
    + apply recordStrike_existing; [exact Hview | lia].
    + simpl. auto.
Qed.

Lemma two_strikes_then_mute_witness :
  exists s,
    coverageView
      (recordStrike oneRoomService "room-1" (clock + 5000)
         (recordStrike oneRoomService "room-1" clock emptyWorld).2).2 "room-1" = Some s
    /\ strikes s = 2
    /\ mutedUntil s = Some (clock + 5000 + 86400000).
Proof.
  exact (proj1 (two_strikes_then_mute oneRoomService "room-1" newsRoom
                  clock (clock + 5000) emptyWorld eq_refl eq_refl eq_refl)).
Defined.

(** C9. After a restart the cache holds the state of "room-9", which is
    not an output room.  The claim expects [recordStrike] to leave every state
    alone for such an id; it adds a strike, mutes the room and rewrites the
    stored row.  [recordMention], which looks the room up first, does nothing. *)
Theorem recordStrike_changes_unregistered_state :
  let w' := (recordStrike oneRoomService "room-9" clock restartedWorld).2 in
  let struck :=
    set_mutedUntil (clock + 86400000) (set_strikes 2 retiredState) in
  getOutputRoomConfig oneRoomService "room-9" = None
  /\ coverageView restartedWorld "room-9" = Some retiredState
  /\ coverageView w' "room-9" = Some struck
  /\ mem_metadata <$> memories w' = [struck]
  /\ recordMention oneRoomService "room-9" clock clock restartedWorld
     = (Returned tt, restartedWorld).
Proof. repeat split; vm_compute; reflexivity. Qed.

(** ** Strike decay in the pump *)

(** The logger touches nothing but the log and its own oracle. *)
Lemma logger_frame entry w :
  heap (logger entry w).2 = heap w
  /\ coverageStateCache (logger entry w).2 = coverageStateCache w
  /\ memories (logger entry w).2 = memories w
  /\ evaluated (logger entry w).2 = evaluated w
  /\ dbFaults (logger entry w).2 = dbFaults w.
Proof. unfold logger. destruct (next_fault (logFaults w)) as [[] ?]; simpl; auto. Qed.

(** Without decay the gauntlet changes no object, no cache entry and no
    stored row. *)
Lemma gauntlet_without_decay svc now l s w :
  heap w !! l = Some s ->
  strikes s <= 0
  \/ now - lastMentionAt s <= hoursMs (strikeDecayHours (reporterConfig svc)) ->
  heap (safeguardGauntlet svc now l w).2 = heap w
  /\ coverageStateCache (safeguardGauntlet svc now l w).2 = coverageStateCache w
  /\ memories (safeguardGauntlet svc now l w).2 = memories w.
Proof.
  intros Hl Hwin.
  destruct (safeguardGauntlet svc now l w) as [r w'] eqn:E. simpl.
  revert E. unfold safeguardGauntlet. unfold bind at 1.
  rewrite (deref_eq _ _ _ Hl).
  destruct (isMuted now s); [intros [= <- <-]; auto |].
  destruct (isCapped svc now s); [intros [= <- <-]; auto |].
  destruct (now - lastMentionAt s <? cadenceMs s); [intros [= <- <-]; auto |].
  cbn zeta.
  assert (Hskip :
    (if strikes s >? 0
     then if now - lastMentionAt s >? hoursMs (strikeDecayHours (reporterConfig svc))
          then exec assign l (fun s => set_strikes (Z.max 0 (strikes s - 1)) s);
               saveCoverageState l
          else ret tt
     else ret tt) = ret tt).
  { destruct (strikes s >? 0) eqn:Hpos; [| reflexivity].
    destruct (now - lastMentionAt s >? _) eqn:Hold; [| reflexivity].
    apply Z.gtb_lt in Hpos, Hold. lia. }
  rewrite Hskip. unfold bind, ret.
  pose proof (logger_frame (DebugCoverageGap (roomName s) (now - lastMentionAt s)) w)
    as (Hh & Hc & Hm & _).
  destruct (logger _ w) as [[[]|e] w'']; simpl in *; intros [= <- <-]; auto.
Qed.

(** Within the decay window after [lastMentionAt] the loop body leaves the
    state of the destination as it is. *)
Lemma pumpRoom_no_decay_within_window svc now k roomConfig w s :
  coverageView w k = Some s ->
  now - lastMentionAt s <= hoursMs (strikeDecayHours (reporterConfig svc)) ->
  coverageView (pumpRoom svc now k roomConfig w).2 k = Some s.
Proof.
  intros Hview Hwin.
  destruct (view_inv _ _ _ Hview) as (l & Hk & Hl).
  rewrite (pumpRoom_existing _ _ _ _ _ _ Hk).
  destruct (gauntlet_without_decay svc now _ _ w Hl (or_intror Hwin))
    as (Hh & Hc & _).
  unfold coverageView. rewrite Hc, Hh. exact Hview.
Qed.

(** The gap reported with the coverage-gap signal is the time since the
    state's [lastMentionAt], and is at least the cadence. *)
Lemma gauntlet_gap svc now l s w g :
  heap w !! l = Some s ->
  (safeguardGauntlet svc now l w).1 = Returned (CoverageGap g) ->
  g = now - lastMentionAt s /\ cadenceMs s <= g.
Proof.
  intros Hl. unfold safeguardGauntlet. unfold bind at 1.
  rewrite (deref_eq _ _ _ Hl).
  destruct (isMuted now s); [discriminate |].
  destruct (isCapped svc now s); [discriminate |].
  destruct (now - lastMentionAt s <? cadenceMs s) eqn:Hgap; [discriminate |].
  apply Z.ltb_ge in Hgap.
  unfold bind, ret.
  repeat (eff_case; simpl; try discriminate);
    intros [= <-]; auto.
Qed.

(** C10. The state created by a strike against a registered destination
    without a state has one strike, no mention, and the time of the strike as
    [lastMentionAt].  Hence, as long as no more than the decay window has
    passed since the strike, a pump tick leaves the state and its strike as
    they are; as long as less than the cadence has passed, the destination
    is skipped; and whenever the coverage-gap signal is given, the gap it
    reports is the time since the strike. *)
Theorem strike_created_state svc k roomConfig t0 w :
  getOutputRoomConfig svc k = Some roomConfig ->
  coverageStateCache w !! k = None ->
  dbFaults w = [] ->
  let w1 := (recordStrike svc k t0 w).2 in
  let created := initialState svc k roomConfig t0 0 1 in
  coverageView w1 k = Some created
  /\ strikes created = 1 /\ mentionCount24h created = 0 /\ lastMentionAt created = t0
  /\ (forall now rc,
        now - t0 <= hoursMs (strikeDecayHours (reporterConfig svc)) ->
        coverageView (pumpRoom svc now k rc w1).2 k = Some created)
  /\ (forall now rc,
        now - t0 < cadenceMs created ->
        pumpRoom svc now k rc w1 = (Returned SkippedCapped, w1)
        \/ pumpRoom svc now k rc w1 = (Returned SkippedTooSoon, w1))
  /\ (forall now rc g,
        (pumpRoom svc now k rc w1).1 = Returned (CoverageGap g) -> g = now - t0).
Proof.
  intros Hcfg Hk Hdb w1 created.
  destruct (recordStrike_fresh svc k roomConfig t0 w Hcfg Hk Hdb) as (Hc & Hh & _).
  fold w1 in Hc, Hh.
  assert (Hk1 : coverageStateCache w1 !! k = Some (length (heap w)))
    by (rewrite Hc; apply lookup_insert_eq).
  assert (Hl1 : heap w1 !! length (heap w) = Some created)
    by (rewrite Hh; apply new_object_lookup).
  assert (Hview : coverageView w1 k = Some created)
    by (unfold coverageView; rewrite Hk1; exact Hl1).
  repeat split; try exact Hview.
  - intros now rc Hwin. apply pumpRoom_no_decay_within_window; assumption.
  - intros now rc Hgap. rewrite (pumpRoom_existing _ _ _ _ _ _ Hk1).
    assert (Hm : isMuted now created = false) by reflexivity.
    destruct (isCapped svc now created) eqn:Hcap.
    + left. eapply gauntlet_capped; eauto.
    + right. eapply gauntlet_too_soon; eauto.
  - intros now rc g. rewrite (pumpRoom_existing _ _ _ _ _ _ Hk1).
    intros Hv. apply (gauntlet_gap _ _ _ _ _ _ Hl1) in Hv as [-> _]. reflexivity.
Qed.

Lemma strike_created_state_witness :
  coverageView (recordStrike oneRoomService "room-1" clock emptyWorld).2 "room-1"
  = Some (newsState clock 0 1 None).
Proof.
  exact (proj1 (strike_created_state oneRoomService "room-1" newsRoom clock emptyWorld
                  eq_refl eq_refl eq_refl)).
Defined.

(** The decay step of the loop body.  For a destination that passes the
    mute, cap and cadence checks and has at least one strike: if the time
    since its [lastMentionAt] exceeds the decay window, the loop body takes one
    strike off (never going below zero) and saves the state, so that the
    stored row carries the new count when persistence works. *)
Lemma pumpRoom_decays_and_saves svc now k roomConfig w s :
  coverageView w k = Some s ->
  isMuted now s = false ->
  isCapped svc now s = false ->
  cadenceMs s <= now - lastMentionAt s ->
  0 < strikes s ->
  hoursMs (strikeDecayHours (reporterConfig svc)) < now - lastMentionAt s ->
  coverageView (pumpRoom svc now k roomConfig w).2 k
  = Some (set_strikes (strikes s - 1) s)
  /\ 0 <= strikes s - 1
  /\ (dbFaults w = [] ->
      exists row, row ∈ memories (pumpRoom svc now k roomConfig w).2
        /\ mem_metadata row = set_strikes (strikes s - 1) s
        /\ mem_roomId row = roomId s).
Proof.
  intros Hview Hm Hc Hcad Hs Hwin.
  destruct (view_inv _ _ _ Hview) as (l & Hk & Hl).
  rewrite (pumpRoom_existing _ _ _ _ _ _ Hk).
  destruct (safeguardGauntlet svc now l w) as [r w'] eqn:E. simpl.
  revert E. unfold safeguardGauntlet. unfold bind at 1.
  rewrite (deref_eq _ _ _ Hl), Hm, Hc.
  assert (Hgap : (now - lastMentionAt s <? cadenceMs s) = false)
    by (apply Z.ltb_ge; exact Hcad).
  assert (Hpos : (strikes s >? 0) = true) by (apply Z.gtb_lt; exact Hs).
  assert (Hold : (now - lastMentionAt s
                  >? hoursMs (strikeDecayHours (reporterConfig svc))) = true)
    by (apply Z.gtb_lt; exact Hwin).
  rewrite Hgap. cbn zeta. rewrite Hpos, Hold.
  unfold bind at 1. unfold bind at 1.
  rewrite (assign_eq _ _ _ _ Hl).
  replace (0 `max` (strikes s - 1)) with (strikes s - 1) by lia.
  set (w1 := with_heap _ w).
  assert (Hk1 : coverageStateCache w1 !! k = Some l) by exact Hk.
  assert (Hl1 : heap w1 !! l = Some (set_strikes (strikes s - 1) s)).
  { subst w1. cbn [heap with_heap]. eapply heap_insert_lookup. exact Hl. }
  pose proof (coverageView_saved _ _ _ _ Hk1 Hl1) as Hsaved.
  pose proof (saveCoverageState_ok l (set_strikes (strikes s - 1) s) w1) as Hok.
  destruct (saveCoverageState l w1) as [[[]|e] w2]; simpl in Hsaved, Hok.
  - unfold bind, ret.
    pose proof (logger_frame (DebugCoverageGap (roomName s) (now - lastMentionAt s)) w2)
      as (Hh & Hcc & Hmem & _).
    destruct (logger _ w2) as [[[]|e] w3]; simpl in *; intros [= <- <-];
      (split; [unfold coverageView in *; rewrite Hcc, Hh; exact Hsaved |]);
      (split; [lia |]); intros Hdb; rewrite Hmem;
      destruct (Hok Hdb Hl1) as (_ & _ & _ & _ & _ & _ & row & Hrow & Hmeta & Hroom);
      eauto.
  - intros [= <- <-]. split; [exact Hsaved |]. split; [lia |].
    intros Hdb.
    destruct (Hok Hdb Hl1) as (_ & _ & _ & _ & _ & _ & row & Hrow & Hmeta & Hroom).
    eauto.
Qed.

(** C7, the claim as stated fails.  A destination last mentioned 49 hours
    ago drew two complaints an hour ago and is muted for another 23 hours: it
    has strikes and its last mention is older than the 48-hour window, yet a
    whole pump tick skips it at the mute check and takes no strike off. *)
Lemma muted_room_keeps_its_strikes :
  let s := newsState (clock - hoursMs 49) 0 2 (Some (clock + hoursMs 23)) in
  let w' := (coveragePumpTick oneRoomService clock (worldWith s)).2 in
  0 < strikes s
  /\ hoursMs (strikeDecayHours (reporterConfig oneRoomService)) < clock - lastMentionAt s
  /\ evaluated w' = [("room-1"%string, SkippedMuted)]
  /\ coverageView w' "room-1" = Some s
  /\ (strikes <$> coverageView w' "room-1") <> Some (strikes s - 1).
Proof. repeat split; vm_compute; congruence. Qed.

(** ** Persistence failures *)

Ltac eff_unfold_ops :=
  unfold getCoverageState, record_verdict, new_object, deref, assign, bind, ret in *.

(** Closes a goal about the world left by a save whose persistence calls
    throw, the faults being those of the world [Hf] speaks about. *)
Ltac failed_save Hf :=
  match goal with
  | |- context [saveCoverageState ?l ?w0] =>
      let Hc := fresh "Hc" in
      let Hm := fresh "Hm" in
      destruct (saveCoverageState_failed l w0 Hf) as (Hc & Hm & _);
      first [rewrite Hc | rewrite Hm]; reflexivity
  end.

(** The same for saves that the case analysis has named. *)
Ltac named_failed_save Hf :=
  repeat match goal with
  | E : saveCoverageState ?l ?w0 = _ |- _ =>
      let H := fresh "Hsave" in
      pose proof (saveCoverageState_failed l w0 Hf) as H;
      rewrite E in H; simpl in H; destruct H as (? & ? & ?); clear E
  end.

Lemma recordMention_failed_persist svc k now now' w :
  persistFails (dbFaults w) = true ->
  coverageStateCache (recordMention svc k now now' w).2 = coverageStateCache w
  /\ memories (recordMention svc k now now' w).2 = memories w.
Proof.
  intros Hf. unfold recordMention.
  destruct (getOutputRoomConfig svc k); [| auto].
  eff_unfold_ops.
  repeat (eff_case; simpl in *; simplify_eq); simpl; split;
    first [congruence | failed_save Hf].
Qed.

Lemma recordStrike_failed_persist svc k now w :
  persistFails (dbFaults w) = true ->
  coverageStateCache (recordStrike svc k now w).2 = coverageStateCache w
  /\ memories (recordStrike svc k now w).2 = memories w.
Proof.
  intros Hf. unfold recordStrike, logger, next_fault. eff_unfold_ops.
  repeat (eff_case; simpl in *; simplify_eq); simpl; split;
    first [congruence | failed_save Hf].
Qed.

Lemma gauntlet_failed_persist svc now l w :
  persistFails (dbFaults w) = true ->
  coverageStateCache (safeguardGauntlet svc now l w).2 = coverageStateCache w
  /\ memories (safeguardGauntlet svc now l w).2 = memories w.
Proof.
  intros Hf. unfold safeguardGauntlet, logger, next_fault. eff_unfold_ops.
  repeat (eff_case; simpl in *; simplify_eq); named_failed_save Hf;
    simpl; split; congruence.
Qed.

Lemma pumpRoom_failed_persist svc now k roomConfig w :
  persistFails (dbFaults w) = true ->
  coverageStateCache (pumpRoom svc now k roomConfig w).2 = coverageStateCache w
  /\ memories (pumpRoom svc now k roomConfig w).2 = memories w.
Proof.
  intros Hf.
  destruct (coverageStateCache w !! k) as [l|] eqn:Hk.
  - rewrite (pumpRoom_existing _ _ _ _ _ _ Hk).
    apply gauntlet_failed_persist. exact Hf.
  - destruct (pumpRoom svc now k roomConfig w) as [r w'] eqn:E. simpl.
    revert E. unfold pumpRoom, ensureState.
    unfold bind at 1. unfold bind at 1. unfold getCoverageState. rewrite Hk.
    unfold bind at 1. unfold new_object. unfold bind at 1.
    set (created := initialState svc k roomConfig 0 0 0).
    set (w0 := with_heap (heap w ++ [created]) w).
    destruct (saveCoverageState_failed (length (heap w)) w0 Hf) as (Hc & Hm & Hh).
    destruct (saveCoverageState (length (heap w)) w0) as [[[]|e] w1];
      simpl in Hc, Hm, Hh.
    + unfold ret at 1.
      assert (Hl1 : heap w1 !! length (heap w) = Some created)
        by (rewrite Hh; apply new_object_lookup).
      destruct (gauntlet_without_decay svc now _ _ w1 Hl1) as (_ & Hc' & Hm').
      { left. simpl. lia. }
      intros E. rewrite E in Hc', Hm'. simpl in Hc', Hm'. split; congruence.
    + intros [= <- <-]. auto.
Qed.

(** A failed persistence call is logged by [saveCoverageState] itself. *)
Lemma saveCoverageState_logs_failure l s w :
  heap w !! l = Some s ->
  persistFails (dbFaults w) = true ->
  logFaults w = [] ->
  saveCoverageState l w
  = (Returned tt,
     with_logged (logged w ++ [ErrorSavingState PersistenceError])
       (saveCoverageState l w).2)
  /\ logged (saveCoverageState l w).2 = logged w ++ [ErrorSavingState PersistenceError].
Proof.
  intros Hl Hf Hlog. eff_unfold. rewrite Hl. simpl.
  destruct (dbFaults w) as [|[] [|[] ?]] eqn:Hdb; simpl in Hf; try discriminate;
    simpl; rewrite ?Hlog; simpl;
    repeat (eff_case; simpl in *; rewrite ?Hlog in *; simplify_eq); simpl;
    rewrite ?Hlog; simpl; auto.
Qed.

(** C5, as amended.  When the persistence calls of the save throw, each of
    the three mutations leaves the stored rows and the table of the cache as
    they were: no entry is added or replaced, and a destination that had no
    state has none afterwards.  The fields of a state that is already cached
    are, however, assigned on the cached object before the save is tried:
    after [recordMention] a reader sees the new timestamp and count. *)
Theorem failed_persist_keeps_cache_table svc k roomConfig now now' w :
  persistFails (dbFaults w) = true ->
  let wm := (recordMention svc k now now' w).2 in
  let ws := (recordStrike svc k now w).2 in
  let wp := (pumpRoom svc now k roomConfig w).2 in
  (coverageStateCache wm = coverageStateCache w /\ memories wm = memories w)
  /\ (coverageStateCache ws = coverageStateCache w /\ memories ws = memories w)
  /\ (coverageStateCache wp = coverageStateCache w /\ memories wp = memories w)
  /\ (coverageStateCache w !! k = None ->
      coverageView wm k = None /\ coverageView ws k = None /\ coverageView wp k = None)
  /\ (forall s,
        getOutputRoomConfig svc k = Some roomConfig ->
        coverageView w k = Some s ->
        now' - oneDayMs <= now ->
        coverageView wm k
        = Some (set_mentionCount24h (mentionCount24h s + 1) (set_lastMentionAt now s))).
Proof.
  intros Hf wm ws wp.
  destruct (recordMention_failed_persist svc k now now' w Hf) as (Hcm & Hmm).
  destruct (recordStrike_failed_persist svc k now w Hf) as (Hcs & Hms).
  destruct (pumpRoom_failed_persist svc now k roomConfig w Hf) as (Hcp & Hmp).
  fold wm in Hcm, Hmm. fold ws in Hcs, Hms. fold wp in Hcp, Hmp.
  split; [auto |]. split; [auto |]. split; [auto |]. split.
  - intros Hk. unfold coverageView. rewrite Hcm, Hcs, Hcp, Hk. auto.
  - intros s Hcfg Hview Hclock. eapply recordMention_existing; eassumption.
Qed.

Lemma failed_persist_keeps_cache_table_witness :
  let w := with_dbFaults [true] emptyWorld in
  coverageStateCache (recordStrike oneRoomService "room-1" clock w).2 = ∅
  /\ memories (recordStrike oneRoomService "room-1" clock w).2 = [].
Proof.
  exact (proj1 (proj2 (failed_persist_keeps_cache_table oneRoomService "room-1"
                         newsRoom clock clock (with_dbFaults [true] emptyWorld)
                         eq_refl))).
Defined.

(** C5, the claim as stated fails.  The state of "room-1" is cached; the
    persistence call of [recordMention] throws.  Nothing is stored and the
    failure is logged, yet a reader of the cache sees the new timestamp and
    the count 11 instead of the state as it was before the call. *)
Lemma failed_persist_mutation_is_visible :
  let s := newsState (clock - hoursMs 1) 10 0 None in
  let w := with_dbFaults [true] (worldWith s) in
  let w' := (recordMention oneRoomService "room-1" clock clock w).2 in
  persistFails (dbFaults w) = true
  /\ memories w' = memories w
  /\ logged w' = [ErrorSavingState PersistenceError]
  /\ coverageView w "room-1" = Some s
  /\ coverageView w' "room-1" = Some (newsState clock 11 0 None)
  /\ coverageView w' "room-1" <> coverageView w "room-1".
Proof. repeat split; vm_compute; congruence. Qed.

(** ** Exceptions during a tick *)

Lemma cache_valid_heap (h : list CoverageState) w :
  (length (heap w) <= length h)%nat ->
  cache_valid w -> cache_valid (with_heap h w).
Proof.
  intros Hlen Hv k l Hk. simpl in *.
  apply lookup_lt_is_Some. apply Hv, lookup_lt_is_Some in Hk. lia.
Qed.

Lemma saveCoverageState_valid l w :
  cache_valid w -> cache_valid (saveCoverageState l w).2.
Proof.
  intros Hv k l' Hk.
  destruct (saveCoverageState_frame l w) as (Hh & _ & [Hc | (s & Hs & Hc)]);
    rewrite Hh; rewrite Hc in Hk.
  - eapply Hv, Hk.
  - rewrite lookup_insert in Hk. case_decide.
    + injection Hk as <-. eauto.
    + eapply Hv, Hk.
Qed.

(** The soundness of the cache is an invariant of the service: it holds at
    the start and every operation keeps it, whatever throws. *)
Ltac valid_step :=
  simpl;
  first
    [ assumption
    | apply saveCoverageState_valid; valid_step
    | apply cache_valid_heap;
        [ cbn [heap with_heap]; rewrite ?length_insert, ?length_app; simpl; lia
        | valid_step ] ].

(** Soundness after the saves that a case analysis has named. *)
Ltac valid_after_saves :=
  repeat match goal with
  | E : saveCoverageState ?l ?w0 = (_, ?w1) |- _ =>
      let H := fresh "Hvalid" in
      assert (H : cache_valid w1)
        by (replace w1 with (saveCoverageState l w0).2 by (rewrite E; reflexivity);
            valid_step);
      clear E
  end.

Lemma recordMention_valid svc k now now' w :
  cache_valid w -> cache_valid (recordMention svc k now now' w).2.
Proof.
  intros Hv. unfold recordMention.
  destruct (getOutputRoomConfig svc k); [| exact Hv].
  eff_unfold_ops.
  repeat (eff_case; simpl in *; simplify_eq); valid_step.
Qed.

Lemma recordStrike_valid svc k now w :
  cache_valid w -> cache_valid (recordStrike svc k now w).2.
Proof.
  intros Hv. unfold recordStrike, logger, next_fault.
  eff_unfold_ops.
  repeat (eff_case; simpl in *; simplify_eq); valid_step.
Qed.

Lemma gauntlet_valid svc now l w :
  cache_valid w -> cache_valid (safeguardGauntlet svc now l w).2.
Proof.
  intros Hv. unfold safeguardGauntlet, logger, next_fault.
  eff_unfold_ops.
  repeat (eff_case; simpl in *; simplify_eq); valid_after_saves; valid_step.
Qed.

Lemma ensureState_valid svc k roomConfig w :
  cache_valid w -> cache_valid (ensureState svc k roomConfig w).2.
Proof.
  intros Hv. unfold ensureState.
  eff_unfold_ops.
  repeat (eff_case; simpl in *; simplify_eq); valid_after_saves; valid_step.
Qed.

Lemma pumpRoom_valid svc now k roomConfig w :
  cache_valid w -> cache_valid (pumpRoom svc now k roomConfig w).2.
Proof.
  intros Hv. unfold pumpRoom, bind.
  pose proof (ensureState_valid svc k roomConfig w Hv) as Hv1.
  destruct (ensureState svc k roomConfig w) as [[l|e] w1]; simpl in *.
  - apply gauntlet_valid. exact Hv1.
  - exact Hv1.
Qed.

Lemma pumpLoop_valid svc now rooms :
  forall w, cache_valid w -> cache_valid (pumpLoop svc now rooms w).2.
Proof.
  induction rooms as [|[k roomConfig] rest IH]; intros w Hv; [exact Hv |].
  cbn [pumpLoop]. unfold bind at 1.
  pose proof (pumpRoom_valid svc now k roomConfig w Hv) as Hv1.
  destruct (pumpRoom svc now k roomConfig w) as [[v|e] w1]; simpl in *.
  - unfold bind, record_verdict. apply IH. exact Hv1.
  - exact Hv1.
Qed.

Lemma coveragePumpTick_valid svc now w :
  cache_valid w -> cache_valid (coveragePumpTick svc now w).2.
Proof.
  intros Hv. unfold coveragePumpTick, try_catch.
  pose proof (pumpLoop_valid svc now (outputRooms svc) w Hv) as Hv1.
  destruct (pumpLoop svc now (outputRooms svc) w) as [[[]|e] w1]; simpl in *.
  - exact Hv1.
  - unfold logger. destruct (next_fault (logFaults w1)) as [[] ?]; exact Hv1.
Qed.

Lemma cacheRows_valid rows :
  forall w, cache_valid w -> cache_valid (cacheRows rows w).2.
Proof.
  induction rows as [|memory rest IH]; intros w Hv; [exact Hv |].
  cbn [cacheRows]. unfold bind at 1.
  case_bool_decide.
  - unfold ret. apply IH. exact Hv.
  - unfold bind, new_object, cache_set. apply IH.
    intros k l Hk. simpl in *. rewrite lookup_insert in Hk. case_decide.
    + injection Hk as <-. rewrite new_object_lookup. eauto.
    + apply lookup_lt_is_Some. apply Hv, lookup_lt_is_Some in Hk.
      rewrite length_app. lia.
Qed.

Lemma loadCoverageState_valid w :
  cache_valid w -> cache_valid (loadCoverageState w).2.
Proof.
  intros Hv. unfold loadCoverageState, try_catch, db_call, next_fault.
  unfold bind at 1.
  destruct (dbFaults w) as [|[] fs]; simpl.
  - unfold bind.
    pose proof (cacheRows_valid (take 100 (memories w))
                  (with_memories (memories w) (with_dbFaults [] w)) Hv) as Hv1.
    destruct (cacheRows _ _) as [[[]|e] w1]; simpl in *;
      unfold logger; repeat (destruct (next_fault _) as [[] ?]; simpl); exact Hv1.
  - unfold logger. destruct (next_fault _) as [[] ?]; exact Hv.
  - unfold bind.
    pose proof (cacheRows_valid (take 100 (memories w))
                  (with_memories (memories w) (with_dbFaults fs w)) Hv) as Hv1.
    destruct (cacheRows _ _) as [[[]|e] w1]; simpl in *;
      unfold logger; repeat (destruct (next_fault _) as [[] ?]; simpl); exact Hv1.
Qed.

Lemma saveCoverageState_steady ev l w :
  steady ev w ->
  exists w', saveCoverageState l w = (Returned tt, w')
    /\ steady ev w' /\ heap w' = heap w.
Proof.
  intros (Hv & Hlog & Hev).
  destruct (saveCoverageState_returns l w Hlog) as (Hr & Hlog').
  destruct (saveCoverageState_frame l w) as (Hh & He & _).
  pose proof (saveCoverageState_valid l w Hv) as Hv'.
  destruct (saveCoverageState l w) as [r w']. simpl in *. subst r.
  exists w'. repeat split; auto. congruence.
Qed.

Lemma logger_steady ev entry w :
  steady ev w ->
  exists w', logger entry w = (Returned tt, w') /\ steady ev w'.
Proof.
  intros (Hv & Hlog & Hev). unfold logger. rewrite Hlog. simpl.
  eexists. split; [reflexivity |]. repeat split; auto.
Qed.

Lemma ensureState_steady ev svc k roomConfig w :
  steady ev w ->
  exists l w', ensureState svc k roomConfig w = (Returned l, w')
    /\ steady ev w' /\ is_Some (heap w' !! l).
Proof.
  intros Hst. unfold ensureState. unfold bind at 1. unfold getCoverageState.
  destruct (coverageStateCache w !! k) as [l|] eqn:Hk.
  - exists l, w. split; [reflexivity |]. split; [exact Hst |].
    destruct Hst as (Hv & _). eapply Hv, Hk.
  - unfold bind at 1. unfold new_object.
    set (created := initialState svc k roomConfig 0 0 0).
    set (w0 := with_heap (heap w ++ [created]) w).
    assert (Hst0 : steady ev w0).
    { destruct Hst as (Hv & Hlog & Hev). repeat split; auto.
      apply cache_valid_heap; [rewrite length_app; lia | exact Hv]. }
    destruct (saveCoverageState_steady ev (length (heap w)) w0 Hst0)
      as (w1 & Hsave & Hst1 & Hh1).
    unfold bind. rewrite Hsave. unfold ret.
    exists (length (heap w)), w1. split; [reflexivity |]. split; [exact Hst1 |].
    rewrite Hh1. subst w0. cbn [heap with_heap]. rewrite new_object_lookup. eauto.
Qed.

Lemma gauntlet_steady ev svc now l w :
  steady ev w ->
  is_Some (heap w !! l) ->
  exists v w', safeguardGauntlet svc now l w = (Returned v, w') /\ steady ev w'.
Proof.
  intros Hst [s Hl]. unfold safeguardGauntlet. unfold bind at 1.
  rewrite (deref_eq _ _ _ Hl).
  destruct (isMuted now s); [eexists _, w; split; [reflexivity | exact Hst] |].
  destruct (isCapped svc now s); [eexists _, w; split; [reflexivity | exact Hst] |].
  cbn zeta.
  destruct (now - lastMentionAt s <? cadenceMs s);
    [eexists _, w; split; [reflexivity | exact Hst] |].
  assert (Hdecay : exists w1,
    (if strikes s >? 0
     then if now - lastMentionAt s >? hoursMs (strikeDecayHours (reporterConfig svc))
          then exec assign l (fun s => set_strikes (Z.max 0 (strikes s - 1)) s);
               saveCoverageState l
          else ret tt
     else ret tt) w = (Returned tt, w1) /\ steady ev w1).
  { destruct (strikes s >? 0); [| exists w; split; [reflexivity | exact Hst]].
    destruct (now - lastMentionAt s >? _); [| exists w; split; [reflexivity | exact Hst]].
    unfold bind. rewrite (assign_eq _ _ _ _ Hl).
    set (w0 := with_heap _ w).
    assert (Hst0 : steady ev w0).
    { destruct Hst as (Hv & Hlog & Hev). repeat split; auto.
      apply cache_valid_heap; [rewrite length_insert; lia | exact Hv]. }
    destruct (saveCoverageState_steady ev l w0 Hst0) as (w1 & Hsave & Hst1 & _).
    exists w1. split; [exact Hsave | exact Hst1]. }
  destruct Hdecay as (w1 & Hrun & Hst1).
  unfold bind at 1. rewrite Hrun.
  destruct (logger_steady ev (DebugCoverageGap (roomName s) (now - lastMentionAt s))
              w1 Hst1) as (w2 & Hlogger & Hst2).
  unfold bind. rewrite Hlogger. unfold ret. eauto.
Qed.

Lemma pumpRoom_steady ev svc now k roomConfig w :
  steady ev w ->
  exists v w', pumpRoom svc now k roomConfig w = (Returned v, w') /\ steady ev w'.
Proof.
  intros Hst. unfold pumpRoom.
  destruct (ensureState_steady ev svc k roomConfig w Hst) as (l & w1 & He & Hst1 & Hl).
  unfold bind. rewrite He.
  apply gauntlet_steady; assumption.
Qed.

(** With a logger that does not throw, the loop reaches the end of the
    room list and records one verdict for every room, in order. *)
Lemma pumpLoop_processes_all svc now rooms :
  forall ev w,
    steady ev w ->
    exists vs w',
      pumpLoop svc now rooms w = (Returned tt, w')
      /\ steady (ev ++ vs) w' /\ vs.*1 = rooms.*1.
Proof.
  induction rooms as [|[k roomConfig] rest IH]; intros ev w Hst.
  - exists [], w. rewrite app_nil_r. auto.
  - cbn [pumpLoop].
    destruct (pumpRoom_steady ev svc now k roomConfig w Hst) as (v & w1 & Hp & Hst1).
    unfold bind at 1. rewrite Hp.
    unfold bind at 1. unfold record_verdict.
    set (w2 := with_evaluated _ w1).
    assert (Hst2 : steady (ev ++ [(k, v)]) w2).
    { destruct Hst1 as (Hv & Hlog & Hev). repeat split; auto.
      subst w2. simpl. rewrite Hev. reflexivity. }
    destruct (IH _ _ Hst2) as (vs & w' & Hloop & Hst' & Hvs).
    exists ((k, v) :: vs), w'. split; [exact Hloop |]. split.
    + rewrite <- app_assoc in Hst'. exact Hst'.
    + rewrite !fmap_cons. cbn [fst]. f_equal. exact Hvs.
Qed.

(** ** Every persistence failure is logged *)

Lemma failures_logged_refl w : failures_logged w w.
Proof. exists []. split; [reflexivity | unfold faultCount; simpl; lia]. Qed.

Lemma failures_logged_trans w1 w2 w3 :
  failures_logged w1 w2 -> failures_logged w2 w3 -> failures_logged w1 w3.
Proof.
  intros (u1 & H1 & C1) (u2 & H2 & C2). exists (u1 ++ u2). split.
  - rewrite H1, H2, app_assoc. reflexivity.
  - rewrite C2, C1. unfold faultCount. rewrite List.filter_app, length_app. lia.
Qed.

(** A step that makes no persistence call and logs no failed save. *)
Lemma failures_logged_same w w' :
  dbFaults w' = dbFaults w ->
  savingErrors (logged w') = savingErrors (logged w) ->
  failures_logged w w'.
Proof.
  intros Hdb Hlog. exists []. split; [rewrite Hdb; reflexivity |].
  rewrite Hlog. unfold faultCount. simpl. lia.
Qed.

Lemma savingErrors_snoc log entry :
  savingErrors (log ++ [entry])
  = (savingErrors log + if isSavingError entry then 1 else 0)%nat.
Proof.
  unfold savingErrors. rewrite List.filter_app, length_app. simpl.
  destruct (isSavingError entry); reflexivity.
Qed.

(** With a working logger, [saveCoverageState] logs one line for each
    persistence call of its own that throws. *)
Lemma saveCoverageState_failures_logged l w :
  logFaults w = [] -> failures_logged w (saveCoverageState l w).2.
Proof.
  intros Hlog. unfold failures_logged. eff_unfold.
  destruct (heap w !! l) as [s|]; simpl; rewrite ?Hlog; simpl.
  2: { exists []. rewrite savingErrors_snoc. simpl. split; [reflexivity | ].
       unfold faultCount. simpl. lia. }
  destruct (dbFaults w) as [|[] fs] eqn:Hdb; simpl; rewrite ?Hlog; simpl.
  - exists []. destruct (take 1 _); simpl; rewrite ?Hdb; simpl;
      split; try reflexivity; unfold faultCount; simpl; lia.
  - exists [true]. rewrite savingErrors_snoc. simpl. split; [reflexivity |].
    unfold faultCount. simpl. lia.
  - destruct (take 1 _); simpl; destruct fs as [|[] fs']; simpl;
      rewrite ?Hlog; simpl; rewrite ?savingErrors_snoc; simpl;
      first [ exists [false]; split; [reflexivity | unfold faultCount; simpl; lia]
            | exists [false; true]; split; [reflexivity | unfold faultCount; simpl; lia]
            | exists [false; false]; split; [reflexivity | unfold faultCount; simpl; lia] ].
Qed.

Lemma ensureState_failures_logged ev svc k roomConfig w :
  steady ev w -> failures_logged w (ensureState svc k roomConfig w).2.
Proof.
  intros Hst. unfold ensureState. unfold bind at 1. unfold getCoverageState.
  destruct (coverageStateCache w !! k) as [l|]; [apply failures_logged_refl |].
  unfold bind at 1. unfold new_object.
  set (w0 := with_heap _ w).
  assert (Hlog0 : logFaults w0 = []) by apply Hst.
  pose proof (saveCoverageState_failures_logged (length (heap w)) w0 Hlog0) as Hsave.
  unfold bind. destruct (saveCoverageState (length (heap w)) w0) as [[[]|e] w1];
    exact Hsave.
Qed.

Lemma gauntlet_failures_logged ev svc now l w :
  steady ev w -> failures_logged w (safeguardGauntlet svc now l w).2.
Proof.
  intros Hst. unfold safeguardGauntlet. unfold bind at 1. unfold deref.
  destruct (heap w !! l) as [s|] eqn:Hl; [| apply failures_logged_refl].
  destruct (isMuted now s); [apply failures_logged_refl |].
  destruct (isCapped svc now s); [apply failures_logged_refl |].
  cbn zeta.
  destruct (now - lastMentionAt s <? cadenceMs s); [apply failures_logged_refl |].
  assert (Hdecay : exists w1,
    (if strikes s >? 0
     then if now - lastMentionAt s >? hoursMs (strikeDecayHours (reporterConfig svc))
          then exec assign l (fun s => set_strikes (Z.max 0 (strikes s - 1)) s);
               saveCoverageState l
          else ret tt
     else ret tt) w = (Returned tt, w1)
    /\ logFaults w1 = [] /\ failures_logged w w1).
  { destruct (strikes s >? 0);
      [| exists w; split; [reflexivity | split; [apply Hst | apply failures_logged_refl]]].
    destruct (now - lastMentionAt s >? _);
      [| exists w; split; [reflexivity | split; [apply Hst | apply failures_logged_refl]]].
    unfold bind. rewrite (assign_eq _ _ _ _ Hl).
    set (w0 := with_heap _ w).
    assert (Hlog0 : logFaults w0 = []) by apply Hst.
    destruct (saveCoverageState_returns l w0 Hlog0) as (Hr & Hlog1).
    pose proof (saveCoverageState_failures_logged l w0 Hlog0) as Hsave.
    destruct (saveCoverageState l w0) as [r w1]. simpl in *. subst r.
    exists w1. auto. }
  destruct Hdecay as (w1 & Hrun & Hlog1 & Hfl).
  unfold bind at 1. rewrite Hrun.
  unfold bind, logger, ret. rewrite Hlog1. simpl.
  eapply failures_logged_trans; [exact Hfl |].
  apply failures_logged_same; [reflexivity |].
  simpl. rewrite savingErrors_snoc. simpl. lia.
Qed.

Lemma pumpRoom_failures_logged ev svc now k roomConfig w :
  steady ev w -> failures_logged w (pumpRoom svc now k roomConfig w).2.
Proof.
  intros Hst. unfold pumpRoom.
  pose proof (ensureState_failures_logged ev svc k roomConfig w Hst) as H1.
  destruct (ensureState_steady ev svc k roomConfig w Hst) as (l & w1 & He & Hst1 & Hl).
  unfold bind. rewrite He in *. simpl in H1.
  eapply failures_logged_trans; [exact H1 |].
  eapply gauntlet_failures_logged. exact Hst1.
Qed.

Lemma pumpLoop_failures_logged svc now rooms :
  forall ev w, steady ev w -> failures_logged w (pumpLoop svc now rooms w).2.
Proof.
  induction rooms as [|[k roomConfig] rest IH]; intros ev w Hst;
    [apply failures_logged_refl |].
  cbn [pumpLoop].
  pose proof (pumpRoom_failures_logged ev svc now k roomConfig w Hst) as H1.
  destruct (pumpRoom_steady ev svc now k roomConfig w Hst) as (v & w1 & Hp & Hst1).
  unfold bind at 1. rewrite Hp in *. simpl in H1.
  unfold bind at 1. unfold record_verdict.
  set (w2 := with_evaluated _ w1).
  assert (Hst2 : steady (ev ++ [(k, v)]) w2).
  { destruct Hst1 as (Hv & Hlog & Hev). repeat split; auto.
    subst w2. simpl. rewrite Hev. reflexivity. }
  eapply failures_logged_trans; [exact H1 |].
  eapply failures_logged_trans; [| eapply IH; exact Hst2].
  apply failures_logged_same; reflexivity.
Qed.

(** ** Exceptions that end the loop *)

(** The loop body records no verdict itself. *)
Lemma pumpRoom_evaluated svc now k roomConfig w :
  evaluated (pumpRoom svc now k roomConfig w).2 = evaluated w.
Proof.
  unfold pumpRoom, ensureState, safeguardGauntlet, logger, next_fault.
  eff_unfold_ops.
  repeat (eff_case; simpl in *; simplify_eq);
    repeat match goal with
    | E : saveCoverageState ?l ?w0 = (_, ?w1) |- _ =>
        let H := fresh "Hev" in
        destruct (saveCoverageState_frame l w0) as (_ & H & _);
        rewrite E in H; simpl in H; clear E
    end; simpl; congruence.
Qed.

(** When the loop returns it has recorded a verdict for every room. *)
Lemma pumpLoop_returned svc now rooms :
  forall w w',
    pumpLoop svc now rooms w = (Returned tt, w') ->
    (evaluated w').*1 = (evaluated w).*1 ++ rooms.*1.
Proof.
  induction rooms as [|[k roomConfig] rest IH]; intros w w'.
  - intros [= <-]. rewrite app_nil_r. reflexivity.
  - cbn [pumpLoop]. unfold bind at 1.
    pose proof (pumpRoom_evaluated svc now k roomConfig w) as Hev.
    destruct (pumpRoom svc now k roomConfig w) as [[v|e] w1]; [| discriminate].
    unfold bind at 1. unfold record_verdict. intros Hloop.
    apply IH in Hloop. rewrite Hloop. simpl in *. rewrite Hev.
    rewrite fmap_app, <- app_assoc. reflexivity.
Qed.

(** On a sound cache the loop body throws nothing but what the logger
    throws: persistence errors are caught by [saveCoverageState] and every
    reference it follows points to an object. *)
Lemma pumpRoom_throws svc now k roomConfig w e :
  cache_valid w ->
  (pumpRoom svc now k roomConfig w).1 = Thrown e ->
  e = LoggerError.
Proof.
  intros Hv. unfold pumpRoom, bind at 1.
  assert (Hens : match ensureState svc k roomConfig w with
                 | (Returned l, w1) => is_Some (heap w1 !! l)
                 | (Thrown e', _) => e' = LoggerError
                 end).
  { unfold ensureState. unfold bind at 1. unfold getCoverageState.
    destruct (coverageStateCache w !! k) as [l|] eqn:Hk; [eapply Hv, Hk |].
    unfold bind at 1. unfold new_object. set (w0 := with_heap _ w).
    destruct (saveCoverageState_frame (length (heap w)) w0) as (Hh & _).
    unfold bind.
    destruct (saveCoverageState_outcome (length (heap w)) w0) as [Ho | Ho];
      destruct (saveCoverageState (length (heap w)) w0) as [r w1];
      simpl in *; subst r; [| reflexivity].
    unfold ret. rewrite Hh. subst w0. simpl. rewrite new_object_lookup. eauto. }
  destruct (ensureState svc k roomConfig w) as [[l|e'] w1]; simpl;
    [| intros [= <-]; exact Hens].
  destruct Hens as [s Hl].
  unfold safeguardGauntlet. unfold bind at 1. rewrite (deref_eq _ _ _ Hl).
  destruct (isMuted now s); [discriminate |].
  destruct (isCapped svc now s); [discriminate |].
  cbn zeta.
  destruct (now - lastMentionAt s <? cadenceMs s); [discriminate |].
  unfold bind at 1.
  destruct (strikes s >? 0).
  - destruct (now - lastMentionAt s >? _).
    + unfold bind at 1. rewrite (assign_eq _ _ _ _ Hl).
      set (w0 := with_heap _ w1).
      destruct (saveCoverageState_outcome l w0) as [Ho | Ho];
        destruct (saveCoverageState l w0) as [r w2]; simpl in *; subst r.
      * unfold bind, logger, ret.
        destruct (next_fault (logFaults w2)) as [[] ?]; simpl; congruence.
      * simpl. congruence.
    + unfold bind, logger, ret.
      destruct (next_fault (logFaults w1)) as [[] ?]; simpl; congruence.
  - unfold bind, logger, ret.
    destruct (next_fault (logFaults w1)) as [[] ?]; simpl; congruence.
Qed.

Lemma pumpLoop_app svc now before after w :
  pumpLoop svc now (before ++ after) w
  = match pumpLoop svc now before w with
    | (Returned _, w1) => pumpLoop svc now after w1
    | (Thrown e, w1) => (Thrown e, w1)
    end.
Proof.
  revert w. induction before as [|[k roomConfig] rest IH]; intros w; [reflexivity |].
  cbn [app pumpLoop]. unfold bind at 1 3.
  destruct (pumpRoom svc now k roomConfig w) as [[v|e] w1]; [| reflexivity].
  unfold bind at 1 2. unfold record_verdict. apply IH.
Qed.

(** C4, as amended.  On a sound cache:

    - whatever the persistence layer does during a tick, as long as the
      logger does not throw the tick returns normally after it has evaluated
      every output room, in order, and every persistence call that threw has
      its line "Error saving coverage state" in the log, written by
      [saveCoverageState], which caught it;

    - an exception that leaves the loop body at some room is the logger's.
      It is not caught per room: the rooms before it have their verdict, that
      room and the rooms after it have none, and the one handler around the
      loop is entered.  The handler logs "Error in coverage pump" and the tick
      returns normally, unless its own call of the logger throws as well: then
      nothing more is logged and the exception leaves [coveragePumpTick]. *)
Theorem tick_survives_persistence_failures svc now w :
  cache_valid w ->
  (logFaults w = [] ->
   exists w',
     coveragePumpTick svc now w = (Returned tt, w')
     /\ (evaluated w').*1 = (evaluated w).*1 ++ (outputRooms svc).*1
     /\ failures_logged w w')
  /\ (forall before k roomConfig after w1 w2 e,
        outputRooms svc = before ++ (k, roomConfig) :: after ->
        pumpLoop svc now before w = (Returned tt, w1) ->
        pumpRoom svc now k roomConfig w1 = (Thrown e, w2) ->
        let tick := coveragePumpTick svc now w in
        e = LoggerError
        /\ (evaluated tick.2).*1 = (evaluated w).*1 ++ before.*1
        /\ (if (next_fault (logFaults w2)).1
            then tick.1 = Thrown LoggerError /\ logged tick.2 = logged w2
            else tick.1 = Returned tt
                 /\ logged tick.2 = logged w2 ++ [ErrorInPump LoggerError])).
Proof.
  intros Hv. split.
  - intros Hlog.
    assert (Hst : steady (evaluated w) w) by (repeat split; auto).
    pose proof (pumpLoop_failures_logged svc now (outputRooms svc) _ w Hst) as Hfl.
    destruct (pumpLoop_processes_all svc now (outputRooms svc) (evaluated w) w Hst)
      as (vs & w' & Hloop & (_ & _ & Hev) & Hvs).
    exists w'. unfold coveragePumpTick, try_catch. rewrite Hloop in *.
    split; [reflexivity |]. split; [| exact Hfl].
    rewrite Hev, fmap_app, Hvs. reflexivity.
  - intros before k roomConfig after w1 w2 e Hrooms Hbefore Hroom tick.
    assert (He : e = LoggerError).
    { eapply (pumpRoom_throws svc now k roomConfig w1).
      - pose proof (pumpLoop_valid svc now before w Hv) as Hv1.
        rewrite Hbefore in Hv1. exact Hv1.
      - rewrite Hroom. reflexivity. }
    subst e. split; [reflexivity |].
    assert (Htick : tick = logger (ErrorInPump LoggerError) w2).
    { subst tick. unfold coveragePumpTick, try_catch.
      rewrite Hrooms, pumpLoop_app, Hbefore. cbn [pumpLoop].
      unfold bind at 1. rewrite Hroom. reflexivity. }
    rewrite Htick.
    pose proof (pumpLoop_returned _ _ _ _ _ Hbefore) as Hev1.
    pose proof (pumpRoom_evaluated svc now k roomConfig w1) as Hev2.
    rewrite Hroom in Hev2. simpl in Hev2.
    unfold logger. destruct (next_fault (logFaults w2)) as [[] rest]; simpl;
      (split; [congruence |]); auto.
Qed.

Lemma emptyWorld_cache_valid fs : cache_valid (with_dbFaults fs emptyWorld).
Proof. intros k l Hk. simpl in Hk. rewrite lookup_empty in Hk. discriminate. Defined.

Lemma faultyLogger_cache_valid fs : cache_valid (with_logFaults fs emptyWorld).
Proof. intros k l Hk. simpl in Hk. rewrite lookup_empty in Hk. discriminate. Defined.

(** Two ticks over two rooms without a state.  In the first the
    persistence call for "room-1" throws; in the second the logger throws on
    the coverage-gap message for "room-1". *)
Lemma tick_survives_persistence_failures_witness :
  (exists w',
     coveragePumpTick twoRoomService clock (with_dbFaults [true] emptyWorld)
     = (Returned tt, w')
     /\ (evaluated w').*1 = ["room-1"%string; "room-2"%string]
     /\ failures_logged (with_dbFaults [true] emptyWorld) w')
  /\ (let tick := coveragePumpTick twoRoomService clock (with_logFaults [true] emptyWorld) in
      (evaluated tick.2).*1 = []
      /\ tick.1 = Returned tt
      /\ logged tick.2 = [ErrorInPump LoggerError]).
Proof.
  split.
  - exact (proj1 (tick_survives_persistence_failures twoRoomService clock
                    (with_dbFaults [true] emptyWorld) (emptyWorld_cache_valid [true]))
             eq_refl).
  - exact (proj2
             (proj2 (tick_survives_persistence_failures twoRoomService clock
                       (with_logFaults [true] emptyWorld) (faultyLogger_cache_valid [true]))
                [] "room-1"%string newsRoom [("room-2"%string, alphaRoom)]
                (with_logFaults [true] emptyWorld)
                (pumpRoom twoRoomService clock "room-1" newsRoom
                   (with_logFaults [true] emptyWorld)).2
                LoggerError eq_refl eq_refl eq_refl)).
Defined.

(** What the first of these ticks looks like: the save for "room-1" fails
    and is logged, both rooms are evaluated, and only "room-2" ends up cached
    and stored. *)
Example tick_with_failed_save :
  let w' := (coveragePumpTick twoRoomService clock
               (with_dbFaults [true] emptyWorld)).2 in
  evaluated w' = [("room-1"%string, CoverageGap clock); ("room-2"%string, CoverageGap clock)]
  /\ logged w' = [ErrorSavingState PersistenceError;
                  DebugCoverageGap "#news" clock; DebugCoverageGap "#alpha" clock]
  /\ coverageView w' "room-1" = None
  /\ coverageView w' "room-2" = Some (initialState twoRoomService "room-2" alphaRoom 0 0 0).
Proof. repeat split; vm_compute; reflexivity. Qed.

(** C4, the claim as stated fails.  The tick has one handler around the
    whole loop.  Here the logger throws on the coverage-gap message for
    "room-1": the exception is caught and logged by that handler, and the
    tick ends there, so "room-2" is never evaluated and gets no state, although
    it is evaluated in the same tick when nothing throws. *)
Lemma tick_stops_at_uncaught_exception :
  let w := with_logFaults [true] emptyWorld in
  let w' := (coveragePumpTick twoRoomService clock w).2 in
  (pumpRoom twoRoomService clock "room-1" newsRoom w).1 = Thrown LoggerError
  /\ (coveragePumpTick twoRoomService clock w).1 = Returned tt
  /\ logged w' = [ErrorInPump LoggerError]
  /\ evaluated w' = []
  /\ coverageView w' "room-2" = None
  /\ ~ (exists v, ("room-2"%string, v) ∈ evaluated w')
  /\ evaluated (coveragePumpTick twoRoomService clock emptyWorld).2
     = [("room-1"%string, CoverageGap clock); ("room-2"%string, CoverageGap clock)].
Proof.
  repeat split; try (vm_compute; reflexivity).
  intros [v Hv]. vm_compute in Hv. inversion Hv.
Qed.

(** * Further properties of the service *)

(** ** What mentions and strikes change *)

(** X1. The first mention in a registered room without a state, with a
    working persistence layer, creates the state with one mention at the time
    of the call, no strike, no mute and the room's cadence (the service default
    when the room sets none), and stores it. *)
Theorem recordMention_creates_state svc k roomConfig now now' w :
  getOutputRoomConfig svc k = Some roomConfig ->
  coverageStateCache w !! k = None ->
  dbFaults w = [] ->
  let created := initialState svc k roomConfig now 1 0 in
  coverageView (recordMention svc k now now' w).2 k = Some created
  /\ (exists row, row ∈ memories (recordMention svc k now now' w).2
        /\ mem_roomId row = k /\ mem_metadata row = created)
  /\ cadenceMs created
     = js_or (cfg_cadenceMs roomConfig) (defaultCadenceMs (reporterConfig svc)).
Proof.
  intros Hcfg Hk Hdb created.
  set (w0 := with_heap (heap w ++ [created]) w).
  assert (Heq : recordMention svc k now now' w = saveCoverageState (length (heap w)) w0).
  { unfold recordMention. rewrite Hcfg.
    unfold bind at 1. unfold getCoverageState. rewrite Hk.
    unfold bind at 1. unfold new_object. reflexivity. }
  rewrite Heq.
  assert (Hl : heap w0 !! length (heap w) = Some created).
  { subst w0. cbn [heap with_heap]. apply new_object_lookup. }
  destruct (saveCoverageState_ok _ _ w0 Hdb Hl)
    as (_ & Hc & Hh & _ & _ & _ & row & Hrow & Hmeta & Hroom).
  split; [| split; [| reflexivity]].
  - unfold coverageView. rewrite Hc, Hh. change (roomId created) with k.
    rewrite lookup_insert_eq. exact Hl.
  - exists row. auto.
Qed.

Lemma recordMention_creates_state_witness :
  coverageView (recordMention oneRoomService "room-1" clock clock emptyWorld).2 "room-1"
  = Some (newsState clock 1 0 None).
Proof.
  exact (proj1 (recordMention_creates_state oneRoomService "room-1" newsRoom
                  clock clock emptyWorld eq_refl eq_refl eq_refl)).
Defined.

(** X2. A mention never lifts a mute and never removes a strike: whatever
    the clock, the registry and the collaborators do, a state that was cached
    before [recordMention] is cached afterwards with the same strikes, mute
    deadline, cadence and identity. *)
Theorem recordMention_keeps_strikes_and_mute svc k now now' w s :
  coverageView w k = Some s ->
  exists s',
    coverageView (recordMention svc k now now' w).2 k = Some s'
    /\ strikes s' = strikes s /\ mutedUntil s' = mutedUntil s
    /\ cadenceMs s' = cadenceMs s /\ roomId s' = roomId s
    /\ roomName s' = roomName s /\ platform s' = platform s.
Proof.
  intros Hview.
  destruct (view_inv _ _ _ Hview) as (l & Hk & Hl).
  unfold recordMention.
  destruct (getOutputRoomConfig svc k) as [roomConfig|]; [| exists s; auto 10].
  unfold bind at 1. unfold getCoverageState. rewrite Hk.
  unfold bind at 1. unfold bind at 1.
  rewrite (assign_eq _ _ _ _ Hl).
  unfold bind at 1.
  erewrite assign_eq by (cbn [heap with_heap]; eapply heap_insert_lookup; exact Hl).
  unfold bind at 1. cbn [heap with_heap].
  erewrite deref_eq
    by (cbn [heap with_heap]; eapply heap_insert_lookup, heap_insert_lookup; exact Hl).
  simpl lastMentionAt.
  destruct (now <? now' - oneDayMs).
  - unfold bind at 1.
    erewrite assign_eq
      by (cbn [heap with_heap]; eapply heap_insert_lookup, heap_insert_lookup; exact Hl).
    unfold ret at 1. eexists. split.
    + apply coverageView_saved; cbn [heap with_heap coverageStateCache with_heap];
        [exact Hk |].
      eapply heap_insert_lookup, heap_insert_lookup, heap_insert_lookup. exact Hl.
    + simpl. auto 10.
  - unfold bind at 1, ret at 1. unfold ret at 1. eexists. split.
    + apply coverageView_saved; cbn [heap with_heap]; [exact Hk |].
      eapply heap_insert_lookup, heap_insert_lookup. exact Hl.
    + simpl. auto 10.
Qed.

Lemma recordMention_keeps_strikes_and_mute_witness :
  exists s',
    coverageView
      (recordMention oneRoomService "room-1" clock clock
         (worldWith (newsState 0 3 2 (Some (clock + hoursMs 5))))).2 "room-1" = Some s'
    /\ strikes s' = 2 /\ mutedUntil s' = Some (clock + hoursMs 5)
    /\ cadenceMs s' = 7200000 /\ roomId s' = "room-1"%string
    /\ roomName s' = "#news"%string /\ platform s' = "discord"%string.
Proof.
  exact (recordMention_keeps_strikes_and_mute oneRoomService "room-1" clock clock
           (worldWith (newsState 0 3 2 (Some (clock + hoursMs 5))))
           (newsState 0 3 2 (Some (clock + hoursMs 5)))
           ltac:(vm_compute; reflexivity)).
Defined.

(** The effect of a strike on a state that is cached. *)
Lemma recordStrike_on_cached_state svc k t w s :
  coverageView w k = Some s ->
  coverageView (recordStrike svc k t w).2 k
  = Some (if strikes s + 1 >=? 2
          then set_mutedUntil (t + hoursMs (strikeMuteHours (reporterConfig svc)))
                 (set_strikes (strikes s + 1) s)
          else set_strikes (strikes s + 1) s).
Proof.
  intros Hview.
  destruct (view_inv _ _ _ Hview) as (l & Hk & Hl).
  unfold recordStrike.
  unfold bind at 1. unfold getCoverageState. rewrite Hk.
  unfold bind at 1. rewrite (assign_eq _ _ _ _ Hl).
  unfold bind at 1.
  erewrite deref_eq by (cbn [heap with_heap]; eapply heap_insert_lookup; exact Hl).
  cbn [strikes set_strikes].
  destruct (strikes s + 1 >=? 2).
  - unfold bind at 1. unfold bind at 1.
    erewrite assign_eq by (cbn [heap with_heap]; eapply heap_insert_lookup; exact Hl).
    cbn [heap with_heap roomName set_strikes].
    set (w2 := with_heap _ (with_heap _ w)).
    assert (Hk2 : coverageStateCache w2 !! k = Some l) by exact Hk.
    assert (Hl2 : heap w2 !! l
                  = Some (set_mutedUntil (t + hoursMs (strikeMuteHours (reporterConfig svc)))
                            (set_strikes (strikes s + 1) s))).
    { subst w2. cbn [heap with_heap].
      eapply heap_insert_lookup, heap_insert_lookup. exact Hl. }
    unfold logger. destruct (next_fault (logFaults w2)) as [[] rest].
    + cbn. unfold coverageView. cbn. rewrite Hk. cbn. exact Hl2.
    + apply coverageView_saved; assumption.
  - unfold bind at 1, ret at 1.
    apply coverageView_saved; cbn [heap with_heap]; [exact Hk |].
    eapply heap_insert_lookup. exact Hl.
Qed.

(** X3. Every strike against a cached state is counted, whatever the logger
    and the persistence layer do: the count goes up by one; the mute deadline
    is set to the time of the call plus the mute duration when the new count
    is two or more, and is left alone below that; the mention data are not
    touched. *)
Theorem recordStrike_counts_every_strike svc k t w s :
  coverageView w k = Some s ->
  coverageView (recordStrike svc k t w).2 k
  = Some (if strikes s + 1 >=? 2
          then set_mutedUntil (t + hoursMs (strikeMuteHours (reporterConfig svc)))
                 (set_strikes (strikes s + 1) s)
          else set_strikes (strikes s + 1) s).
Proof. apply recordStrike_on_cached_state. Qed.

Lemma recordStrike_counts_every_strike_witness :
  coverageView
    (recordStrike oneRoomService "room-1" clock
       (worldWith (newsState 5 3 0 None))).2 "room-1"
  = Some (newsState 5 3 1 None).
Proof.
  exact (recordStrike_counts_every_strike oneRoomService "room-1" clock
           (worldWith (newsState 5 3 0 None)) (newsState 5 3 0 None)
           ltac:(vm_compute; reflexivity)).
Defined.

(** ** What a pump tick changes *)

(** The decay step of the gauntlet, for a state that passes the checks. *)
Lemma gauntlet_decays svc now k l w s :
  coverageStateCache w !! k = Some l ->
  heap w !! l = Some s ->
  isMuted now s = false ->
  isCapped svc now s = false ->
  (now - lastMentionAt s <? cadenceMs s) = false ->
  0 < strikes s ->
  hoursMs (strikeDecayHours (reporterConfig svc)) < now - lastMentionAt s ->
  coverageView (safeguardGauntlet svc now l w).2 k
  = Some (set_strikes (strikes s - 1) s).
Proof.
  intros Hk Hl Hm Hc Hgap Hs Hwin.
  destruct (safeguardGauntlet svc now l w) as [r w'] eqn:E. simpl.
  revert E. unfold safeguardGauntlet. unfold bind at 1.
  rewrite (deref_eq _ _ _ Hl), Hm, Hc.
  assert (Hpos : (strikes s >? 0) = true) by (apply Z.gtb_lt; exact Hs).
  assert (Hold : (now - lastMentionAt s
                  >? hoursMs (strikeDecayHours (reporterConfig svc))) = true)
    by (apply Z.gtb_lt; exact Hwin).
  cbn zeta. rewrite Hgap, Hpos, Hold.
  unfold bind at 1. unfold bind at 1.
  rewrite (assign_eq _ _ _ _ Hl).
  replace (0 `max` (strikes s - 1)) with (strikes s - 1) by lia.
  set (w1 := with_heap _ w).
  assert (Hk1 : coverageStateCache w1 !! k = Some l) by exact Hk.
  assert (Hl1 : heap w1 !! l = Some (set_strikes (strikes s - 1) s)).
  { subst w1. cbn [heap with_heap]. eapply heap_insert_lookup. exact Hl. }
  pose proof (coverageView_saved _ _ _ _ Hk1 Hl1) as Hsaved.
  destruct (saveCoverageState l w1) as [[[]|e] w2]; simpl in Hsaved.
  - unfold bind, ret.
    pose proof (logger_frame (DebugCoverageGap (roomName s) (now - lastMentionAt s)) w2)
      as (Hh & Hcc & _).
    destruct (logger _ w2) as [[[]|e] w3]; simpl in *; intros [= <- <-];
      unfold coverageView in *; rewrite Hcc, Hh; exact Hsaved.
  - intros [= <- <-]. exact Hsaved.
Qed.

(** X4. One pass of the pump's loop body over a cached state never touches
    the mention data, the cadence or the mute deadline, and takes at most one
    strike off: the state is left as it was, or, when it had a strike and its
    last mention is older than the decay window, it loses exactly one. *)
Theorem pumpRoom_takes_at_most_one_strike svc now k roomConfig w s :
  coverageView w k = Some s ->
  coverageView (pumpRoom svc now k roomConfig w).2 k = Some s
  \/ (0 < strikes s
      /\ hoursMs (strikeDecayHours (reporterConfig svc)) < now - lastMentionAt s
      /\ coverageView (pumpRoom svc now k roomConfig w).2 k
         = Some (set_strikes (strikes s - 1) s)).
Proof.
  intros Hview.
  destruct (view_inv _ _ _ Hview) as (l & Hk & Hl).
  rewrite (pumpRoom_existing _ _ _ _ _ _ Hk).
  assert (Hsame : heap (safeguardGauntlet svc now l w).2 = heap w
                  /\ coverageStateCache (safeguardGauntlet svc now l w).2
                     = coverageStateCache w ->
                  coverageView (safeguardGauntlet svc now l w).2 k = Some s).
  { intros (Hh & Hc). unfold coverageView. rewrite Hc, Hh. exact Hview. }
  destruct (isMuted now s) eqn:Hm;
    [left; rewrite (gauntlet_muted _ _ _ _ _ Hl Hm); exact Hview |].
  destruct (isCapped svc now s) eqn:Hc;
    [left; rewrite (gauntlet_capped _ _ _ _ _ Hl Hm Hc); exact Hview |].
  destruct (now - lastMentionAt s <? cadenceMs s) eqn:Hgap.
  { left. apply Z.ltb_lt in Hgap.
    rewrite (gauntlet_too_soon _ _ _ _ _ Hl Hm Hc Hgap). exact Hview. }
  destruct (Z_lt_le_dec 0 (strikes s)) as [Hs | Hs];
    [| left; apply Hsame;
       destruct (gauntlet_without_decay svc now l s w Hl (or_introl Hs)) as (? & ? & _);
       auto].
  destruct (Z_lt_le_dec (hoursMs (strikeDecayHours (reporterConfig svc)))
              (now - lastMentionAt s)) as [Hwin | Hwin];
    [| left; apply Hsame;
       destruct (gauntlet_without_decay svc now l s w Hl (or_intror Hwin)) as (? & ? & _);
       auto].
  right. split; [exact Hs |]. split; [exact Hwin |].
  eapply gauntlet_decays; eassumption.
Qed.

Lemma pumpRoom_takes_at_most_one_strike_witness :
  let s := newsState (clock - hoursMs 72) 9 3 (Some (clock - hoursMs 1)) in
  coverageView (pumpRoom oneRoomService clock "room-1" newsRoom (worldWith s)).2 "room-1"
  = Some s
  \/ (0 < strikes s
      /\ hoursMs (strikeDecayHours (reporterConfig oneRoomService))
         < clock - lastMentionAt s
      /\ coverageView (pumpRoom oneRoomService clock "room-1" newsRoom (worldWith s)).2
           "room-1"
         = Some (set_strikes (strikes s - 1) s)).
Proof.
  exact (pumpRoom_takes_at_most_one_strike oneRoomService clock "room-1" newsRoom
           (worldWith (newsState (clock - hoursMs 72) 9 3 (Some (clock - hoursMs 1))))
           (newsState (clock - hoursMs 72) 9 3 (Some (clock - hoursMs 1)))
           ltac:(vm_compute; reflexivity)).
Defined.

(** The three checks of the gauntlet, as one test. *)
Lemma gauntlet_signals svc now l s w :
  heap w !! l = Some s ->
  logFaults w = [] ->
  isMuted now s = false ->
  isCapped svc now s = false ->
  cadenceMs s <= now - lastMentionAt s ->
  (safeguardGauntlet svc now l w).1 = Returned (CoverageGap (now - lastMentionAt s))
  /\ last (logged (safeguardGauntlet svc now l w).2)
     = Some (DebugCoverageGap (roomName s) (now - lastMentionAt s)).
Proof.
  intros Hl Hlog Hm Hc Hcad.
  destruct (safeguardGauntlet svc now l w) as [r w'] eqn:E. simpl.
  revert E. unfold safeguardGauntlet. unfold bind at 1.
  rewrite (deref_eq _ _ _ Hl), Hm, Hc.
  assert (Hgap : (now - lastMentionAt s <? cadenceMs s) = false)
    by (apply Z.ltb_ge; exact Hcad).
  cbn zeta. rewrite Hgap.
  assert (Hdecay : exists w1,
    (if strikes s >? 0
     then if now - lastMentionAt s >? hoursMs (strikeDecayHours (reporterConfig svc))
          then exec assign l (fun s => set_strikes (Z.max 0 (strikes s - 1)) s);
               saveCoverageState l
          else ret tt
     else ret tt) w = (Returned tt, w1) /\ logFaults w1 = []).
  { destruct (strikes s >? 0); [| exists w; auto].
    destruct (now - lastMentionAt s >? _); [| exists w; auto].
    unfold bind. rewrite (assign_eq _ _ _ _ Hl).
    set (w0 := with_heap _ w).
    destruct (saveCoverageState_returns l w0 Hlog) as (Hr & Hlog').
    destruct (saveCoverageState l w0) as [r0 w1]. simpl in *. subst r0.
    exists w1. auto. }
  destruct Hdecay as (w1 & Hrun & Hlog1).
  unfold bind at 1. rewrite Hrun.
  unfold bind, logger, ret. rewrite Hlog1. simpl.
  intros [= <- <-]. simpl. split; [reflexivity |]. apply last_snoc.
Qed.

(** X5. With a logger that works, the loop body gives the coverage-gap
    signal for a cached state exactly when the state is not muted, not capped
    and its last mention is at least a cadence old; the signal is then the
    last line of the log and reports the time since the last mention.  In
    every other case the world is left exactly as it was.  So a mute ends by
    the clock alone, whatever the number of strikes. *)
Theorem pumpRoom_signals_exactly_when_checks_pass svc now k roomConfig w s :
  coverageView w k = Some s ->
  logFaults w = [] ->
  let passes :=
    negb (isMuted now s) && negb (isCapped svc now s)
    && negb (now - lastMentionAt s <? cadenceMs s) in
  (passes = true ->
   (pumpRoom svc now k roomConfig w).1 = Returned (CoverageGap (now - lastMentionAt s))
   /\ last (logged (pumpRoom svc now k roomConfig w).2)
      = Some (DebugCoverageGap (roomName s) (now - lastMentionAt s)))
  /\ (passes = false ->
      (pumpRoom svc now k roomConfig w).2 = w
      /\ forall g, (pumpRoom svc now k roomConfig w).1 <> Returned (CoverageGap g)).
Proof.
  intros Hview Hlog passes.
  destruct (view_inv _ _ _ Hview) as (l & Hk & Hl).
  rewrite (pumpRoom_existing _ _ _ _ _ _ Hk). subst passes.
  destruct (isMuted now s) eqn:Hm; simpl.
  { split; [discriminate |]. intros _.
    rewrite (gauntlet_muted _ _ _ _ _ Hl Hm). split; [reflexivity | discriminate]. }
  destruct (isCapped svc now s) eqn:Hc; simpl.
  { split; [discriminate |]. intros _.
    rewrite (gauntlet_capped _ _ _ _ _ Hl Hm Hc). split; [reflexivity | discriminate]. }
  destruct (now - lastMentionAt s <? cadenceMs s) eqn:Hgap; simpl.
  { split; [discriminate |]. intros _. apply Z.ltb_lt in Hgap.
    rewrite (gauntlet_too_soon _ _ _ _ _ Hl Hm Hc Hgap).
    split; [reflexivity | discriminate]. }
  split; [| discriminate]. intros _.
  apply gauntlet_signals; auto. apply Z.ltb_ge. exact Hgap.
Qed.

Lemma pumpRoom_signals_exactly_when_checks_pass_witness :
  let s := newsState (clock - hoursMs 3) 4 2 (Some (clock - 1)) in
  (pumpRoom oneRoomService clock "room-1" newsRoom (worldWith s)).1
  = Returned (CoverageGap (hoursMs 3)).
Proof.
  exact (proj1 (proj1 (pumpRoom_signals_exactly_when_checks_pass oneRoomService clock
                         "room-1" newsRoom
                         (worldWith (newsState (clock - hoursMs 3) 4 2 (Some (clock - 1))))
                         (newsState (clock - hoursMs 3) 4 2 (Some (clock - 1)))
                         ltac:(vm_compute; reflexivity) eq_refl) eq_refl)).
Defined.

(** X6. The first pass over a registered room without a state, with
    persistence and logger working, creates and stores a state that has never
    been mentioned ([lastMentionAt = 0], no mention, no strike), and, the
    clock being at least a day and a cadence past the epoch, gives the
    coverage-gap signal at once, with the clock reading as the gap. *)
Theorem pumpRoom_first_pass svc now k roomConfig w :
  coverageStateCache w !! k = None ->
  dbFaults w = [] ->
  logFaults w = [] ->
  oneDayMs <= now ->
  js_or (cfg_cadenceMs roomConfig) (defaultCadenceMs (reporterConfig svc)) <= now ->
  let created := initialState svc k roomConfig 0 0 0 in
  (pumpRoom svc now k roomConfig w).1 = Returned (CoverageGap now)
  /\ coverageView (pumpRoom svc now k roomConfig w).2 k = Some created
  /\ exists row, row ∈ memories (pumpRoom svc now k roomConfig w).2
       /\ mem_roomId row = k /\ mem_metadata row = created.
Proof.
  intros Hk Hdb Hlog Hday Hcad created.
  destruct (pumpRoom svc now k roomConfig w) as [r w'] eqn:E. simpl.
  revert E. unfold pumpRoom, ensureState.
  unfold bind at 1. unfold bind at 1. unfold getCoverageState. rewrite Hk.
  unfold bind at 1. unfold new_object. unfold bind at 1.
  fold created.
  set (w0 := with_heap (heap w ++ [created]) w).
  assert (Hl0 : heap w0 !! length (heap w) = Some created).
  { subst w0. cbn [heap with_heap]. apply new_object_lookup. }
  destruct (saveCoverageState_ok _ _ w0 Hdb Hl0)
    as (Hr & Hc & Hh & _ & Hlf & _ & row & Hrow & Hmeta & Hroom).
  destruct (saveCoverageState (length (heap w)) w0) as [r1 w1]. simpl in *. subst r1.
  unfold ret at 1.
  assert (Hl1 : heap w1 !! length (heap w) = Some created) by (rewrite Hh; exact Hl0).
  assert (Hlog1 : logFaults w1 = []) by (rewrite Hlf; exact Hlog).
  assert (Hm : isMuted now created = false) by reflexivity.
  assert (Hcap : isCapped svc now created = false).
  { unfold isCapped. apply andb_false_iff. left.
    rewrite Z.gtb_ltb. apply Z.ltb_ge. simpl. lia. }
  assert (Hcad' : cadenceMs created <= now - lastMentionAt created)
    by (simpl; lia).
  destruct (gauntlet_signals svc now _ _ w1 Hl1 Hlog1 Hm Hcap Hcad') as (Hv & _).
  destruct (gauntlet_without_decay svc now _ _ w1 Hl1 (or_introl (Z.le_refl 0)))
    as (Hh2 & Hc2 & Hm2).
  intros E. rewrite E in Hv, Hh2, Hc2, Hm2. simpl in Hv, Hh2, Hc2, Hm2.
  split; [| split].
  - rewrite Hv. simpl. f_equal. f_equal. lia.
  - unfold coverageView. rewrite Hc2, Hh2, Hc. change (roomId created) with k.
    rewrite lookup_insert_eq. exact Hl1.
  - exists row. rewrite Hm2. auto.
Qed.

Lemma pumpRoom_first_pass_witness :
  (pumpRoom oneRoomService clock "room-1" newsRoom emptyWorld).1
  = Returned (CoverageGap clock).
Proof.
  exact (proj1 (pumpRoom_first_pass oneRoomService clock "room-1" newsRoom emptyWorld
                  eq_refl eq_refl eq_refl
                  ltac:(vm_compute; discriminate) ltac:(vm_compute; discriminate))).
Defined.

(** ** What the cache never loses *)

Section CacheGrows.
(** A property of the cache table that survives the setting of any key. *)
Variable R : gmap string nat -> Prop.
Hypothesis R_insert : forall c k l, R c -> R (<[k := l]> c).

Lemma saveCoverageState_grows l w :
  R (coverageStateCache w) -> R (coverageStateCache (saveCoverageState l w).2).
Proof.
  intros HR.
  destruct (saveCoverageState_frame l w) as (_ & _ & [Hc | (s & _ & Hc)]);
    rewrite Hc; auto.
Qed.

Ltac grows_step :=
  simpl; first [assumption | apply saveCoverageState_grows; grows_step].

Ltac grows_after_saves :=
  repeat match goal with
  | E : saveCoverageState ?l ?w0 = (_, ?w1) |- _ =>
      let H := fresh "Hgrows" in
      assert (H : R (coverageStateCache w1))
        by (replace w1 with (saveCoverageState l w0).2 by (rewrite E; reflexivity);
            grows_step);
      clear E
  end.

Lemma recordMention_grows svc k now now' w :
  R (coverageStateCache w) -> R (coverageStateCache (recordMention svc k now now' w).2).
Proof.
  intros HR. unfold recordMention.
  destruct (getOutputRoomConfig svc k); [| exact HR].
  eff_unfold_ops.
  repeat (eff_case; simpl in *; simplify_eq); grows_step.
Qed.

Lemma recordStrike_grows svc k now w :
  R (coverageStateCache w) -> R (coverageStateCache (recordStrike svc k now w).2).
Proof.
  intros HR. unfold recordStrike, logger, next_fault.
  eff_unfold_ops.
  repeat (eff_case; simpl in *; simplify_eq); grows_step.
Qed.

Lemma ensureState_grows svc k roomConfig w :
  R (coverageStateCache w) ->
  R (coverageStateCache (ensureState svc k roomConfig w).2).
Proof.
  intros HR. unfold ensureState. eff_unfold_ops.
  repeat (eff_case; simpl in *; simplify_eq); grows_after_saves; grows_step.
Qed.

Lemma safeguardGauntlet_grows svc now l w :
  R (coverageStateCache w) ->
  R (coverageStateCache (safeguardGauntlet svc now l w).2).
Proof.
  intros HR. unfold safeguardGauntlet, logger, next_fault. eff_unfold_ops.
  repeat (eff_case; simpl in *; simplify_eq); grows_after_saves; grows_step.
Qed.

Lemma pumpRoom_grows svc now k roomConfig w :
  R (coverageStateCache w) ->
  R (coverageStateCache (pumpRoom svc now k roomConfig w).2).
Proof.
  intros HR. unfold pumpRoom, bind at 1.
  pose proof (ensureState_grows svc k roomConfig w HR) as HR1.
  destruct (ensureState svc k roomConfig w) as [[l|e] w1]; simpl in *; [| exact HR1].
  apply safeguardGauntlet_grows. exact HR1.
Qed.

Lemma pumpLoop_grows svc now rooms :
  forall w, R (coverageStateCache w) ->
            R (coverageStateCache (pumpLoop svc now rooms w).2).
Proof.
  induction rooms as [|[k roomConfig] rest IH]; intros w HR; [exact HR |].
  cbn [pumpLoop]. unfold bind at 1.
  pose proof (pumpRoom_grows svc now k roomConfig w HR) as HR1.
  destruct (pumpRoom svc now k roomConfig w) as [[v|e] w1]; simpl in *.
  - unfold bind, record_verdict. apply IH. exact HR1.
  - exact HR1.
Qed.

Lemma coveragePumpTick_grows svc now w :
  R (coverageStateCache w) -> R (coverageStateCache (coveragePumpTick svc now w).2).
Proof.
  intros HR. unfold coveragePumpTick, try_catch.
  pose proof (pumpLoop_grows svc now (outputRooms svc) w HR) as HR1.
  destruct (pumpLoop svc now (outputRooms svc) w) as [[[]|e] w1]; simpl in *.
  - exact HR1.
  - unfold logger. destruct (next_fault (logFaults w1)) as [[] ?]; exact HR1.
Qed.

Lemma cacheRows_grows rows :
  forall w, R (coverageStateCache w) -> R (coverageStateCache (cacheRows rows w).2).
Proof.
  induction rows as [|memory rest IH]; intros w HR; [exact HR |].
  cbn [cacheRows]. unfold bind at 1.
  case_bool_decide.
  - unfold ret. apply IH. exact HR.
  - unfold bind, new_object, cache_set. apply IH. simpl. apply R_insert. exact HR.
Qed.

Lemma loadCoverageState_grows w :
  R (coverageStateCache w) -> R (coverageStateCache (loadCoverageState w).2).
Proof.
  intros HR. unfold loadCoverageState, try_catch, db_call.
  unfold bind at 1.
  destruct (next_fault (dbFaults w)) as [[] fs]; simpl.
  - unfold logger. destruct (next_fault _) as [[] ?]; exact HR.
  - unfold bind.
    pose proof (cacheRows_grows (take 100 (memories w))
                  (with_memories (memories w) (with_dbFaults fs w)) HR) as HR1.
    destruct (cacheRows _ _) as [[[]|e] w1]; simpl in *;
      unfold logger; repeat (destruct (next_fault _) as [[] ?]; simpl); exact HR1.
Qed.
End CacheGrows.

(** X7. No operation of the service ever drops a state from the cache: a
    room that has a cache entry before a mention, a strike, a pump tick or
    the loading of the stored states has one afterwards, whatever throws. *)
Theorem cache_entries_are_never_dropped svc k0 k now now' w :
  is_Some (coverageStateCache w !! k0) ->
  is_Some (coverageStateCache (recordMention svc k now now' w).2 !! k0)
  /\ is_Some (coverageStateCache (recordStrike svc k now w).2 !! k0)
  /\ is_Some (coverageStateCache (coveragePumpTick svc now w).2 !! k0)
  /\ is_Some (coverageStateCache (loadCoverageState w).2 !! k0).
Proof.
  intros Hk.
  assert (Hins : forall (c : gmap string nat) k l,
             is_Some (c !! k0) -> is_Some (<[k := l]> c !! k0)).
  { intros c k' l Hc. rewrite lookup_insert. case_decide; eauto. }
  repeat split.
  - apply (recordMention_grows (fun c => is_Some (c !! k0)) Hins). exact Hk.
  - apply (recordStrike_grows (fun c => is_Some (c !! k0)) Hins). exact Hk.
  - apply (coveragePumpTick_grows (fun c => is_Some (c !! k0)) Hins). exact Hk.
  - apply (loadCoverageState_grows (fun c => is_Some (c !! k0)) Hins). exact Hk.
Qed.

Lemma cache_entries_are_never_dropped_witness :
  let w := with_dbFaults [true; true] (worldWith (newsState 0 0 0 None)) in
  is_Some (coverageStateCache
             (coveragePumpTick twoRoomService clock w).2 !! "room-1"%string).
Proof.
  exact (proj1 (proj2 (proj2
           (cache_entries_are_never_dropped twoRoomService "room-1" "room-2" clock clock
              (with_dbFaults [true; true] (worldWith (newsState 0 0 0 None)))
              ltac:(vm_compute; eauto))))).
Defined.

(** ** Every output room gets a state *)

(** An exhausted fault oracle stays exhausted. *)
Lemma saveCoverageState_db_works l w :
  dbFaults w = [] -> dbFaults (saveCoverageState l w).2 = [].
Proof.
  intros Hdb. eff_unfold.
  repeat (eff_case; simpl in *; rewrite ?Hdb in *; simplify_eq); simpl; rewrite ?Hdb; auto.
Qed.

Lemma ensureState_db_works svc k roomConfig w :
  dbFaults w = [] -> dbFaults (ensureState svc k roomConfig w).2 = [].
Proof.
  intros Hdb. unfold ensureState. eff_unfold_ops.
  destruct (coverageStateCache w !! k); simpl; [exact Hdb |].
  pose proof (saveCoverageState_db_works (length (heap w))
                (with_heap (heap w ++ [initialState svc k roomConfig 0 0 0]) w) Hdb) as H.
  destruct (saveCoverageState _ _) as [[[]|e] w1]; exact H.
Qed.

Lemma safeguardGauntlet_db_works svc now l w :
  dbFaults w = [] -> dbFaults (safeguardGauntlet svc now l w).2 = [].
Proof.
  intros Hdb. unfold safeguardGauntlet, logger, next_fault. eff_unfold_ops.
  repeat (eff_case; simpl in *; simplify_eq);
    repeat match goal with
    | E : saveCoverageState ?l ?w0 = (_, ?w1) |- _ =>
        let H := fresh "Hdbw" in
        pose proof (saveCoverageState_db_works l w0 Hdb) as H;
        rewrite E in H; simpl in H; clear E
    end; simpl; auto.
Qed.

Lemma pumpRoom_db_works svc now k roomConfig w :
  dbFaults w = [] -> dbFaults (pumpRoom svc now k roomConfig w).2 = [].
Proof.
  intros Hdb. unfold pumpRoom, bind at 1.
  pose proof (ensureState_db_works svc k roomConfig w Hdb) as Hdb1.
  destruct (ensureState svc k roomConfig w) as [[l|e] w1]; simpl in *; [| exact Hdb1].
  apply safeguardGauntlet_db_works. exact Hdb1.
Qed.

(** With persistence working, the first part of the loop body leaves the
    room with a cache entry. *)
Lemma ensureState_caches_room svc k roomConfig w :
  dbFaults w = [] ->
  is_Some (coverageStateCache (ensureState svc k roomConfig w).2 !! k).
Proof.
  intros Hdb. unfold ensureState. unfold bind at 1. unfold getCoverageState.
  destruct (coverageStateCache w !! k) as [l|] eqn:Hk; [simpl; rewrite Hk; eauto |].
  unfold bind at 1. unfold new_object.
  set (created := initialState svc k roomConfig 0 0 0).
  set (w0 := with_heap (heap w ++ [created]) w).
  assert (Hl0 : heap w0 !! length (heap w) = Some created).
  { subst w0. cbn [heap with_heap]. apply new_object_lookup. }
  destruct (saveCoverageState_ok _ _ w0 Hdb Hl0) as (Hr & Hc & _).
  unfold bind. destruct (saveCoverageState (length (heap w)) w0) as [r1 w1].
  simpl in *. subst r1. simpl. rewrite Hc. change (roomId created) with k.
  rewrite lookup_insert_eq. eauto.
Qed.

Lemma pumpRoom_caches_room svc now k roomConfig w :
  dbFaults w = [] ->
  is_Some (coverageStateCache (pumpRoom svc now k roomConfig w).2 !! k).
Proof.
  intros Hdb. unfold pumpRoom, bind at 1.
  pose proof (ensureState_caches_room svc k roomConfig w Hdb) as Hk1.
  destruct (ensureState svc k roomConfig w) as [[l|e] w1]; simpl in *; [| exact Hk1].
  apply (safeguardGauntlet_grows (fun c => is_Some (c !! k))); [| exact Hk1].
  intros c k' l' Hc. rewrite lookup_insert. case_decide; eauto.
Qed.

Lemma pumpLoop_caches_rooms svc now rooms :
  forall w,
    dbFaults w = [] -> logFaults w = [] -> cache_valid w ->
    forall k, k ∈ rooms.*1 ->
      is_Some (coverageStateCache (pumpLoop svc now rooms w).2 !! k).
Proof.
  induction rooms as [|[k0 roomConfig] rest IH]; intros w Hdb Hlog Hv k Hin.
  - inversion Hin.
  - cbn [pumpLoop]. unfold bind at 1.
    pose proof (pumpRoom_caches_room svc now k0 roomConfig w Hdb) as Hk0.
    pose proof (pumpRoom_db_works svc now k0 roomConfig w Hdb) as Hdb1.
    destruct (pumpRoom_steady (evaluated w) svc now k0 roomConfig w)
      as (v & w1 & Hp & Hv1 & Hlog1 & _); [repeat split; auto |].
    rewrite Hp in *. simpl in Hk0, Hdb1.
    unfold bind at 1. unfold record_verdict.
    set (w2 := with_evaluated _ w1).
    rewrite fmap_cons in Hin. apply elem_of_cons in Hin as [-> | Hin].
    + apply (pumpLoop_grows (fun c => is_Some (c !! k0))); [| exact Hk0].
      intros c k' l' Hc. rewrite lookup_insert. case_decide; eauto.
    + apply IH; auto.
Qed.

(** X8. After a pump tick during which persistence and logger work, every
    output room has a state that a reader can see, whether it had one before
    or not. *)
Theorem tick_gives_every_room_a_state svc now w k :
  cache_valid w ->
  dbFaults w = [] ->
  logFaults w = [] ->
  k ∈ (outputRooms svc).*1 ->
  is_Some (coverageView (coveragePumpTick svc now w).2 k).
Proof.
  intros Hv Hdb Hlog Hin.
  pose proof (coveragePumpTick_valid svc now w Hv) as Hv'.
  assert (Hk : is_Some (coverageStateCache (coveragePumpTick svc now w).2 !! k)).
  { unfold coveragePumpTick, try_catch.
    pose proof (pumpLoop_caches_rooms svc now (outputRooms svc) w Hdb Hlog Hv k Hin) as H.
    destruct (pumpLoop svc now (outputRooms svc) w) as [[[]|e] w1]; simpl in *;
      [exact H |].
    unfold logger. destruct (next_fault (logFaults w1)) as [[] ?]; exact H. }
  destruct Hk as [l Hl]. unfold coverageView. rewrite Hl. simpl.
  eapply Hv', Hl.
Qed.

Lemma tick_gives_every_room_a_state_witness :
  is_Some (coverageView (coveragePumpTick twoRoomService clock emptyWorld).2 "room-2").
Proof.
  exact (tick_gives_every_room_a_state twoRoomService clock emptyWorld "room-2"
           (emptyWorld_cache_valid []) eq_refl eq_refl
           ltac:(vm_compute; apply list_elem_of_further, list_elem_of_here)).
Defined.

(** ** Which exceptions escape *)

Ltac outcome_of_saves :=
  repeat match goal with
  | |- context [saveCoverageState ?l ?w0] =>
      let H := fresh "Hout" in
      destruct (saveCoverageState_outcome l w0) as [H | H];
      destruct (saveCoverageState l w0) as [? ?]; simpl in H; subst
  end.

Lemma recordMention_outcome svc k now now' w :
  (recordMention svc k now now' w).1 <> Thrown PersistenceError.
Proof.
  unfold recordMention. destruct (getOutputRoomConfig svc k); [| discriminate].
  eff_unfold_ops.
  repeat (eff_case; simpl in *; simplify_eq); outcome_of_saves; simpl; discriminate.
Qed.

Lemma recordStrike_outcome svc k now w :
  (recordStrike svc k now w).1 <> Thrown PersistenceError.
Proof.
  unfold recordStrike, logger, next_fault. eff_unfold_ops.
  repeat (eff_case; simpl in *; simplify_eq); outcome_of_saves; simpl; discriminate.
Qed.

(** The tick and the loading at start catch everything; only a failure of
    the logger in their own handler escapes. *)
Lemma coveragePumpTick_outcome svc now w :
  (coveragePumpTick svc now w).1 = Returned tt
  \/ (coveragePumpTick svc now w).1 = Thrown LoggerError.
Proof.
  unfold coveragePumpTick, try_catch.
  destruct (pumpLoop svc now (outputRooms svc) w) as [[[]|e] w1]; simpl; [auto |].
  unfold logger. destruct (next_fault (logFaults w1)) as [[] ?]; simpl; auto.
Qed.

Lemma loadCoverageState_outcome w :
  (loadCoverageState w).1 = Returned tt
  \/ (loadCoverageState w).1 = Thrown LoggerError.
Proof.
  unfold loadCoverageState, try_catch.
  match goal with |- context [match ?m w with _ => _ end] =>
    destruct (m w) as [[[]|e] w1] end; simpl; [auto |].
  unfold logger. destruct (next_fault (logFaults w1)) as [[] ?]; simpl; auto.
Qed.

(** X9. A failure of the persistence layer never reaches the caller: a
    mention and a strike never end with a persistence error, and a pump tick
    and the loading of the stored states end normally unless the logger itself
    throws in their handler. *)
Theorem persistence_errors_never_escape svc k now now' w :
  (recordMention svc k now now' w).1 <> Thrown PersistenceError
  /\ (recordStrike svc k now w).1 <> Thrown PersistenceError
  /\ ((coveragePumpTick svc now w).1 = Returned tt
      \/ (coveragePumpTick svc now w).1 = Thrown LoggerError)
  /\ ((loadCoverageState w).1 = Returned tt
      \/ (loadCoverageState w).1 = Thrown LoggerError).
Proof.
  split; [apply recordMention_outcome |].
  split; [apply recordStrike_outcome |].
  split; [apply coveragePumpTick_outcome | apply loadCoverageState_outcome].
Qed.

(** ** The stored rows *)

Lemma no_row_for_room (tbl : list Memory) k :
  take 1 (filter (fun m => mem_roomId m = k) tbl) = [] ->
  k ∉ mem_roomId <$> tbl.
Proof.
  intros Htake Hin.
  apply list_elem_of_fmap in Hin as (m & -> & Hm).
  assert (Hf : m ∈ filter (fun m' => mem_roomId m' = mem_roomId m) tbl)
    by (apply list_elem_of_filter; auto).
  destruct (filter _ tbl) as [|x rest]; [inversion Hf | discriminate].
Qed.

Lemma table_ok_create tbl s :
  table_ok tbl ->
  take 1 (filter (fun m => mem_roomId m = roomId s) tbl) = [] ->
  table_ok (tbl ++ [{| mem_id := length tbl; mem_roomId := roomId s; mem_metadata := s |}]).
Proof.
  intros (Hid & Hkey & Hnd) Hnone. repeat split.
  - intros i row Hi. apply lookup_app_Some in Hi as [Hi | [Hge Hi]]; [eauto |].
    apply list_lookup_singleton_Some in Hi as [Hi <-]. simpl. lia.
  - intros row Hin. apply elem_of_app in Hin as [Hin | Hin]; [auto |].
    apply list_elem_of_singleton in Hin as ->. reflexivity.
  - rewrite fmap_app. apply NoDup_app. split; [exact Hnd |]. split.
    + intros k Hk Hk'. apply list_elem_of_singleton in Hk' as ->.
      eapply no_row_for_room; eassumption.
    + apply NoDup_singleton.
Qed.

Lemma table_ok_update tbl s existing rest :
  table_ok tbl ->
  take 1 (filter (fun m => mem_roomId m = roomId s) tbl) = existing :: rest ->
  table_ok ((fun m => if decide (mem_id m = mem_id existing)
                      then {| mem_id := mem_id existing;
                              mem_roomId := mem_roomId existing;
                              mem_metadata := s |}
                      else m) <$> tbl).
Proof.
  intros (Hid & Hkey & Hnd) Htake.
  assert (Hin : existing ∈ filter (fun m => mem_roomId m = roomId s) tbl).
  { apply (subseteq_take 1). rewrite Htake. left. }
  apply list_elem_of_filter in Hin as [Hk Hin].
  apply list_elem_of_lookup in Hin as [j Hj].
  assert (Hsame : forall i m, tbl !! i = Some m -> mem_id m = mem_id existing -> m = existing).
  { intros i m Hi Heq. pose proof (Hid _ _ Hi). pose proof (Hid _ _ Hj).
    assert (i = j) by congruence. subst. congruence. }
  repeat split.
  - intros i row Hi. rewrite list_lookup_fmap in Hi.
    destruct (tbl !! i) as [m|] eqn:Hm; [| discriminate]. simpl in Hi.
    injection Hi as <-. case_decide; simpl; [| eauto].
    pose proof (Hid _ _ Hm). congruence.
  - intros row Hrow. apply list_elem_of_fmap in Hrow as (m & -> & Hm).
    case_decide; [exact Hk | auto].
  - rewrite <- list_fmap_compose.
    erewrite list_fmap_ext; [exact Hnd |].
    intros i m Hi. simpl. case_decide; [| reflexivity].
    simpl. f_equal. symmetry. eauto.
Qed.

(** [saveCoverageState] keeps the table in that shape, adds at most one row,
    and adds none for a room that has one. *)
Lemma saveCoverageState_table l w :
  table_ok (memories w) ->
  table_ok (memories (saveCoverageState l w).2)
  /\ (length (memories (saveCoverageState l w).2) <= S (length (memories w)))%nat.
Proof.
  intros Hok. eff_unfold.
  destruct (heap w !! l) as [s|]; simpl;
    [| destruct (logFaults w) as [|[] ?]; simpl; auto].
  destruct (dbFaults w) as [|f1 fs]; simpl.
  - destruct (take 1 (filter _ (memories w))) as [|existing rest] eqn:Htake; simpl.
    + split; [apply table_ok_create; assumption | rewrite length_app; simpl; lia].
    + split; [eapply table_ok_update; eassumption | rewrite length_fmap; lia].
  - destruct f1; simpl; [destruct (logFaults w) as [|[] ?]; simpl; auto |].
    destruct (take 1 (filter _ (memories w))) as [|existing rest] eqn:Htake; simpl;
      destruct fs as [|[] fs']; simpl;
      try (destruct (logFaults w) as [|[] ?]; simpl; auto; fail).
    + split; [apply table_ok_create; assumption | rewrite length_app; simpl; lia].
    + split; [apply table_ok_create; assumption | rewrite length_app; simpl; lia].
    + split; [eapply table_ok_update; eassumption | rewrite length_fmap; lia].
    + split; [eapply table_ok_update; eassumption | rewrite length_fmap; lia].
Qed.

Section StoredRows.
(** A property of the stored table that every save keeps. *)
Variable P : list Memory -> Prop.
Hypothesis P_save : forall l w, P (memories w) -> P (memories (saveCoverageState l w).2).

Ltac rows_step := simpl; first [assumption | apply P_save; rows_step].

Ltac rows_after_saves :=
  repeat match goal with
  | E : saveCoverageState ?l ?w0 = (_, ?w1) |- _ =>
      let H := fresh "Hrows" in
      assert (H : P (memories w1))
        by (replace w1 with (saveCoverageState l w0).2 by (rewrite E; reflexivity);
            rows_step);
      clear E
  end.

Lemma recordMention_rows svc k now now' w :
  P (memories w) -> P (memories (recordMention svc k now now' w).2).
Proof.
  intros HP. unfold recordMention.
  destruct (getOutputRoomConfig svc k); [| exact HP].
  eff_unfold_ops.
  repeat (eff_case; simpl in *; simplify_eq); rows_step.
Qed.

Lemma recordStrike_rows svc k now w :
  P (memories w) -> P (memories (recordStrike svc k now w).2).
Proof.
  intros HP. unfold recordStrike, logger, next_fault.
  eff_unfold_ops.
  repeat (eff_case; simpl in *; simplify_eq); rows_step.
Qed.

Lemma pumpRoom_rows svc now k roomConfig w :
  P (memories w) -> P (memories (pumpRoom svc now k roomConfig w).2).
Proof.
  intros HP. unfold pumpRoom, bind at 1.
  assert (HP1 : P (memories (ensureState svc k roomConfig w).2)).
  { unfold ensureState. eff_unfold_ops.
    repeat (eff_case; simpl in *; simplify_eq); rows_after_saves; rows_step. }
  destruct (ensureState svc k roomConfig w) as [[l|e] w1]; simpl in *; [| exact HP1].
  unfold safeguardGauntlet, logger, next_fault. eff_unfold_ops.
  repeat (eff_case; simpl in *; simplify_eq); rows_after_saves; rows_step.
Qed.

Lemma pumpLoop_rows svc now rooms :
  forall w, P (memories w) -> P (memories (pumpLoop svc now rooms w).2).
Proof.
  induction rooms as [|[k roomConfig] rest IH]; intros w HP; [exact HP |].
  cbn [pumpLoop]. unfold bind at 1.
  pose proof (pumpRoom_rows svc now k roomConfig w HP) as HP1.
  destruct (pumpRoom svc now k roomConfig w) as [[v|e] w1]; simpl in *.
  - unfold bind, record_verdict. apply IH. exact HP1.
  - exact HP1.
Qed.

Lemma coveragePumpTick_rows svc now w :
  P (memories w) -> P (memories (coveragePumpTick svc now w).2).
Proof.
  intros HP. unfold coveragePumpTick, try_catch.
  pose proof (pumpLoop_rows svc now (outputRooms svc) w HP) as HP1.
  destruct (pumpLoop svc now (outputRooms svc) w) as [[[]|e] w1]; simpl in *.
  - exact HP1.
  - unfold logger. destruct (next_fault (logFaults w1)) as [[] ?]; exact HP1.
Qed.
End StoredRows.

(** X10. One row per destination.  On a table in the shape the service
    builds (ids are positions, rows filed under their state's room id, no
    room twice), a mention, a strike and a pump tick leave a table of that
    shape, whatever throws: no operation ever stores a second row for a
    room. *)
Theorem one_stored_row_per_room svc k now now' w :
  table_ok (memories w) ->
  table_ok (memories (recordMention svc k now now' w).2)
  /\ table_ok (memories (recordStrike svc k now w).2)
  /\ table_ok (memories (coveragePumpTick svc now w).2).
Proof.
  intros Hok.
  assert (Hsave : forall l w0, table_ok (memories w0) ->
                               table_ok (memories (saveCoverageState l w0).2))
    by (intros l w0 H; apply saveCoverageState_table; exact H).
  split; [apply (recordMention_rows table_ok Hsave); exact Hok |].
  split; [apply (recordStrike_rows table_ok Hsave); exact Hok |].
  apply (coveragePumpTick_rows table_ok Hsave); exact Hok.
Qed.

Lemma table_ok_nil : table_ok [].
Proof.
  repeat split.
  - intros i row Hi. rewrite lookup_nil in Hi. discriminate.
  - intros row Hin. inversion Hin.
  - apply NoDup_nil_2.
Defined.

Lemma one_stored_row_per_room_witness :
  table_ok (memories (coveragePumpTick twoRoomService clock emptyWorld).2).
Proof.
  exact (proj2 (proj2 (one_stored_row_per_room twoRoomService "room-1" clock clock
                         emptyWorld table_ok_nil))).
Defined.

(** ** Loading the stored states *)

Lemma cacheRows_returns rows : forall w, (cacheRows rows w).1 = Returned tt.
Proof.
  induction rows as [|memory rest IH]; intros w; [reflexivity |].
  cbn [cacheRows]. unfold bind at 1.
  case_bool_decide; unfold ret, bind, new_object, cache_set; apply IH.
Qed.

(** Rows are only ever cached under their own keys. *)
Lemma cacheRows_other_key rows :
  forall w k,
    k ∉ rowKey <$> rows ->
    coverageStateCache (cacheRows rows w).2 !! k = coverageStateCache w !! k.
Proof.
  induction rows as [|memory rest IH]; intros w k Hk; [reflexivity |].
  rewrite fmap_cons in Hk. apply not_elem_of_cons in Hk as [Hne Hk].
  cbn [cacheRows]. unfold bind at 1.
  case_bool_decide; unfold ret, bind, new_object, cache_set.
  - apply IH. exact Hk.
  - rewrite IH by exact Hk. simpl. apply lookup_insert_ne.
    intros Heq. apply Hne. symmetry. exact Heq.
Qed.

(** Objects allocated earlier are not touched. *)
Lemma cacheRows_heap rows :
  forall w l x, heap w !! l = Some x -> heap (cacheRows rows w).2 !! l = Some x.
Proof.
  induction rows as [|memory rest IH]; intros w l x Hl; [exact Hl |].
  cbn [cacheRows]. unfold bind at 1.
  case_bool_decide; unfold ret, bind, new_object, cache_set; apply IH; [exact Hl |].
  simpl. rewrite lookup_app_l; [exact Hl |].
  apply lookup_lt_is_Some. eauto.
Qed.

Lemma cacheRows_view rows :
  forall w row,
    NoDup (rowKey <$> rows) ->
    row ∈ rows ->
    rowKey row <> ""%string ->
    coverageView (cacheRows rows w).2 (rowKey row) = Some (mem_metadata row).
Proof.
  induction rows as [|memory rest IH]; intros w row Hnd Hin Hkey; [inversion Hin |].
  rewrite fmap_cons in Hnd. apply NoDup_cons in Hnd as [Hfresh Hnd].
  apply elem_of_cons in Hin as [-> | Hin].
  - cbn [cacheRows]. unfold bind at 1.
    rewrite bool_decide_false by exact Hkey.
    unfold bind, new_object, cache_set.
    unfold coverageView.
    rewrite cacheRows_other_key by exact Hfresh. simpl.
    rewrite lookup_insert_eq. simpl.
    apply cacheRows_heap. simpl. apply new_object_lookup.
  - cbn [cacheRows]. unfold bind at 1.
    case_bool_decide; unfold ret, bind, new_object, cache_set; apply IH; auto.
Qed.

Lemma table_ok_keys tbl : table_ok tbl -> NoDup (rowKey <$> tbl).
Proof.
  intros (_ & Hkey & Hnd).
  erewrite list_fmap_ext; [exact Hnd |].
  intros i row Hi. simpl. symmetry. apply Hkey.
  apply list_elem_of_lookup. eauto.
Qed.

(** After a restart, loading caches the first hundred stored rows. *)
Lemma loadCoverageState_restart w :
  heap (loadCoverageState (restart w)).2
  = heap (cacheRows (take 100 (memories w)) (restart w)).2
  /\ coverageStateCache (loadCoverageState (restart w)).2
     = coverageStateCache (cacheRows (take 100 (memories w)) (restart w)).2.
Proof.
  destruct (loadCoverageState (restart w)) as [r wl] eqn:E. simpl.
  revert E. unfold loadCoverageState, try_catch, db_call, bind. simpl.
  change (with_memories (memories w) (with_dbFaults [] (restart w))) with (restart w).
  pose proof (cacheRows_returns (take 100 (memories w)) (restart w)) as Hr.
  destruct (cacheRows (take 100 (memories w)) (restart w)) as [r1 w1].
  simpl in Hr. subst r1. simpl.
  pose proof (logger_frame (DebugLoadedStates (length (take 100 (memories w)))) w1)
    as (Hh & Hc & _).
  destruct (logger _ w1) as [[[]|e] w2]; simpl in *.
  - intros [= <- <-]. auto.
  - pose proof (logger_frame (ErrorLoadingState e) w2) as (Hh2 & Hc2 & _).
    intros E. rewrite E in Hh2, Hc2. simpl in *. split; congruence.
Qed.

(** X11. What is saved survives a restart.  On a table in the shape the
    service builds and with fewer than a hundred rows, once a state with a
    room id has been saved with persistence working, a restart followed by
    [loadCoverageState] shows a reader of that room exactly the saved state. *)
Theorem saved_state_survives_restart l s w :
  table_ok (memories w) ->
  (length (memories w) < 100)%nat ->
  dbFaults w = [] ->
  heap w !! l = Some s ->
  roomId s <> ""%string ->
  coverageView (loadCoverageState (restart (saveCoverageState l w).2)).2 (roomId s)
  = Some s.
Proof.
  intros Hok Hlen Hdb Hl Hroom.
  destruct (saveCoverageState_ok l s w Hdb Hl)
    as (_ & _ & _ & _ & _ & _ & row & Hrow & Hmeta & Hkey).
  destruct (saveCoverageState_table l w Hok) as (Hok' & Hlen').
  set (w1 := (saveCoverageState l w).2) in *.
  destruct (loadCoverageState_restart w1) as (Hh & Hc).
  unfold coverageView. rewrite Hc, Hh.
  rewrite take_ge by lia.
  assert (Hk : rowKey row = roomId s) by (unfold rowKey; rewrite Hmeta; reflexivity).
  rewrite <- Hk, <- Hmeta.
  apply cacheRows_view; [apply table_ok_keys; exact Hok' | exact Hrow |].
  rewrite Hk. exact Hroom.
Qed.

Lemma saved_state_survives_restart_witness :
  let s := newsState clock 4 1 None in
  coverageView
    (loadCoverageState
       (restart (saveCoverageState 0 (with_heap [s] emptyWorld)).2)).2 "room-1"
  = Some s.
Proof.
  exact (saved_state_survives_restart 0 (newsState clock 4 1 None)
           (with_heap [newsState clock 4 1 None] emptyWorld)
           table_ok_nil ltac:(vm_compute; lia) eq_refl eq_refl
           ltac:(discriminate)).
Defined.

(** The loop goes through the rows one after the other. *)
Lemma cacheRows_app earlier later :
  forall w, cacheRows (earlier ++ later) w = cacheRows later (cacheRows earlier w).2.
Proof.
  induction earlier as [|memory rest IH]; intros w; [reflexivity |].
  cbn [app cacheRows]. unfold bind at 1 2.
  case_bool_decide; unfold ret, bind, new_object, cache_set; apply IH.
Qed.

(** A row without a room id is skipped, so an entry of the cache changes
    only if a row carries its key. *)
Lemma cacheRows_skips rows :
  forall w k,
    (forall row, row ∈ rows -> rowKey row = k -> k = ""%string) ->
    coverageStateCache (cacheRows rows w).2 !! k = coverageStateCache w !! k.
Proof.
  induction rows as [|memory rest IH]; intros w k Hrows; [reflexivity |].
  assert (Hrest : forall row, row ∈ rest -> rowKey row = k -> k = ""%string)
    by (intros row Hin; apply Hrows; right; exact Hin).
  cbn [cacheRows]. unfold bind at 1.
  case_bool_decide as Hid; unfold ret, bind, new_object, cache_set.
  - apply IH. exact Hrest.
  - rewrite IH by exact Hrest. simpl. apply lookup_insert_ne.
    intros Heq. apply Hid. rewrite Heq. apply (Hrows memory); [left |].
    unfold rowKey. exact Heq.
Qed.

Lemma cacheRows_head row later :
  rowKey row <> ""%string ->
  rowKey row ∉ rowKey <$> later ->
  forall w,
    coverageView (cacheRows (row :: later) w).2 (rowKey row) = Some (mem_metadata row).
Proof.
  intros Hkey Hfresh w. cbn [cacheRows]. unfold bind at 1.
  rewrite bool_decide_false by exact Hkey.
  unfold bind, new_object, cache_set. unfold coverageView.
  rewrite cacheRows_other_key by exact Hfresh. simpl.
  rewrite lookup_insert_eq. simpl.
  apply cacheRows_heap. simpl. apply new_object_lookup.
Qed.

(** X12. The loop of [loadCoverageState] over the rows that the persistence
    layer returned, whichever they are and in whatever order.  It never
    throws.  A row whose metadata has no room id is skipped: the cache entry
    of a key changes only if a row with a room id carries that key.  Of
    several rows with the same room id the last one wins: a reader of that
    room sees the metadata of the last row returned for it. *)
Theorem cacheRows_last_row_wins rows w :
  (cacheRows rows w).1 = Returned tt
  /\ (forall k,
        (forall row, row ∈ rows -> rowKey row = k -> k = ""%string) ->
        coverageStateCache (cacheRows rows w).2 !! k = coverageStateCache w !! k)
  /\ (forall earlier row later,
        rows = earlier ++ row :: later ->
        rowKey row <> ""%string ->
        rowKey row ∉ rowKey <$> later ->
        coverageView (cacheRows rows w).2 (rowKey row) = Some (mem_metadata row)).
Proof.
  split; [apply cacheRows_returns |]. split.
  - intros k Hrows. apply cacheRows_skips. exact Hrows.
  - intros earlier row later -> Hkey Hfresh.
    rewrite cacheRows_app. apply cacheRows_head; assumption.
Qed.

(** Two rows returned for the same room: a reader sees the second. *)
Lemma cacheRows_last_row_wins_witness :
  let older := {| mem_id := 0; mem_roomId := "room-1";
                  mem_metadata := newsState 0 0 0 None |} in
  let newer := {| mem_id := 1; mem_roomId := "room-1";
                  mem_metadata := newsState clock 4 1 None |} in
  coverageView (cacheRows [older; newer] emptyWorld).2 "room-1"
  = Some (newsState clock 4 1 None).
Proof.
  exact (proj2 (proj2
           (cacheRows_last_row_wins
              [ {| mem_id := 0; mem_roomId := "room-1";
                   mem_metadata := newsState 0 0 0 None |};
                {| mem_id := 1; mem_roomId := "room-1";
                   mem_metadata := newsState clock 4 1 None |} ]
              emptyWorld))
           [ {| mem_id := 0; mem_roomId := "room-1";
                mem_metadata := newsState 0 0 0 None |} ]
           {| mem_id := 1; mem_roomId := "room-1";
              mem_metadata := newsState clock 4 1 None |}
           [] eq_refl ltac:(discriminate) ltac:(apply not_elem_of_nil)).
Defined.

(** ** Strike decay over a whole tick *)

Lemma cache_keyed_valid w : cache_keyed w -> cache_valid w.
Proof. intros Hk k l Hl. destruct (Hk k l Hl) as (s & Hs & _). eauto. Qed.

(** *** The cache stays keyed by room *)

Lemma assign_keyed l f s0 w :
  cache_keyed w ->
  heap w !! l = Some s0 ->
  roomId (f s0) = roomId s0 ->
  cache_keyed (with_heap (<[l := f s0]> (heap w)) w).
Proof.
  intros Hkey Hl Hf k l' Hk. simpl in *.
  destruct (Hkey k l' Hk) as (s & Hs & Hroom).
  destruct (decide (l' = l)) as [-> | Hne].
  - exists (f s0). split; [eapply heap_insert_lookup; exact Hl |].
    rewrite Hf. congruence.
  - exists s. split; [| exact Hroom].
    rewrite list_lookup_insert_ne by congruence. exact Hs.
Qed.

Lemma new_object_keyed s0 w :
  cache_keyed w -> cache_keyed (with_heap (heap w ++ [s0]) w).
Proof.
  intros Hkey k l Hk. simpl in *.
  destruct (Hkey k l Hk) as (s & Hs & Hroom).
  exists s. split; [| exact Hroom].
  rewrite lookup_app_l; [exact Hs |]. apply lookup_lt_is_Some. eauto.
Qed.

Lemma saveCoverageState_keyed l w :
  cache_keyed w -> cache_keyed (saveCoverageState l w).2.
Proof.
  intros Hkey k l' Hk.
  destruct (saveCoverageState_frame l w) as (Hh & _ & [Hc | (s & Hs & Hc)]);
    rewrite Hh; rewrite Hc in Hk.
  - eapply Hkey, Hk.
  - rewrite lookup_insert in Hk. case_decide.
    + injection Hk as <-. eauto.
    + eapply Hkey, Hk.
Qed.

Lemma logger_keyed entry w : cache_keyed w -> cache_keyed (logger entry w).2.
Proof.
  intros Hkey k l Hk.
  destruct (logger_frame entry w) as (Hh & Hc & _).
  rewrite Hh. rewrite Hc in Hk. eapply Hkey, Hk.
Qed.

(** The first part of the loop body yields the state of the room. *)
Lemma ensureState_keyed svc k roomConfig w :
  cache_keyed w ->
  cache_keyed (ensureState svc k roomConfig w).2
  /\ forall l, (ensureState svc k roomConfig w).1 = Returned l ->
       exists s, heap (ensureState svc k roomConfig w).2 !! l = Some s /\ roomId s = k.
Proof.
  intros Hkey.
  destruct (ensureState svc k roomConfig w) as [r w'] eqn:E. simpl. revert E.
  unfold ensureState. unfold bind at 1. unfold getCoverageState.
  destruct (coverageStateCache w !! k) as [l|] eqn:Hk.
  - intros [= <- <-]. split; [exact Hkey |]. intros l' [= <-]. eapply Hkey, Hk.
  - unfold bind at 1. unfold new_object.
    set (created := initialState svc k roomConfig 0 0 0).
    set (w0 := with_heap (heap w ++ [created]) w).
    pose proof (saveCoverageState_keyed (length (heap w)) w0
                  (new_object_keyed created w Hkey)) as Hkey1.
    destruct (saveCoverageState_frame (length (heap w)) w0) as (Hh & _).
    unfold bind, ret.
    destruct (saveCoverageState (length (heap w)) w0) as [[[]|e] w1]; simpl in *;
      intros [= <- <-]; (split; [exact Hkey1 |]); [| discriminate].
    intros l' [= <-]. rewrite Hh. exists created. split; [| reflexivity].
    subst w0. simpl. apply new_object_lookup.
Qed.

Lemma gauntlet_keyed svc now l w :
  cache_keyed w -> cache_keyed (safeguardGauntlet svc now l w).2.
Proof.
  intros Hkey. unfold safeguardGauntlet. unfold bind at 1. unfold deref.
  destruct (heap w !! l) as [s|] eqn:Hl; [| exact Hkey].
  destruct (isMuted now s); [exact Hkey |].
  destruct (isCapped svc now s); [exact Hkey |].
  cbn zeta.
  destruct (now - lastMentionAt s <? cadenceMs s); [exact Hkey |].
  unfold bind at 1.
  assert (Hdecay : cache_keyed
    ((if strikes s >? 0
      then if now - lastMentionAt s >? hoursMs (strikeDecayHours (reporterConfig svc))
           then exec assign l (fun s => set_strikes (Z.max 0 (strikes s - 1)) s);
                saveCoverageState l
           else ret tt
      else ret tt) w).2).
  { destruct (strikes s >? 0); [| exact Hkey].
    destruct (now - lastMentionAt s >? _); [| exact Hkey].
    unfold bind. rewrite (assign_eq _ _ _ _ Hl).
    apply saveCoverageState_keyed.
    apply (assign_keyed l (fun s => set_strikes (Z.max 0 (strikes s - 1)) s) s w Hkey Hl).
    reflexivity. }
  match goal with |- context [match ?m w with _ => _ end] =>
    destruct (m w) as [[[]|e] w1] end; simpl in *; [| exact Hdecay].
  unfold bind, ret.
  pose proof (logger_keyed (DebugCoverageGap (roomName s) (now - lastMentionAt s)) w1
                Hdecay) as Hlogged.
  destruct (logger _ w1) as [[[]|e] w2]; exact Hlogged.
Qed.

Lemma pumpRoom_keyed svc now k roomConfig w :
  cache_keyed w -> cache_keyed (pumpRoom svc now k roomConfig w).2.
Proof.
  intros Hkey. unfold pumpRoom, bind.
  destruct (ensureState_keyed svc k roomConfig w Hkey) as (Hkey1 & _).
  destruct (ensureState svc k roomConfig w) as [[l|e] w1]; simpl in *.
  - apply gauntlet_keyed. exact Hkey1.
  - exact Hkey1.
Qed.

(** *** Work on one room leaves the others alone *)

Lemma keeps_room_refl k w : keeps_room k w w.
Proof. split; auto. Qed.

Lemma keeps_room_trans k w1 w2 w3 :
  keeps_room k w1 w2 -> keeps_room k w2 w3 -> keeps_room k w1 w3.
Proof.
  intros (Hv1 & Ht1) (Hv2 & Ht2). split; [congruence |].
  intros Hok. destruct (Ht1 Hok) as (Hok2 & Hrows1).
  destruct (Ht2 Hok2) as (Hok3 & Hrows2). auto.
Qed.

(** A step that changes neither the view of the room nor the table. *)
Lemma keeps_room_same k w w' :
  coverageView w' k = coverageView w k ->
  memories w' = memories w ->
  keeps_room k w w'.
Proof. intros Hv Hm. split; [exact Hv |]. rewrite Hm. auto. Qed.

Lemma keeps_room_assign k l f s0 w :
  cache_keyed w ->
  heap w !! l = Some s0 ->
  roomId s0 <> k ->
  keeps_room k w (with_heap (<[l := f s0]> (heap w)) w).
Proof.
  intros Hkey Hl Hne. apply keeps_room_same; [| reflexivity].
  unfold coverageView. simpl.
  destruct (coverageStateCache w !! k) as [lk|] eqn:Hk; [simpl | reflexivity].
  destruct (Hkey k lk Hk) as (s & Hs & Hroom).
  apply list_lookup_insert_ne. intros ->. congruence.
Qed.

Lemma keeps_room_new_object k s0 w :
  cache_keyed w ->
  keeps_room k w (with_heap (heap w ++ [s0]) w).
Proof.
  intros Hkey. apply keeps_room_same; [| reflexivity].
  unfold coverageView. simpl.
  destruct (coverageStateCache w !! k) as [lk|] eqn:Hk; [simpl | reflexivity].
  destruct (Hkey k lk Hk) as (s & Hs & Hroom).
  apply lookup_app_l. apply lookup_lt_is_Some. eauto.
Qed.

(** On a table with one row per room and distinct ids, writing the row of
    one room leaves the rows of every other room in place. *)
Lemma table_update_keeps tbl k0 existing rest s row :
  table_ok tbl ->
  take 1 (filter (fun m => mem_roomId m = k0) tbl) = existing :: rest ->
  row ∈ tbl ->
  mem_roomId row <> k0 ->
  row ∈ ((fun m => if decide (mem_id m = mem_id existing)
                   then {| mem_id := mem_id existing;
                           mem_roomId := mem_roomId existing;
                           mem_metadata := s |}
                   else m) <$> tbl).
Proof.
  intros (Hid & _ & _) Htake Hrow Hne.
  assert (Hin : existing ∈ filter (fun m => mem_roomId m = k0) tbl).
  { apply (subseteq_take 1). rewrite Htake. left. }
  apply list_elem_of_filter in Hin as [Hk Hin].
  apply list_elem_of_fmap. exists row. split; [| exact Hrow].
  rewrite decide_False; [reflexivity |].
  intros Heq.
  apply list_elem_of_lookup in Hin as [j Hj].
  apply list_elem_of_lookup in Hrow as [i Hi].
  pose proof (Hid _ _ Hi). pose proof (Hid _ _ Hj).
  assert (i = j) by congruence. subst. congruence.
Qed.

Lemma saveCoverageState_keeps_rows l s0 w k :
  table_ok (memories w) ->
  heap w !! l = Some s0 ->
  roomId s0 <> k ->
  forall row, row ∈ memories w -> mem_roomId row = k ->
    row ∈ memories (saveCoverageState l w).2.
Proof.
  intros Hok Hl Hne row Hrow Hroom. eff_unfold. rewrite Hl. simpl.
  assert (Hupd : forall existing rest,
            take 1 (filter (fun m => mem_roomId m = roomId s0) (memories w))
            = existing :: rest ->
            row ∈ ((fun m => if decide (mem_id m = mem_id existing)
                             then {| mem_id := mem_id existing;
                                     mem_roomId := mem_roomId existing;
                                     mem_metadata := s0 |}
                             else m) <$> memories w)).
  { intros existing rest Htake. eapply table_update_keeps; eauto. congruence. }
  destruct (dbFaults w) as [|f1 fs]; simpl.
  - destruct (take 1 (filter _ (memories w))) as [|existing rest] eqn:Htake; simpl.
    + apply elem_of_app. auto.
    + eapply Hupd. reflexivity.
  - destruct f1; simpl; [destruct (logFaults w) as [|[] ?]; simpl; auto |].
    destruct (take 1 (filter _ (memories w))) as [|existing rest] eqn:Htake; simpl;
      destruct fs as [|[] fs']; simpl;
      try (destruct (logFaults w) as [|[] ?]; simpl; auto; fail);
      first [ apply elem_of_app; auto; fail | eapply Hupd; reflexivity ].
Qed.

Lemma keeps_room_save k l s0 w :
  heap w !! l = Some s0 ->
  roomId s0 <> k ->
  keeps_room k w (saveCoverageState l w).2.
Proof.
  intros Hl Hne. split.
  - unfold coverageView.
    destruct (saveCoverageState_frame l w) as (Hh & _ & [Hc | (s & Hs & Hc)]);
      rewrite Hc, Hh; [reflexivity |].
    rewrite lookup_insert_ne; [reflexivity |]. congruence.
  - intros Hok. split; [apply saveCoverageState_table; exact Hok |].
    eapply saveCoverageState_keeps_rows; eassumption.
Qed.

Lemma keeps_room_logger k entry w : keeps_room k w (logger entry w).2.
Proof.
  destruct (logger_frame entry w) as (Hh & Hc & Hm & _).
  apply keeps_room_same; [| exact Hm].
  unfold coverageView. rewrite Hc, Hh. reflexivity.
Qed.

Lemma ensureState_keeps_room svc k0 roomConfig w k :
  cache_keyed w -> k0 <> k ->
  keeps_room k w (ensureState svc k0 roomConfig w).2.
Proof.
  intros Hkey Hne. unfold ensureState. unfold bind at 1. unfold getCoverageState.
  destruct (coverageStateCache w !! k0) as [l|]; [apply keeps_room_refl |].
  unfold bind at 1. unfold new_object.
  set (created := initialState svc k0 roomConfig 0 0 0).
  set (w0 := with_heap (heap w ++ [created]) w).
  assert (Hsave : keeps_room k w0 (saveCoverageState (length (heap w)) w0).2).
  { apply (keeps_room_save k _ created); [| exact Hne].
    subst w0. simpl. apply new_object_lookup. }
  eapply keeps_room_trans; [apply (keeps_room_new_object k created w Hkey) |].
  unfold bind. destruct (saveCoverageState (length (heap w)) w0) as [[[]|e] w1];
    exact Hsave.
Qed.

Lemma gauntlet_keeps_room svc now l s0 w k :
  cache_keyed w ->
  heap w !! l = Some s0 ->
  roomId s0 <> k ->
  keeps_room k w (safeguardGauntlet svc now l w).2.
Proof.
  intros Hkey Hl Hne. unfold safeguardGauntlet. unfold bind at 1.
  rewrite (deref_eq _ _ _ Hl).
  destruct (isMuted now s0); [apply keeps_room_refl |].
  destruct (isCapped svc now s0); [apply keeps_room_refl |].
  cbn zeta.
  destruct (now - lastMentionAt s0 <? cadenceMs s0); [apply keeps_room_refl |].
  unfold bind at 1.
  assert (Hdecay : keeps_room k w
    ((if strikes s0 >? 0
      then if now - lastMentionAt s0 >? hoursMs (strikeDecayHours (reporterConfig svc))
           then exec assign l (fun s => set_strikes (Z.max 0 (strikes s - 1)) s);
                saveCoverageState l
           else ret tt
      else ret tt) w).2).
  { destruct (strikes s0 >? 0); [| apply keeps_room_refl].
    destruct (now - lastMentionAt s0 >? _); [| apply keeps_room_refl].
    unfold bind. rewrite (assign_eq _ _ _ _ Hl).
    eapply keeps_room_trans; [apply keeps_room_assign; eassumption |].
    apply (keeps_room_save k l (set_strikes (Z.max 0 (strikes s0 - 1)) s0));
      [| exact Hne].
    simpl. eapply heap_insert_lookup. exact Hl. }
  match goal with |- context [match ?m w with _ => _ end] =>
    destruct (m w) as [[[]|e] w1] end; simpl in *; [| exact Hdecay].
  unfold bind, ret.
  pose proof (keeps_room_logger k
                (DebugCoverageGap (roomName s0) (now - lastMentionAt s0)) w1) as Hlogged.
  destruct (logger _ w1) as [[[]|e] w2];
    (eapply keeps_room_trans; [exact Hdecay | exact Hlogged]).
Qed.

Lemma pumpRoom_keeps_room svc now k0 roomConfig w k :
  cache_keyed w -> k0 <> k ->
  keeps_room k w (pumpRoom svc now k0 roomConfig w).2.
Proof.
  intros Hkey Hne. unfold pumpRoom, bind.
  pose proof (ensureState_keeps_room svc k0 roomConfig w k Hkey Hne) as H1.
  destruct (ensureState_keyed svc k0 roomConfig w Hkey) as (Hkey1 & Hstate).
  destruct (ensureState svc k0 roomConfig w) as [[l|e] w1]; simpl in *; [| exact H1].
  destruct (Hstate l eq_refl) as (s0 & Hl & Hroom).
  eapply keeps_room_trans; [exact H1 |].
  eapply gauntlet_keeps_room; eauto. congruence.
Qed.

Lemma pumpLoop_keeps_room svc now k rooms :
  forall w,
    cache_keyed w ->
    k ∉ rooms.*1 ->
    cache_keyed (pumpLoop svc now rooms w).2
    /\ keeps_room k w (pumpLoop svc now rooms w).2.
Proof.
  induction rooms as [|[k0 roomConfig] rest IH]; intros w Hkey Hnot.
  - split; [exact Hkey | apply keeps_room_refl].
  - rewrite fmap_cons in Hnot. apply not_elem_of_cons in Hnot as [Hne Hnot].
    cbn [fst] in Hne.
    destruct (pumpLoop svc now ((k0, roomConfig) :: rest) w) as [r w'] eqn:E.
    simpl. revert E. cbn [pumpLoop]. unfold bind at 1.
    pose proof (pumpRoom_keyed svc now k0 roomConfig w Hkey) as Hkey1.
    assert (Hne' : k0 <> k) by congruence.
    pose proof (pumpRoom_keeps_room svc now k0 roomConfig w k Hkey Hne') as H1.
    destruct (pumpRoom svc now k0 roomConfig w) as [[v|e] w1]; simpl in *;
      [| intros [= <- <-]; split; assumption].
    unfold bind at 1. unfold record_verdict.
    set (w2 := with_evaluated _ w1).
    destruct (IH w2 Hkey1 Hnot) as (Hkey2 & H2).
    intros E. rewrite E in Hkey2, H2. simpl in Hkey2, H2.
    split; [exact Hkey2 |].
    eapply keeps_room_trans; [exact H1 |].
    eapply keeps_room_trans; [| exact H2].
    apply keeps_room_same; reflexivity.
Qed.

(** *** A room that the checks skip *)

Lemma pumpRoom_skips svc now k roomConfig w s :
  coverageView w k = Some s ->
  passesChecks svc now s = false ->
  exists v, pumpRoom svc now k roomConfig w = (Returned v, w).
Proof.
  intros Hview Hp.
  destruct (view_inv _ _ _ Hview) as (l & Hk & Hl).
  rewrite (pumpRoom_existing _ _ _ _ _ _ Hk).
  unfold passesChecks in Hp.
  destruct (isMuted now s) eqn:Hm; [eexists; eapply gauntlet_muted; eauto |].
  destruct (isCapped svc now s) eqn:Hc; [eexists; eapply gauntlet_capped; eauto |].
  simpl in Hp. apply negb_false_iff, Z.ltb_lt in Hp.
  eexists. eapply gauntlet_too_soon; eauto.
Qed.

Lemma pumpLoop_skipped_room svc now k s rooms :
  passesChecks svc now s = false ->
  forall w,
    cache_keyed w ->
    coverageView w k = Some s ->
    cache_keyed (pumpLoop svc now rooms w).2
    /\ coverageView (pumpLoop svc now rooms w).2 k = Some s.
Proof.
  intros Hp. induction rooms as [|[k0 roomConfig] rest IH]; intros w Hkey Hview.
  - split; assumption.
  - destruct (pumpLoop svc now ((k0, roomConfig) :: rest) w) as [r w'] eqn:E.
    simpl. revert E. cbn [pumpLoop]. unfold bind at 1.
    destruct (decide (k0 = k)) as [-> | Hne].
    + destruct (pumpRoom_skips svc now k roomConfig w s Hview Hp) as (v & ->).
      unfold bind at 1. unfold record_verdict.
      set (w2 := with_evaluated _ w).
      destruct (IH w2 Hkey Hview) as (Hkey2 & Hview2).
      intros E. rewrite E in Hkey2, Hview2. auto.
    + pose proof (pumpRoom_keyed svc now k0 roomConfig w Hkey) as Hkey1.
      destruct (pumpRoom_keeps_room svc now k0 roomConfig w k Hkey Hne) as (Hview1 & _).
      rewrite Hview in Hview1.
      destruct (pumpRoom svc now k0 roomConfig w) as [[v|e] w1]; simpl in *;
        [| intros [= <- <-]; split; assumption].
      unfold bind at 1. unfold record_verdict.
      set (w2 := with_evaluated _ w1).
      destruct (IH w2 Hkey1 Hview1) as (Hkey2 & Hview2).
      intros E. rewrite E in Hkey2, Hview2. auto.
Qed.

Lemma pumpLoop_db_works svc now rooms :
  forall w, dbFaults w = [] -> dbFaults (pumpLoop svc now rooms w).2 = [].
Proof.
  induction rooms as [|[k roomConfig] rest IH]; intros w Hdb; [exact Hdb |].
  cbn [pumpLoop]. unfold bind at 1.
  pose proof (pumpRoom_db_works svc now k roomConfig w Hdb) as Hdb1.
  destruct (pumpRoom svc now k roomConfig w) as [[v|e] w1]; simpl in *.
  - unfold bind, record_verdict. apply IH. exact Hdb1.
  - exact Hdb1.
Qed.

(** C7, as amended.  On a cache keyed by room, for a room [k] whose cached
    state is [s]:

    - if [s] passes the mute, cap and cadence checks, has at least one strike
      and was last mentioned longer ago than the decay window, then a tick
      over the registered rooms, [k] among them, during which the logger does
      not throw takes exactly one strike off (never going below zero) and
      saves the state: when persistence works, the stored row of [k] carries
      the new count at the end of the tick;

    - if one of the three checks skips [s], the room keeps its state, strikes
      included, in that tick, whatever throws. *)
Theorem tick_strike_decay svc now w k s :
  cache_keyed w ->
  coverageView w k = Some s ->
  let w' := (coveragePumpTick svc now w).2 in
  (passesChecks svc now s = true ->
   0 < strikes s ->
   hoursMs (strikeDecayHours (reporterConfig svc)) < now - lastMentionAt s ->
   k ∈ (outputRooms svc).*1 ->
   NoDup (outputRooms svc).*1 ->
   logFaults w = [] ->
   coverageView w' k = Some (set_strikes (strikes s - 1) s)
   /\ 0 <= strikes s - 1
   /\ (dbFaults w = [] ->
       table_ok (memories w) ->
       exists row, row ∈ memories w' /\ mem_roomId row = k
         /\ mem_metadata row = set_strikes (strikes s - 1) s))
  /\ (passesChecks svc now s = false -> coverageView w' k = Some s).
Proof.
  intros Hkey Hview w'. split.
  - intros Hp Hs Hwin Hin Hnd Hlog.
    (* the room's place in the loop *)
    apply list_elem_of_fmap in Hin as ([k' roomConfig] & Hk' & Hin).
    simpl in Hk'. subst k'.
    apply list_elem_of_split in Hin as (before & after & Hrooms).
    rewrite Hrooms, fmap_app, fmap_cons in Hnd. cbn [fst] in Hnd.
    apply NoDup_app in Hnd as (_ & Hbefore & Hnd).
    apply NoDup_cons in Hnd as (Hafter & _).
    assert (Hnot : k ∉ before.*1).
    { intros Hb. eapply Hbefore; [exact Hb | left]. }
    (* the checks *)
    unfold passesChecks in Hp.
    apply andb_true_iff in Hp as (Hp & Hcad).
    apply andb_true_iff in Hp as (Hm & Hc).
    apply negb_true_iff in Hm, Hc, Hcad. apply Z.ltb_ge in Hcad.
    (* the rooms before *)
    assert (Hst : steady (evaluated w) w).
    { repeat split; auto. apply cache_keyed_valid. exact Hkey. }
    destruct (pumpLoop_processes_all svc now before _ w Hst)
      as (vs1 & w1 & Hloop1 & Hst1 & _).
    destruct (pumpLoop_keeps_room svc now k before w Hkey Hnot) as (Hkey1 & Hview1 & Hrows1).
    pose proof (pumpLoop_db_works svc now before w) as Hdb1.
    rewrite Hloop1 in Hkey1, Hview1, Hrows1, Hdb1. simpl in Hkey1, Hview1, Hrows1, Hdb1.
    rewrite Hview in Hview1.
    (* the room itself *)
    destruct (pumpRoom_decays_and_saves svc now k roomConfig w1 s Hview1 Hm Hc Hcad Hs Hwin)
      as (Hview2 & Hfloor & Hrow2).
    destruct (pumpRoom_steady _ svc now k roomConfig w1 Hst1) as (v & w2 & Hroom & Hst2).
    pose proof (pumpRoom_keyed svc now k roomConfig w1 Hkey1) as Hkey2.
    pose proof (pumpRoom_db_works svc now k roomConfig w1) as Hdb2.
    assert (Hsave : forall l w0, table_ok (memories w0) ->
                                 table_ok (memories (saveCoverageState l w0).2))
      by (intros l w0 H; apply saveCoverageState_table; exact H).
    pose proof (pumpRoom_rows table_ok Hsave svc now k roomConfig w1) as Hok2.
    rewrite Hroom in Hview2, Hrow2, Hkey2, Hdb2, Hok2.
    simpl in Hview2, Hrow2, Hkey2, Hdb2, Hok2.
    (* the rooms after *)
    set (w2' := with_evaluated (evaluated w2 ++ [(k, v)]) w2).
    assert (Hst2' : steady (evaluated w2') w2').
    { destruct Hst2 as (Hv2 & Hlog2 & _). repeat split; auto. }
    destruct (pumpLoop_processes_all svc now after _ w2' Hst2')
      as (vs3 & w3 & Hloop3 & _ & _).
    destruct (pumpLoop_keeps_room svc now k after w2' Hkey2 Hafter)
      as (_ & Hview3 & Hrows3).
    rewrite Hloop3 in Hview3, Hrows3. simpl in Hview3, Hrows3.
    (* the tick *)
    assert (Htick : coveragePumpTick svc now w = (Returned tt, w3)).
    { unfold coveragePumpTick, try_catch.
      rewrite Hrooms, pumpLoop_app, Hloop1. cbn [pumpLoop].
      unfold bind at 1. rewrite Hroom.
      unfold bind at 1. unfold record_verdict. fold w2'. rewrite Hloop3. reflexivity. }
    subst w'. rewrite Htick. simpl.
    split; [rewrite Hview3; exact Hview2 |]. split; [exact Hfloor |].
    intros Hdb Hok.
    destruct (Hrows1 Hok) as (Hok1 & _).
    destruct (Hrow2 (Hdb1 Hdb)) as (row & Hrow & Hmeta & Hroomid).
    destruct (Hrows3 (Hok2 Hok1)) as (_ & Hkept).
    destruct (view_inv _ _ _ Hview) as (l & Hk & Hl).
    destruct (Hkey k l Hk) as (s' & Hl' & Hid).
    assert (s' = s) by congruence. subst s'.
    exists row. split; [apply Hkept; [exact Hrow | congruence] |].
    split; [congruence | exact Hmeta].
  - intros Hp. subst w'. unfold coveragePumpTick, try_catch.
    destruct (pumpLoop_skipped_room svc now k s (outputRooms svc) Hp w Hkey Hview)
      as (_ & Hskip).
    destruct (pumpLoop svc now (outputRooms svc) w) as [[[]|e] w1]; simpl in *;
      [exact Hskip |].
    destruct (logger_frame (ErrorInPump e) w1) as (Hh & Hc & _).
    unfold coverageView in *. rewrite Hc, Hh. exact Hskip.
Qed.

Lemma worldWith_cache_keyed s : cache_keyed (worldWith s).
Proof.
  intros k l Hk. simpl in Hk.
  apply lookup_singleton_Some in Hk as [<- <-]. exists s. split; reflexivity.
Defined.

(** The example of the claim, in a tick over two rooms: one strike, last
    mention 49 hours ago, default window of 48 hours. *)
Lemma tick_strike_decay_witness :
  coverageView
    (coveragePumpTick twoRoomService clock
       (worldWith (newsState (clock - hoursMs 49) 0 1 None))).2 "room-1"
  = Some (newsState (clock - hoursMs 49) 0 0 None).
Proof.
  exact (proj1
           (proj1 (tick_strike_decay twoRoomService clock
                     (worldWith (newsState (clock - hoursMs 49) 0 1 None))
                     "room-1" (newsState (clock - hoursMs 49) 0 1 None)
                     (worldWith_cache_keyed _)
                     ltac:(vm_compute; reflexivity))
              eq_refl eq_refl eq_refl
              ltac:(vm_compute; apply list_elem_of_here)
              ltac:(apply (bool_decide_unpack _); vm_compute; exact I)
              eq_refl)).
Defined.

(** *** The keyed cache is an invariant of the service *)

Lemma emptyWorld_cache_keyed : cache_keyed emptyWorld.
Proof. intros k l Hk. simpl in Hk. rewrite lookup_empty in Hk. discriminate. Qed.

Lemma pumpLoop_keyed svc now rooms :
  forall w, cache_keyed w -> cache_keyed (pumpLoop svc now rooms w).2.
Proof.
  induction rooms as [|[k roomConfig] rest IH]; intros w Hkey; [exact Hkey |].
  cbn [pumpLoop]. unfold bind at 1.
  pose proof (pumpRoom_keyed svc now k roomConfig w Hkey) as Hkey1.
  destruct (pumpRoom svc now k roomConfig w) as [[v|e] w1]; simpl in *.
  - unfold bind, record_verdict. apply IH. exact Hkey1.
  - exact Hkey1.
Qed.

Lemma coveragePumpTick_keyed svc now w :
  cache_keyed w -> cache_keyed (coveragePumpTick svc now w).2.
Proof.
  intros Hkey. unfold coveragePumpTick, try_catch.
  pose proof (pumpLoop_keyed svc now (outputRooms svc) w Hkey) as Hkey1.
  destruct (pumpLoop svc now (outputRooms svc) w) as [[[]|e] w1]; simpl in *.
  - exact Hkey1.
  - apply logger_keyed. exact Hkey1.
Qed.

Lemma recordMention_keyed svc k now now' w :
  cache_keyed w -> cache_keyed (recordMention svc k now now' w).2.
Proof.
  intros Hkey. unfold recordMention.
  destruct (getOutputRoomConfig svc k) as [roomConfig|]; [| exact Hkey].
  unfold bind at 1. unfold getCoverageState.
  destruct (coverageStateCache w !! k) as [l|] eqn:Hk.
  - destruct (Hkey k l Hk) as (s & Hl & Hroom).
    unfold bind at 1. unfold bind at 1.
    rewrite (assign_eq _ _ _ _ Hl).
    set (s1 := set_lastMentionAt now s). set (w1 := with_heap _ w).
    assert (Hkey1 : cache_keyed w1) by (apply assign_keyed; auto).
    assert (Hl1 : heap w1 !! l = Some s1)
      by (subst w1; simpl; eapply heap_insert_lookup; exact Hl).
    unfold bind at 1. rewrite (assign_eq _ _ _ _ Hl1).
    set (s2 := set_mentionCount24h _ s1). set (w2 := with_heap _ w1).
    assert (Hkey2 : cache_keyed w2)
      by (apply (assign_keyed l (fun s => set_mentionCount24h (mentionCount24h s + 1) s));
          auto).
    assert (Hl2 : heap w2 !! l = Some s2)
      by (subst w2; simpl; eapply heap_insert_lookup; exact Hl1).
    unfold bind at 1. rewrite (deref_eq _ _ _ Hl2).
    unfold bind at 1.
    destruct (lastMentionAt s2 <? now' - oneDayMs).
    + rewrite (assign_eq _ _ _ _ Hl2). unfold ret.
      apply saveCoverageState_keyed. apply assign_keyed; auto.
    + unfold ret. apply saveCoverageState_keyed. exact Hkey2.
  - unfold bind, new_object.
    apply saveCoverageState_keyed, new_object_keyed. exact Hkey.
Qed.

Lemma recordStrike_keyed svc k now w :
  cache_keyed w -> cache_keyed (recordStrike svc k now w).2.
Proof.
  intros Hkey.
  assert (Hauto : forall l s0 w0,
            cache_keyed w0 -> heap w0 !! l = Some s0 ->
            cache_keyed
              ((let! s := deref l in
                exec (if strikes s >=? 2
                      then
                        exec assign l
                          (set_mutedUntil
                             (now + hoursMs (strikeMuteHours (reporterConfig svc))));
                        logger (WarnAutoMuted (roomName s) (strikes s))
                      else ret tt);
                saveCoverageState l) w0).2).
  { intros l s0 w0 Hkey0 Hl0. unfold bind at 1. rewrite (deref_eq _ _ _ Hl0).
    unfold bind at 1.
    destruct (strikes s0 >=? 2).
    - unfold bind at 1. rewrite (assign_eq _ _ _ _ Hl0).
      set (w1 := with_heap _ w0).
      assert (Hkey1 : cache_keyed w1) by (apply assign_keyed; auto).
      pose proof (logger_keyed (WarnAutoMuted (roomName s0) (strikes s0)) w1 Hkey1)
        as Hkey2.
      destruct (logger _ w1) as [[[]|e] w2]; simpl in *; [| exact Hkey2].
      apply saveCoverageState_keyed. exact Hkey2.
    - unfold ret. apply saveCoverageState_keyed. exact Hkey0. }
  unfold recordStrike. unfold bind at 1. unfold getCoverageState.
  destruct (coverageStateCache w !! k) as [l|] eqn:Hk.
  - destruct (Hkey k l Hk) as (s & Hl & Hroom).
    unfold bind at 1. rewrite (assign_eq _ _ _ _ Hl).
    eapply Hauto.
    + apply (assign_keyed l (fun s => set_strikes (strikes s + 1) s)); auto.
    + simpl. eapply heap_insert_lookup. exact Hl.
  - destruct (getOutputRoomConfig svc k) as [roomConfig|]; [| exact Hkey].
    unfold bind at 1. unfold new_object.
    eapply Hauto.
    + apply new_object_keyed. exact Hkey.
    + simpl. apply new_object_lookup.
Qed.

Lemma cacheRows_keyed rows :
  forall w, cache_keyed w -> cache_keyed (cacheRows rows w).2.
Proof.
  induction rows as [|memory rest IH]; intros w Hkey; [exact Hkey |].
  cbn [cacheRows]. unfold bind at 1.
  case_bool_decide.
  - unfold ret. apply IH. exact Hkey.
  - unfold bind, new_object, cache_set. apply IH.
    intros k l Hk. simpl in *. rewrite lookup_insert in Hk. case_decide.
    + injection Hk as <-. rewrite new_object_lookup. eauto.
    + destruct (Hkey k l Hk) as (s & Hs & Hroom). exists s. split; [| exact Hroom].
      rewrite lookup_app_l; [exact Hs |]. apply lookup_lt_is_Some. eauto.
Qed.

Lemma loadCoverageState_keyed w :
  cache_keyed w -> cache_keyed (loadCoverageState w).2.
Proof.
  intros Hkey. unfold loadCoverageState, try_catch, db_call.
  unfold bind at 1.
  destruct (next_fault (dbFaults w)) as [[] fs]; simpl.
  - apply logger_keyed. exact Hkey.
  - unfold bind.
    pose proof (cacheRows_keyed (take 100 (memories w))
                  (with_memories (memories w) (with_dbFaults fs w)) Hkey) as Hkey1.
    pose proof (cacheRows_returns (take 100 (memories w))
                  (with_memories (memories w) (with_dbFaults fs w))) as Hr.
    destruct (cacheRows _ _) as [r w1]. simpl in *. subst r.
    pose proof (logger_keyed (DebugLoadedStates (length (take 100 (memories w)))) w1
                  Hkey1) as Hkey2.
    destruct (logger _ w1) as [[[]|e] w2]; simpl in *; [exact Hkey2 |].
    apply logger_keyed. exact Hkey2.
Qed.

(** * Properties of the feedback test and of the evaluators *)

(** ** Searching a string *)

Lemma startsWith_prefix p : forall s, startsWith s p = true <-> exists b, s = p ++ b.
Proof.
  induction p as [|x p IH]; intros s; simpl.
  - split; [intros _; exists s; reflexivity | intros _; destruct s; reflexivity].
  - destruct s as [|y s]; simpl.
    + split; [discriminate | intros [b Hb]; discriminate].
    + rewrite andb_true_iff, N.eqb_eq, IH. split.
      * intros [-> [b ->]]. eauto.
      * intros [b [= -> ->]]. eauto.
Qed.

(** [includes] finds the phrase wherever it occurs. *)
Lemma includes_unfold s p :
  includes s p
  = startsWith s p || match s with [] => false | _ :: s' => includes s' p end.
Proof. destruct s; reflexivity. Qed.

Lemma includes_infix p s : includes s p = true <-> exists a b, s = a ++ p ++ b.
Proof.
  split.
  - induction s as [|y s IH]; rewrite includes_unfold, orb_true_iff.
    + intros [H | H]; [| discriminate].
      apply startsWith_prefix in H as [b Hb]. exists [], b. exact Hb.
    + intros [H | H].
      * apply startsWith_prefix in H as [b Hb]. exists [], b. exact Hb.
      * destruct (IH H) as (a & b & ->). exists (y :: a), b. reflexivity.
  - intros (a & b & ->). induction a as [|y a IH].
    + rewrite includes_unfold. apply orb_true_iff. left.
      apply startsWith_prefix. exists b. reflexivity.
    + rewrite includes_unfold. apply orb_true_iff. right. exact IH.
Qed.

Lemma toLowerCase_app a b : toLowerCase (a ++ b) = toLowerCase a ++ toLowerCase b.
Proof. unfold toLowerCase. induction a; simpl; [| rewrite IHa, app_assoc]; reflexivity. Qed.

Lemma toLowerCase_nil s : toLowerCase s = [] -> s = [].
Proof.
  destruct s as [|u s]; [reflexivity |]. unfold toLowerCase. simpl.
  unfold lowerUnit. repeat case_match; discriminate.
Qed.

Lemma negativePhrases_nonempty phrase : phrase ∈ negativePhrases -> phrase <> [].
Proof.
  assert (H : Forall (fun p : jsstring => p <> []) negativePhrases)
    by (unfold negativePhrases; simpl; repeat constructor; discriminate).
  intros Hin. eapply Forall_forall in H; eassumption.
Qed.

Lemma isNegativeFeedback_infix text :
  isNegativeFeedback text = true
  <-> exists phrase, phrase ∈ negativePhrases
        /\ exists a b, toLowerCase text = a ++ phrase ++ b.
Proof.
  unfold isNegativeFeedback. split.
  - destruct text as [|u text]; [discriminate |].
    intros H. apply existsb_exists in H as (phrase & Hin & Hinc).
    exists phrase. split; [apply list_elem_of_In; exact Hin |].
    apply includes_infix. exact Hinc.
  - intros (phrase & Hin & Hab).
    assert (Hne : text <> []).
    { intros ->. destruct Hab as (a & b & Hab).
      apply (negativePhrases_nonempty phrase Hin).
      destruct a; [destruct phrase; [reflexivity | discriminate] | discriminate]. }
    destruct text as [|u text]; [congruence |].
    apply existsb_exists. exists phrase.
    split; [apply list_elem_of_In; exact Hin |].
    apply includes_infix. exact Hab.
Qed.

(** X13. [isNegativeFeedback] holds of a text exactly when one of the
    phrases occurs somewhere in the lower-cased text; the empty text is never
    negative. *)
Theorem isNegativeFeedback_finds_a_phrase text :
  (isNegativeFeedback text = true
   <-> exists phrase, phrase ∈ negativePhrases
         /\ exists a b, toLowerCase text = a ++ phrase ++ b)
  /\ isNegativeFeedback [] = false.
Proof.
  split; [apply isNegativeFeedback_infix | reflexivity].
Qed.

(** X14. The test knows no word boundaries: a text that contains a negative
    text is negative, whatever stands before and after it. *)
Theorem isNegativeFeedback_inside_any_text before text after :
  isNegativeFeedback text = true ->
  isNegativeFeedback (before ++ text ++ after) = true.
Proof.
  intros H. apply isNegativeFeedback_infix in H as (phrase & Hin & a & b & Hab).
  apply isNegativeFeedback_infix. exists phrase. split; [exact Hin |].
  exists (toLowerCase before ++ a), (b ++ toLowerCase after).
  rewrite !toLowerCase_app, Hab, <- !app_assoc. reflexivity.
Qed.

Lemma isNegativeFeedback_inside_any_text_witness :
  isNegativeFeedback (units "un" ++ units "STOP" ++ units "pable") = true.
Proof.
  exact (isNegativeFeedback_inside_any_text (units "un") (units "STOP") (units "pable")
           eq_refl).
Defined.

(** X15. The test does not see the case of ASCII letters: putting any
    small letter of a text in upper case leaves the verdict as it is. *)
Theorem isNegativeFeedback_ignores_case before u after :
  (97 <= u <= 122)%N ->
  isNegativeFeedback (before ++ [(u - 32)%N] ++ after)
  = isNegativeFeedback (before ++ [u] ++ after).
Proof.
  intros Hu. unfold isNegativeFeedback.
  assert (Hlow : toLowerCase (before ++ [(u - 32)%N] ++ after)
                 = toLowerCase (before ++ [u] ++ after)).
  { rewrite !toLowerCase_app. f_equal. f_equal.
    unfold toLowerCase. simpl. unfold lowerUnit.
    assert (H1 : ((65 <=? u - 32) && (u - 32 <=? 90))%N = true).
    { apply andb_true_iff. split; apply N.leb_le; lia. }
    assert (H2 : ((65 <=? u) && (u <=? 90))%N = false).
    { apply andb_false_iff. right. apply N.leb_gt. lia. }
    assert (H3 : (u =? 8490)%N = false) by (apply N.eqb_neq; lia).
    assert (H4 : (u =? 304)%N = false) by (apply N.eqb_neq; lia).
    rewrite H1, H2, H3, H4. simpl. f_equal. lia. }
  rewrite Hlow.
  destruct before; reflexivity.
Qed.

Lemma isNegativeFeedback_ignores_case_witness :
  isNegativeFeedback (units "s" ++ [(112 - 32)%N] ++ units "am")
  = isNegativeFeedback (units "s" ++ [112%N] ++ units "am").
Proof.
  exact (isNegativeFeedback_ignores_case (units "s") 112 (units "am")
           ltac:(vm_compute; split; discriminate)).
Defined.

(** ** The evaluators *)

Lemma evaluatorLogger_frame line w :
  heap (evaluatorLogger line w).2 = heap w
  /\ coverageStateCache (evaluatorLogger line w).2 = coverageStateCache w
  /\ memories (evaluatorLogger line w).2 = memories w
  /\ ((exists lines, (evaluatorLogger line w).1 = Returned lines)
      \/ (evaluatorLogger line w).1 = Thrown LoggerError).
Proof.
  unfold evaluatorLogger. destruct (next_fault (logFaults w)) as [[] ?]; simpl; eauto 6.
Qed.

(** X16. No message is handled by both evaluators, and none outside an
    output room: the feedback sentinel accepts only messages of others, the
    coverage tracker only the agent's own, and both only in output rooms of
    a service that is running. *)
Theorem evaluators_split_the_messages agentId reporter message :
  (feedbackSentinelValidate agentId reporter message = true ->
   msg_entityId message <> agentId
   /\ exists svc, reporter = Some svc /\ isOutputRoom svc (msg_roomId message) = true)
  /\ (coverageTrackerValidate agentId reporter message = true ->
      msg_entityId message = agentId
      /\ exists svc, reporter = Some svc /\ isOutputRoom svc (msg_roomId message) = true)
  /\ (feedbackSentinelValidate agentId reporter message
      && coverageTrackerValidate agentId reporter message = false).
Proof.
  unfold feedbackSentinelValidate, coverageTrackerValidate.
  case_bool_decide; simpl; destruct reporter as [svc|]; simpl;
    repeat split; try discriminate; eauto;
    try (destruct (isOutputRoom svc (msg_roomId message)); reflexivity).
Qed.

(** X17. The feedback sentinel's handler does nothing at all for a text
    that is absent or not negative.  For a negative text in a room with a
    cached state it counts one strike, exactly as [recordStrike] does, whatever
    the logger and the persistence layer do; and the only exception that can
    leave it is a failure of the logger in its own handler. *)
Theorem feedbackSentinel_counts_complaints svc message now w :
  (isNegativeFeedback (default [] (msg_text message)) = false ->
   feedbackSentinelHandler (Some svc) message now w = (Returned [], w))
  /\ (forall s,
        isNegativeFeedback (default [] (msg_text message)) = true ->
        coverageView w (msg_roomId message) = Some s ->
        coverageView (feedbackSentinelHandler (Some svc) message now w).2
          (msg_roomId message)
        = Some (if strikes s + 1 >=? 2
                then set_mutedUntil (now + hoursMs (strikeMuteHours (reporterConfig svc)))
                       (set_strikes (strikes s + 1) s)
                else set_strikes (strikes s + 1) s))
  /\ ((exists lines,
          (feedbackSentinelHandler (Some svc) message now w).1 = Returned lines)
      \/ (feedbackSentinelHandler (Some svc) message now w).1 = Thrown LoggerError).
Proof.
  unfold feedbackSentinelHandler, try_catch. cbn zeta.
  destruct (isNegativeFeedback (default [] (msg_text message))) eqn:Hneg.
  - split; [discriminate |].
    unfold bind.
    pose proof (fun s => recordStrike_on_cached_state svc (msg_roomId message) now w s)
      as Hstrike.
    destruct (recordStrike svc (msg_roomId message) now w) as [[[]|e] w1]; simpl in *.
    + pose proof (evaluatorLogger_frame (WarnStrikeRecorded (msg_roomId message)) w1)
        as (Hh & Hc & _ & Hout).
      destruct (evaluatorLogger _ w1) as [[lines|e] w2]; simpl in *.
      * split; [| eauto].
        intros s _ Hview. unfold coverageView in *. rewrite Hc, Hh. auto.
      * pose proof (evaluatorLogger_frame (ErrorInFeedbackSentinel e) w2)
          as (Hh2 & Hc2 & _ & Hout2).
        split; [| exact Hout2].
        intros s _ Hview. unfold coverageView in *. rewrite Hc2, Hh2, Hc, Hh. auto.
    + pose proof (evaluatorLogger_frame (ErrorInFeedbackSentinel e) w1)
        as (Hh & Hc & _ & Hout).
      split; [| exact Hout].
      intros s _ Hview. unfold coverageView in *. rewrite Hc, Hh. auto.
  - split; [reflexivity |]. split; [discriminate |]. left. eexists. reflexivity.
Qed.

Lemma feedbackSentinel_counts_complaints_witness :
  let message := {| msg_entityId := "user-7"; msg_roomId := "room-1";
                    msg_text := Some (units "Please STOP, this is too much") |} in
  coverageView
    (feedbackSentinelHandler (Some oneRoomService) message clock
       (worldWith (newsState 5 3 1 None))).2 "room-1"
  = Some (newsState 5 3 2 (Some (clock + 86400000))).
Proof.
  exact (proj1 (proj2 (feedbackSentinel_counts_complaints oneRoomService
                         {| msg_entityId := "user-7"; msg_roomId := "room-1";
                            msg_text := Some (units "Please STOP, this is too much") |}
                         clock (worldWith (newsState 5 3 1 None))))
           (newsState 5 3 1 None) eq_refl ltac:(vm_compute; reflexivity)).
Defined.

(** X18. The coverage tracker's handler changes the coverage states exactly
    as [recordMention] does, whatever throws, and the only exception that can
    leave it is a failure of the logger in its own handler. *)
Theorem coverageTracker_records_the_mention svc message now now' w k :
  coverageView (coverageTrackerHandler (Some svc) message now now' w).2 k
  = coverageView (recordMention svc (msg_roomId message) now now' w).2 k
  /\ ((exists lines,
          (coverageTrackerHandler (Some svc) message now now' w).1 = Returned lines)
      \/ (coverageTrackerHandler (Some svc) message now now' w).1 = Thrown LoggerError).
Proof.
  unfold coverageTrackerHandler, try_catch, bind.
  destruct (recordMention svc (msg_roomId message) now now' w) as [[[]|e] w1]; simpl.
  - pose proof (evaluatorLogger_frame (DebugMentionRecorded (msg_roomId message)) w1)
      as (Hh & Hc & _ & Hout).
    destruct (evaluatorLogger _ w1) as [[lines|e] w2]; simpl in *.
    + split; [| eauto]. unfold coverageView. rewrite Hc, Hh. reflexivity.
    + pose proof (evaluatorLogger_frame (ErrorInCoverageTracker e) w2)
        as (Hh2 & Hc2 & _ & Hout2).
      split; [| exact Hout2]. unfold coverageView. rewrite Hc2, Hh2, Hc, Hh. reflexivity.
  - pose proof (evaluatorLogger_frame (ErrorInCoverageTracker e) w1)
      as (Hh & Hc & _ & Hout).
    split; [| exact Hout]. unfold coverageView. rewrite Hc, Hh. reflexivity.
Qed.

(** * Properties of the report functions *)

(** ** extractTitle *)

Lemma trimStart_suffix s : exists a, s = a ++ trimStart s.
Proof.
  induction s as [|u s [a IH]]; [exists []; reflexivity |]. simpl.
  destruct (isSpace u); [| exists []; reflexivity].
  exists (u :: a). simpl. f_equal. exact IH.
Qed.

Lemma trimStart_head s u rest : trimStart s = u :: rest -> isSpace u = false.
Proof.
  induction s as [|v s IH]; simpl; [discriminate |].
  destruct (isSpace v) eqn:Hv; [exact IH |]. intros [= <- _]. exact Hv.
Qed.

Lemma trimEnd_prefix s : exists b, s = trimEnd s ++ b.
Proof.
  unfold trimEnd. destruct (trimStart_suffix (rev s)) as [a Ha].
  exists (rev a). rewrite <- rev_app_distr, <- Ha, rev_involutive. reflexivity.
Qed.

Lemma trimEnd_last s init u : trimEnd s = init ++ [u] -> isSpace u = false.
Proof.
  unfold trimEnd. intros H.
  apply (f_equal (@rev N)) in H. rewrite rev_involutive, rev_app_distr in H. simpl in H.
  eapply trimStart_head. exact H.
Qed.

Lemma trim_infix s : exists a b, s = a ++ trim s ++ b.
Proof.
  unfold trim. destruct (trimStart_suffix s) as [a Ha].
  destruct (trimEnd_prefix (trimStart s)) as [b Hb].
  exists a, b. rewrite <- Hb. exact Ha.
Qed.

Lemma trim_head s u rest : trim s = u :: rest -> isSpace u = false.
Proof.
  unfold trim. intros H.
  destruct (trimEnd_prefix (trimStart s)) as [b Hb]. rewrite H in Hb.
  eapply trimStart_head. exact Hb.
Qed.

Lemma trim_last s init u : trim s = init ++ [u] -> isSpace u = false.
Proof. unfold trim. apply trimEnd_last. Qed.

Lemma trimStart_spaces s : forallb isSpace s = true -> trimStart s = [].
Proof.
  induction s as [|u s IH]; simpl; [reflexivity |].
  intros H. apply andb_true_iff in H as [Hu Hs]. rewrite Hu. auto.
Qed.

Lemma firstLine_prefix s : exists b, s = firstLine s ++ b.
Proof.
  induction s as [|u s [b IH]]; [exists []; reflexivity |]. simpl.
  destruct (u =? 10)%N; [exists (u :: s); reflexivity |].
  exists b. simpl. f_equal. exact IH.
Qed.

Lemma firstLine_no_line_feed s : 10%N ∉ firstLine s.
Proof.
  induction s as [|u s IH]; simpl; [apply not_elem_of_nil |].
  destruct (u =? 10)%N eqn:Hu; [apply not_elem_of_nil |].
  apply not_elem_of_cons. split; [| exact IH].
  apply N.eqb_neq in Hu. congruence.
Qed.

Lemma dropHashes_suffix s : exists a, s = a ++ dropHashes s.
Proof.
  induction s as [|u s [a IH]]; [exists []; reflexivity |]. simpl.
  destruct (u =? 35)%N; [| exists []; reflexivity].
  exists (u :: a). simpl. f_equal. exact IH.
Qed.

Lemma stripHeading_suffix s : exists a, s = a ++ stripHeading s.
Proof.
  unfold stripHeading. destruct s as [|u s]; [exists []; reflexivity |].
  destruct (u =? 35)%N; [| exists []; reflexivity].
  destruct (dropHashes_suffix (u :: s)) as [a Ha].
  destruct (trimStart_suffix (dropHashes (u :: s))) as [b Hb].
  exists (a ++ b). rewrite <- app_assoc, <- Hb. exact Ha.
Qed.

(** The candidate title is a piece of the first line of the content. *)
Lemma title_candidate_infix content :
  let line := firstLine (trim content) in
  let candidate := trim (stripHeading line) in
  (exists a b, line = a ++ candidate ++ b)
  /\ (exists a b, content = a ++ candidate ++ b).
Proof.
  intros line candidate.
  destruct (trim_infix content) as (a1 & b1 & H1).
  destruct (firstLine_prefix (trim content)) as (b2 & H2).
  destruct (stripHeading_suffix line) as (a3 & H3).
  destruct (trim_infix (stripHeading line)) as (a4 & b4 & H4).
  fold line in H2. fold candidate in H4.
  assert (Hline : line = (a3 ++ a4) ++ candidate ++ b4)
    by (rewrite <- app_assoc, <- H4; exact H3).
  split; [eauto |].
  exists (a1 ++ a3 ++ a4), (b4 ++ b2 ++ b1).
  rewrite H1 at 1. rewrite H2 at 1. rewrite Hline.
  rewrite <- !app_assoc. reflexivity.
Qed.

(** X19. [extractTitle] gives the fallback, or else a title of 1 to 99 code
    units that is a piece of the content, holds no line feed and neither
    begins nor ends with white space.  For a content of white space only it
    gives the fallback. *)
Theorem extractTitle_is_fallback_or_clean content fallback :
  (extractTitle content fallback = fallback
   \/ (let t := extractTitle content fallback in
       (0 < length t < 100)%nat
       /\ (exists a b, content = a ++ t ++ b)
       /\ (10%N ∉ t)
       /\ (forall u rest, t = u :: rest -> isSpace u = false)
       /\ (forall init u, t = init ++ [u] -> isSpace u = false)))
  /\ (forallb isSpace content = true -> extractTitle content fallback = fallback).
Proof.
  split.
  - unfold extractTitle.
    set (candidate := trim (stripHeading (firstLine (trim content)))).
    destruct ((0 <? length candidate)%nat && (length candidate <? 100)%nat) eqn:Hlen;
      [right | left; reflexivity].
    apply andb_true_iff in Hlen as [H0 H100].
    apply Nat.ltb_lt in H0, H100.
    destruct (title_candidate_infix content) as ((a & b & Hline) & Hcontent).
    fold candidate in Hline, Hcontent.
    split; [lia |]. split; [exact Hcontent |]. split; [| split].
    + intros Hin. apply (firstLine_no_line_feed (trim content)).
      rewrite Hline. apply elem_of_app. right. apply elem_of_app. left. exact Hin.
    + intros u rest. apply trim_head.
    + intros init u. apply trim_last.
  - intros Hspaces. unfold extractTitle.
    assert (Htrim : trim content = []).
    { unfold trim. rewrite (trimStart_spaces _ Hspaces). reflexivity. }
    rewrite Htrim. reflexivity.
Qed.

Lemma extractTitle_is_fallback_or_clean_witness :
  extractTitle (units "  ") (units "Daily Recap") = units "Daily Recap".
Proof.
  exact (proj2 (extractTitle_is_fallback_or_clean (units "  ") (units "Daily Recap"))
           eq_refl).
Defined.

(** ** Word count *)

(** A word is read into the current piece. *)
Lemma splitSpaces_word word :
  forall cur inRun rest,
    isWord word ->
    splitSpaces cur inRun (word ++ rest) = splitSpaces (rev word ++ cur) false rest.
Proof.
  induction word as [|u word IH]; intros cur inRun rest [Hne Hall]; [congruence |].
  apply Forall_cons in Hall as [Hu Hall]. simpl. rewrite Hu.
  destruct word as [|v word]; [reflexivity |].
  rewrite IH by (split; [discriminate | exact Hall]).
  rewrite <- app_assoc. reflexivity.
Qed.

Lemma splitSpaces_words sep words :
  isSpace sep = true ->
  words <> [] ->
  Forall isWord words ->
  forall cur inRun,
    length (splitSpaces cur inRun (joinWords sep words)) = length words.
Proof.
  intros Hsep. induction words as [|word rest IH]; intros Hne Hall cur inRun; [congruence |].
  apply Forall_cons in Hall as [Hword Hall].
  destruct rest as [|word2 rest].
  - simpl. rewrite <- (app_nil_r word), splitSpaces_word by exact Hword. reflexivity.
  - change (joinWords sep (word :: word2 :: rest))
      with (word ++ sep :: joinWords sep (word2 :: rest)).
    rewrite splitSpaces_word by exact Hword.
    cbn [splitSpaces]. rewrite Hsep. cbn [length]. f_equal.
    apply IH; [discriminate | exact Hall].
Qed.

Lemma splitSpaces_nonempty s : forall cur inRun, (1 <= length (splitSpaces cur inRun s))%nat.
Proof.
  induction s as [|u s IH]; intros cur inRun; simpl; [lia |].
  destruct (isSpace u); [destruct inRun; simpl; [apply IH | lia] | apply IH].
Qed.

(** X20. The word count of a report is the number of pieces between runs of
    white space.  For at least one word joined with single separators it is
    the number of words; white space at the start or at the end adds one; and
    it is never less than one, the empty content counting as one word. *)
Theorem wordCount_counts_pieces sep words :
  isSpace sep = true ->
  words <> [] ->
  Forall isWord words ->
  wordCount (joinWords sep words) = length words
  /\ wordCount (sep :: joinWords sep words) = S (length words)
  /\ wordCount (joinWords sep words ++ [sep]) = S (length words)
  /\ (forall content, (1 <= wordCount content)%nat)
  /\ wordCount [] = 1%nat.
Proof.
  intros Hsep Hne Hall. unfold wordCount. repeat split.
  - apply splitSpaces_words; assumption.
  - cbn [splitSpaces]. rewrite Hsep. cbn [length]. f_equal.
    apply splitSpaces_words; assumption.
  - revert Hne Hall. generalize (@nil N) at 1. generalize false.
    induction words as [|word rest IH]; intros inRun cur Hne Hall; [congruence |].
    apply Forall_cons in Hall as [Hword Hall].
    destruct rest as [|word2 rest].
    + simpl. rewrite splitSpaces_word by exact Hword.
      cbn [splitSpaces]. rewrite Hsep. reflexivity.
    + change (joinWords sep (word :: word2 :: rest) ++ [sep])
        with ((word ++ sep :: joinWords sep (word2 :: rest)) ++ [sep]).
      rewrite <- app_assoc, splitSpaces_word by exact Hword.
      cbn [app splitSpaces]. rewrite Hsep. cbn [length]. f_equal.
      apply IH; [discriminate | exact Hall].
  - intros content. apply splitSpaces_nonempty.
Qed.

Lemma wordCount_counts_pieces_witness :
  wordCount (units "Whales moved today") = 3%nat.
Proof.
  exact (proj1 (wordCount_counts_pieces 32
                  [units "Whales"; units "moved"; units "today"]
                  eq_refl ltac:(discriminate)
                  ltac:(repeat constructor; discriminate))).
Defined.

(** ** Report types and generateReport *)

Lemma getReportMetadata_known type metadata :
  getReportMetadata type = Some (OwnEntry metadata) ->
  metadata ∈ reportTypes /\ rt_type metadata = type.
Proof.
  unfold getReportMetadata.
  destruct (List.find _ reportTypes) as [m|] eqn:Hfind.
  - intros [= ->]. apply find_some in Hfind as [Hin Hty].
    split; [apply list_elem_of_In; exact Hin |].
    apply bool_decide_eq_true in Hty. exact Hty.
  - destruct (assoc_get type objectPrototype); discriminate.
Qed.

(** Every entry of the table is found under its own key, has a name of 1
    to 99 code units and a price between 50 and 200. *)
Lemma reportTypes_entries metadata :
  metadata ∈ reportTypes ->
  getReportMetadata (rt_type metadata) = Some (OwnEntry metadata)
  /\ (0 < length (units (rt_name metadata)) < 100)%nat
  /\ 50 <= rt_basePrice metadata <= 200.
Proof.
  unfold reportTypes. intros Hin.
  repeat (apply elem_of_cons in Hin as [-> | Hin];
          [vm_compute; repeat split; (reflexivity || discriminate || lia) |]).
  inversion Hin.
Qed.

Lemma assoc_get_None {V} k (l : list (string * V)) :
  assoc_get k l = None <-> k ∉ l.*1.
Proof.
  induction l as [|[k' v] rest IH]; simpl.
  - split; [intros _ H; inversion H | reflexivity].
  - case_decide as Hk.
    + split; [discriminate |]. intros Hnot. exfalso. apply Hnot. subst. left.
    + rewrite IH. rewrite not_elem_of_cons. tauto.
Qed.

(** The types that the lookup does not find: those that are neither a key
    of the table nor the name of a property of [Object.prototype]. *)
Lemma getReportMetadata_None type :
  getReportMetadata type = None
  <-> (type ∉ rt_type <$> reportTypes) /\ (type ∉ objectPrototype.*1).
Proof.
  unfold getReportMetadata.
  destruct (List.find _ reportTypes) as [m|] eqn:Hfind.
  - apply find_some in Hfind as [Hin Hty].
    apply bool_decide_eq_true in Hty. apply list_elem_of_In in Hin.
    split; [discriminate |]. intros [Hnot _]. exfalso. apply Hnot.
    apply list_elem_of_fmap. eauto.
  - rewrite fmap_None, assoc_get_None. split; [| tauto].
    intros Hproto. split; [| exact Hproto].
    intros Hin. apply list_elem_of_fmap in Hin as (m & -> & Hm).
    apply list_elem_of_In in Hm.
    apply (find_none _ _ Hfind) in Hm. apply bool_decide_eq_false in Hm.
    apply Hm. reflexivity.
Qed.

(** A title is never empty and shorter than 100 code units when the
    fallback is. *)
Lemma extractTitle_length content fallback :
  (0 < length fallback < 100)%nat ->
  (0 < length (extractTitle content fallback) < 100)%nat.
Proof.
  intros Hname. unfold extractTitle.
  destruct ((0 <? _)%nat && (_ <? 100)%nat) eqn:Hlen; [| exact Hname].
  apply andb_true_iff in Hlen as [H0 H100].
  apply Nat.ltb_lt in H0, H100. lia.
Qed.

(** X21. [generateReport] with its two handlers.

    - It gives a report exactly when the lookup of the type finds something,
      the model has answered and, should the store throw, the logger call in
      the handler of [saveReport] does not throw.
    - The report carries the content as answered and its word count (at
      least one); for a type of the table its title has 1 to 99 code units.
      It is stored unless the store throws, which is logged and does not fail
      the call.
    - Otherwise nothing is stored.  The error that leaves is the one that
      was logged by the handler of [generateReport], unless the logger throws
      in that handler: then the logger's exception leaves and no line is
      added.  The call fails with "Unknown report type" only when the lookup
      finds nothing and the logger works.
    - The lookup finds nothing only for a type that is neither a key of the
      table nor the name of a property of [Object.prototype]: a type such as
      "constructor" is not rejected. *)
Theorem generateReport_result type storyIds jobId now answer saveThrows faults reports :
  let run := generateReport type storyIds jobId now answer saveThrows faults reports in
  ((exists report, run_result run = inr report)
   <-> is_Some (getReportMetadata type) /\ is_Some answer
       /\ (saveThrows = true -> (next_fault faults).1 = false))
  /\ (forall report,
        run_result run = inr report ->
        answer = Some (rep_content report)
        /\ rep_type report = type
        /\ rep_wordCount report = wordCount (rep_content report)
        /\ (1 <= rep_wordCount report)%nat
        /\ (type ∈ rt_type <$> reportTypes ->
            exists title, rep_title report = Some title
                          /\ (0 < length title < 100)%nat)
        /\ run_saved run = (if saveThrows then reports else reports ++ [report])
        /\ run_log run = (if saveThrows then [ErrorSavingReport] else []))
  /\ (forall e,
        run_result run = inl e ->
        run_saved run = reports
        /\ (run_log run = [ErrorGeneratingReport e type]
            \/ e = LoggerFailed /\ run_log run = [])
        /\ (e = UnknownReportType type
            <-> getReportMetadata type = None /\ (next_fault faults).1 = false))
  /\ (getReportMetadata type = None
      <-> (type ∉ rt_type <$> reportTypes) /\ (type ∉ objectPrototype.*1)).
Proof.
  intros run. split; [| split; [| split; [| apply getReportMetadata_None]]];
    subst run; unfold generateReport, saveReport.
  - destruct (getReportMetadata type) as [metadata|]; simpl.
    + destruct answer as [content|]; simpl.
      * destruct saveThrows; simpl.
        -- destruct (next_fault faults) as [[] rest]; simpl.
           ++ destruct (next_fault rest) as [[] ?]; simpl;
                (split; [intros [r Hr]; discriminate |]);
                intros (_ & _ & H); specialize (H eq_refl); discriminate.
           ++ split; [intros _ | intros _]; eauto 6.
        -- split; [intros _ | intros _]; eauto 6.
           repeat split; eauto. discriminate.
      * destruct (next_fault faults) as [[] ?]; simpl;
          (split; [intros [r Hr]; discriminate | intros (_ & [x Hx] & _); discriminate]).
    + destruct (next_fault faults) as [[] ?]; simpl;
        (split; [intros [r Hr]; discriminate | intros ([x Hx] & _); discriminate]).
  - intros report.
    destruct (getReportMetadata type) as [metadata|] eqn:Hmeta; simpl.
    + destruct answer as [content|]; simpl.
      * assert (Htitle : type ∈ rt_type <$> reportTypes ->
                  exists title,
                    extractTitleOr content (units <$> nameOf metadata) = Some title
                    /\ (0 < length title < 100)%nat).
        { intros Hin. apply list_elem_of_fmap in Hin as (m & -> & Hm).
          destruct (reportTypes_entries _ Hm) as (Hget & Hname & _).
          rewrite Hget in Hmeta. injection Hmeta as <-. simpl.
          eexists. split; [reflexivity |]. apply extractTitle_length. exact Hname. }
        destruct saveThrows; simpl.
        -- destruct (next_fault faults) as [[] rest]; simpl.
           ++ destruct (next_fault rest) as [[] ?]; simpl; discriminate.
           ++ intros [= <-]. simpl. repeat split; auto.
              apply splitSpaces_nonempty.
        -- intros [= <-]. simpl. repeat split; auto.
           apply splitSpaces_nonempty.
      * destruct (next_fault faults) as [[] ?]; simpl; discriminate.
    + destruct (next_fault faults) as [[] ?]; simpl; discriminate.
  - intros e.
    destruct (getReportMetadata type) as [metadata|] eqn:Hmeta; simpl.
    + destruct answer as [content|]; simpl.
      * destruct saveThrows; simpl; [| discriminate].
        destruct (next_fault faults) as [[] rest]; simpl; [| discriminate].
        destruct (next_fault rest) as [[] ?]; simpl; intros [= <-]; simpl;
          (split; [reflexivity |]); (split; [auto |]);
          (split; [discriminate | intros [H _]; discriminate]).
      * destruct (next_fault faults) as [[] ?]; simpl; intros [= <-]; simpl;
          (split; [reflexivity |]); (split; [auto |]);
          (split; [discriminate | intros [H _]; discriminate]).
    + destruct (next_fault faults) as [[] ?]; simpl; intros [= <-]; simpl;
        (split; [reflexivity |]); (split; [auto |]).
      * split; [discriminate | intros [_ H]; discriminate].
      * split; auto.
Qed.

(** X22. WRITE_ARTICLE always asks for a type of the table, so that
    [generateReport] never fails on the type it is given by that action:
    what can leave is the failure of a collaborator or, when the logger
    throws, the logger's; with a logger that works, only the former.  A text
    that names no type asks for a briefing. *)
Theorem writeArticleType_is_known text :
  (exists metadata,
      metadata ∈ reportTypes
      /\ getReportMetadata (writeArticleType text) = Some (OwnEntry metadata))
  /\ (forall storyIds jobId now answer saveThrows faults reports e,
        run_result (generateReport (writeArticleType text) storyIds jobId now answer
                      saveThrows faults reports) = inl e ->
        (e = CollaboratorFailed \/ e = LoggerFailed)
        /\ (faults = [] -> e = CollaboratorFailed))
  /\ writeArticleType [] = "briefing"%string.
Proof.
  assert (Hknown : exists metadata,
             metadata ∈ reportTypes
             /\ getReportMetadata (writeArticleType text) = Some (OwnEntry metadata)).
  { unfold writeArticleType.
    repeat case_match;
      (eexists; split; [| vm_compute; reflexivity]);
      unfold reportTypes; auto 10 using list_elem_of_here, list_elem_of_further. }
  split; [exact Hknown |]. split; [| reflexivity].
  intros storyIds jobId now answer saveThrows faults reports e.
  unfold generateReport, saveReport. destruct Hknown as (metadata & _ & ->).
  destruct answer as [content|]; simpl.
  - destruct saveThrows; simpl; [| discriminate].
    destruct faults as [|[] rest]; simpl; [discriminate | | discriminate].
    destruct (next_fault rest) as [[] ?]; simpl; intros [= <-];
      (split; [auto | discriminate]).
  - destruct faults as [|[] rest]; simpl; intros [= <-];
      (split; [auto | try discriminate; auto]).
Qed.

(** ** Quotes *)

(** X23. QUOTE_REPORT always quotes a type of the table at that type's
    base price, between 50 and 200; it never falls back on the price of 100
    that [getPriceForReportType] keeps for the types that are no key of the
    table.  A text that names no type is quoted a briefing. *)
Theorem quote_is_a_base_price text :
  (exists metadata,
      quoteReportType text = Some metadata
      /\ metadata ∈ reportTypes
      /\ quoteReportPrice text = Some (rt_basePrice metadata)
      /\ 50 <= rt_basePrice metadata <= 200)
  /\ (forall type,
        (forall metadata, getReportMetadata type <> Some (OwnEntry metadata)) ->
        getPriceForReportType type = 100)
  /\ rt_type <$> quoteReportType [] = Some "briefing"%string.
Proof.
  split; [| split; [| reflexivity]].
  2: { intros type Hnone. unfold getPriceForReportType.
       destruct (getReportMetadata type) as [[metadata|name]|]; try reflexivity.
       exfalso. eapply Hnone. reflexivity. }
  assert (Hfound : exists metadata,
             quoteReportType text = Some metadata /\ metadata ∈ reportTypes).
  { unfold quoteReportType.
    destruct (List.find (mentionsType text) getAllReportTypes) as [m|] eqn:Hfind.
    - exists m. split; [reflexivity |].
      apply find_some in Hfind as [Hin _]. apply list_elem_of_In. exact Hin.
    - eexists. split; [reflexivity |]. left. }
  destruct Hfound as (metadata & Hq & Hin).
  destruct (reportTypes_entries _ Hin) as (Hget & _ & Hprice).
  exists metadata. split; [exact Hq |]. split; [exact Hin |]. split; [| exact Hprice].
  unfold quoteReportPrice. rewrite Hq. simpl. f_equal.
  unfold getPriceForReportType. rewrite Hget. simpl.
  destruct (rt_basePrice metadata =? 0) eqn:H0; [| reflexivity].
  apply Z.eqb_eq in H0. lia.
Qed.

(** X24. The two actions read the type differently.  WRITE_ARTICLE takes
    the words "deep dive" for a deep dive; QUOTE_REPORT looks for the keys and
    names of the table only, so a text with "deep dive" that holds none of
    them is quoted as a briefing, at 50 instead of 200. *)
Theorem quote_and_article_disagree text :
  includes text (units "deep dive") = true ->
  (forall metadata, metadata ∈ reportTypes -> mentionsType text metadata = false) ->
  writeArticleType text = "deep-dive"%string
  /\ getPriceForReportType (writeArticleType text) = 200
  /\ rt_type <$> quoteReportType text = Some "briefing"%string
  /\ quoteReportPrice text = Some 50.
Proof.
  intros Hdive Hnone.
  assert (Hw : writeArticleType text = "deep-dive"%string)
    by (unfold writeArticleType; rewrite Hdive; reflexivity).
  assert (Hfind : List.find (mentionsType text) getAllReportTypes = None).
  { unfold getAllReportTypes, reportTypes in *. simpl.
    repeat (rewrite Hnone by (repeat constructor)). reflexivity. }
  rewrite Hw. split; [reflexivity |]. split; [reflexivity |].
  unfold quoteReportPrice, quoteReportType. rewrite Hfind. split; reflexivity.
Qed.

Lemma quote_and_article_disagree_witness :
  let text := units "Can you write a deep dive on the Babylon whale activity?" in
  writeArticleType text = "deep-dive"%string
  /\ getPriceForReportType (writeArticleType text) = 200
  /\ rt_type <$> quoteReportType text = Some "briefing"%string
  /\ quoteReportPrice text = Some 50.
Proof.
  apply (quote_and_article_disagree
           (units "Can you write a deep dive on the Babylon whale activity?")).
  - vm_compute. reflexivity.
  - unfold reportTypes. intros metadata Hin.
    repeat (apply elem_of_cons in Hin as [-> | Hin]; [vm_compute; reflexivity |]).
    inversion Hin.
Defined.

(** * Properties of the provider and of the start *)

(** ** The STORY_PROMPT provider *)

Lemma filter_length_le {A} (f : A -> bool) (l : list A) :
  (length (List.filter f l) <= length l)%nat.
Proof. induction l as [|x l IH]; simpl; [lia |]. destruct (f x); simpl; lia. Qed.

Lemma filter_elem {A} (f : A -> bool) (l : list A) x :
  x ∈ List.filter f l <-> x ∈ l /\ f x = true.
Proof. rewrite !list_elem_of_In. apply filter_In. Qed.

(** The stories the provider keeps for a room. *)
Lemma relevant_stories svc k stories st :
  st ∈ match getOutputRoomConfig svc k ≫= cfg_sourceFilter with
       | Some allowed => List.filter (fromAllowedSource allowed) stories
       | None => stories
       end ->
  st ∈ stories
  /\ forall allowed,
       getOutputRoomConfig svc k ≫= cfg_sourceFilter = Some allowed ->
       fromAllowedSource allowed st = true.
Proof.
  destruct (getOutputRoomConfig svc k ≫= cfg_sourceFilter) as [allowed|].
  - intros Hin. apply filter_elem in Hin as [Hin Hf].
    split; [exact Hin |]. intros allowed' [= <-]. exact Hf.
  - intros Hin. split; [exact Hin | discriminate].
Qed.

(** X25. What the provider puts in a prompt.  It answers only for an output
    room and a story list that is not empty.  The breaking section is there
    exactly when [hasBreaking] is set; it lists at most three titles, each of
    a given story that has growing momentum and confidence above 0.8 and, if
    the room filters by source, a source the room allows.  The storytelling
    opportunity is offered only when [coverageGap] is set, and for a given
    story that passes the same filter. *)
Theorem storyPrompt_contents svc w k now stories r :
  storyPrompt svc w k now stories = Some r ->
  isOutputRoom svc k = true
  /\ stories <> []
  /\ (relevantStoryCount r <= length stories)%nat
  /\ (hasBreaking r = true <-> exists titles, BreakingStories titles ∈ sections r)
  /\ (forall titles t,
        BreakingStories titles ∈ sections r ->
        t ∈ titles ->
        (length titles <= 3)%nat
        /\ exists st, st ∈ stories /\ title st = t /\ isBreaking st = true
             /\ forall allowed,
                  getOutputRoomConfig svc k ≫= cfg_sourceFilter = Some allowed ->
                  fromAllowedSource allowed st = true)
  /\ (forall best,
        StorytellingOpportunity best ∈ sections r ->
        coverageGap r = true
        /\ exists st, st ∈ stories /\ title st = best
             /\ forall allowed,
                  getOutputRoomConfig svc k ≫= cfg_sourceFilter = Some allowed ->
                  fromAllowedSource allowed st = true).
Proof.
  unfold storyPrompt.
  destruct (isOutputRoom svc k) eqn:Hroom; simpl; [| discriminate].
  case_bool_decide as Hstories; [discriminate |].
  cbn zeta.
  set (relevant := match getOutputRoomConfig svc k ≫= cfg_sourceFilter with
                   | Some allowed => List.filter (fromAllowedSource allowed) stories
                   | None => stories
                   end).
  set (breaking := List.filter isBreaking relevant).
  set (hasGap := match coverageView w k with
                 | Some c => _
                 | None => true
                 end).
  assert (Hrel : forall st, st ∈ relevant -> st ∈ stories
             /\ forall allowed,
                  getOutputRoomConfig svc k ≫= cfg_sourceFilter = Some allowed ->
                  fromAllowedSource allowed st = true)
    by (intros st; apply relevant_stories).
  assert (Hbr : forall st, st ∈ breaking -> st ∈ relevant /\ isBreaking st = true)
    by (intros st Hin; apply filter_elem in Hin; exact Hin).
  set (breakingPart := match breaking with
                       | [] => []
                       | _ => [BreakingStories (title <$> take 3 breaking)]
                       end).
  set (opportunityPart := match hasGap with true => _ | false => _ end).
  assert (Hbp : forall section, section ∈ breakingPart ->
             breaking <> [] /\ section = BreakingStories (title <$> take 3 breaking)).
  { subst breakingPart. intros section Hin. destruct breaking; [inversion Hin |].
    apply list_elem_of_singleton in Hin. split; [discriminate | exact Hin]. }
  assert (Hop : forall section, section ∈ opportunityPart ->
             hasGap = true
             /\ exists first rest, relevant = first :: rest
                  /\ section = StorytellingOpportunity
                                 (title (default first (head breaking)))).
  { subst opportunityPart. intros section Hin.
    destruct hasGap; [| inversion Hin].
    destruct relevant as [|first rest]; [inversion Hin |].
    apply list_elem_of_singleton in Hin. eauto. }
  intros [= <-]. cbn [sections hasBreaking coverageGap relevantStoryCount].
  split; [reflexivity |]. split; [exact Hstories |]. split.
  { subst relevant. destruct (_ ≫= _); [apply filter_length_le | lia]. }
  split.
  { split.
    - intros Hhas. exists (title <$> take 3 breaking).
      apply elem_of_app. left. subst breakingPart.
      destruct breaking; [discriminate | left].
    - intros [titles Hin]. apply elem_of_app in Hin as [Hin | Hin].
      + destruct (Hbp _ Hin) as [Hne _]. destruct breaking; [congruence | reflexivity].
      + destruct (Hop _ Hin) as (_ & first & rest & _ & Heq). discriminate. }
  split.
  { intros titles t Hin Ht.
    apply elem_of_app in Hin as [Hin | Hin].
    - destruct (Hbp _ Hin) as [_ [= ->]].
      split; [rewrite length_fmap, length_take; lia |].
      apply list_elem_of_fmap in Ht as (st & -> & Hst).
      apply subseteq_take in Hst.
      destruct (Hbr st Hst) as [Hst' Hisb]. destruct (Hrel st Hst') as [Hin' Hall].
      exists st. auto.
    - destruct (Hop _ Hin) as (_ & first & rest & _ & Heq). discriminate. }
  intros best Hin.
  apply elem_of_app in Hin as [Hin | Hin].
  - destruct (Hbp _ Hin) as [_ Heq]. discriminate.
  - destruct (Hop _ Hin) as (Hgap & first & rest & Hr & [= ->]).
    split; [exact Hgap |].
    assert (Hbest : default first (head breaking) ∈ relevant).
    { destruct breaking as [|b0 brest] eqn:Hb; simpl; [rewrite Hr; left |].
      apply (Hbr b0). left. }
    destruct (Hrel _ Hbest) as [Hin' Hall].
    eexists. split; [exact Hin' |]. split; [reflexivity | exact Hall].
Qed.

Lemma storyPrompt_contents_witness :
  exists titles,
    BreakingStories titles
    ∈ [BreakingStories ["Whale activity"%string];
       StorytellingOpportunity "Whale activity"].
Proof.
  exact (proj1 (proj1 (proj2 (proj2 (proj2
           (storyPrompt_contents oneRoomService emptyWorld "room-1" clock [urgentStory]
              {| sections := [BreakingStories ["Whale activity"%string];
                              StorytellingOpportunity "Whale activity"];
                 hasBreaking := true; coverageGap := true; relevantStoryCount := 1 |}
              ltac:(vm_compute; reflexivity)))))) eq_refl).
Defined.

(** X26. Provider and pump agree on the cadence, up to the boundary.  For
    a room whose state carries the cadence the service seeds it with, where
    the room sets a cadence or the service default is the provider's two
    hours: whenever the provider reports a coverage gap, the pump's loop body
    does not skip the room as "too soon".  At a gap of exactly one cadence
    the provider reports no gap, though the pump's cadence check passes. *)
Theorem provider_gap_passes_the_cadence_check svc w k now stories r roomConfig s :
  storyPrompt svc w k now stories = Some r ->
  getOutputRoomConfig svc k = Some roomConfig ->
  coverageView w k = Some s ->
  cadenceMs s = cadenceMs (initialState svc k roomConfig 0 0 0) ->
  (defaultCadenceMs (reporterConfig svc) = 7200000
   \/ exists c, cfg_cadenceMs roomConfig = Some c /\ c <> 0) ->
  coverageGap r = (now - lastMentionAt s >? cadenceMs s)
  /\ (coverageGap r = true ->
      (pumpRoom svc now k roomConfig w).1 <> Returned SkippedTooSoon)
  /\ (now - lastMentionAt s = cadenceMs s ->
      coverageGap r = false /\ (now - lastMentionAt s <? cadenceMs s) = false).
Proof.
  intros Hprompt Hcfg Hview Hcad Hdefault.
  assert (Hsame : js_or (getOutputRoomConfig svc k ≫= cfg_cadenceMs) 7200000 = cadenceMs s).
  { rewrite Hcad, Hcfg. simpl.
    destruct Hdefault as [-> | (c & -> & Hc)]; [reflexivity |].
    simpl. apply Z.eqb_neq in Hc. rewrite Hc. reflexivity. }
  assert (Hgap : coverageGap r = (now - lastMentionAt s >? cadenceMs s)).
  { revert Hprompt. unfold storyPrompt.
    destruct (negb (isOutputRoom svc k)); [discriminate |].
    case_bool_decide; [discriminate |].
    rewrite Hview, Hsame. intros [= <-]. reflexivity. }
  split; [exact Hgap |]. split.
  - rewrite Hgap. intros Hgt. apply Z.gtb_lt in Hgt.
    destruct (view_inv _ _ _ Hview) as (l & Hk & Hl).
    rewrite (pumpRoom_existing _ _ _ _ _ _ Hk).
    unfold safeguardGauntlet, bind. rewrite (deref_eq _ _ _ Hl).
    destruct (isMuted now s); [discriminate |].
    destruct (isCapped svc now s); [discriminate |].
    cbn zeta.
    assert (Hlt : (now - lastMentionAt s <? cadenceMs s) = false)
      by (apply Z.ltb_ge; lia).
    rewrite Hlt. unfold ret.
    repeat (eff_case; simpl; try discriminate).
  - intros Heq. rewrite Hgap, Heq. split.
    + rewrite Z.gtb_ltb. apply Z.ltb_irrefl.
    + apply Z.ltb_irrefl.
Qed.

Lemma provider_gap_passes_the_cadence_check_witness :
  let w := worldWith (newsState (clock - hoursMs 3) 1 0 None) in
  (pumpRoom oneRoomService clock "room-1" newsRoom w).1 <> Returned SkippedTooSoon.
Proof.
  exact (proj1 (proj2
           (provider_gap_passes_the_cadence_check oneRoomService
              (worldWith (newsState (clock - hoursMs 3) 1 0 None)) "room-1" clock
              [urgentStory]
              {| sections := [BreakingStories ["Whale activity"%string];
                              StorytellingOpportunity "Whale activity"];
                 hasBreaking := true; coverageGap := true; relevantStoryCount := 1 |}
              newsRoom (newsState (clock - hoursMs 3) 1 0 None)
              ltac:(vm_compute; reflexivity) eq_refl ltac:(vm_compute; reflexivity)
              eq_refl (or_introl eq_refl))) eq_refl).
Defined.

(** ** Output rooms at start *)

Lemma map_set_get {V} k (v : V) m : assoc_get k (map_set k v m) = Some v.
Proof.
  induction m as [|[k' v'] m IH]; simpl.
  - rewrite decide_True by reflexivity. reflexivity.
  - destruct (decide (k = k')) as [-> | Hne]; simpl.
    + rewrite decide_True by reflexivity. reflexivity.
    + rewrite decide_False by exact Hne. exact IH.
Qed.

Lemma map_set_get_other {V} k k0 (v : V) m :
  k0 <> k -> assoc_get k0 (map_set k v m) = assoc_get k0 m.
Proof.
  intros Hne. induction m as [|[k' v'] m IH]; simpl.
  - rewrite decide_False by exact Hne. reflexivity.
  - destruct (decide (k = k')) as [-> | Hne']; simpl.
    + rewrite !decide_False by exact Hne. reflexivity.
    + destruct (decide (k0 = k')); [reflexivity | exact IH].
Qed.

Lemma map_set_keys {V} k (v : V) m :
  forall k0, k0 ∈ (map_set k v m).*1 <-> k0 = k \/ k0 ∈ m.*1.
Proof.
  induction m as [|[k' v'] m IH]; intros k0; simpl.
  - rewrite list_elem_of_singleton, elem_of_nil. tauto.
  - destruct (decide (k = k')) as [-> | Hne]; rewrite !fmap_cons; simpl;
      rewrite !elem_of_cons; [tauto |].
    rewrite IH. tauto.
Qed.

Lemma map_set_NoDup {V} k (v : V) m : NoDup m.*1 -> NoDup (map_set k v m).*1.
Proof.
  induction m as [|[k' v'] m IH]; intros Hnd.
  - apply NoDup_singleton.
  - rewrite fmap_cons in Hnd. apply NoDup_cons in Hnd as [Hfresh Hnd].
    cbn [map_set fst] in *.
    destruct (decide (k = k')) as [-> | Hne]; rewrite fmap_cons; cbn [fst];
      apply NoDup_cons; split; auto.
    intros Hin. apply map_set_keys in Hin as [-> | Hin]; [congruence | auto].
Qed.

Lemma loadOutputRooms_snoc createUniqueUuid rooms room :
  loadOutputRooms createUniqueUuid (rooms ++ [room])
  = map_set (resolveRoomId createUniqueUuid room) (set_room room)
      (loadOutputRooms createUniqueUuid rooms).
Proof. unfold loadOutputRooms. rewrite foldl_app. reflexivity. Qed.

(** X27. The output rooms after [start].  No room id occurs twice; a room
    id is an output room exactly when some configured room resolves to it (its
    own room id if it has one, the id made from its channel otherwise); and
    when several configured rooms resolve to the same id, the configuration of
    the last one is the one in force. *)
Theorem loadOutputRooms_registry createUniqueUuid cfg rooms :
  let svc := {| reporterConfig := cfg;
                outputRooms := loadOutputRooms createUniqueUuid rooms |} in
  NoDup (outputRooms svc).*1
  /\ (forall k, isOutputRoom svc k = true
             <-> exists room, room ∈ rooms /\ resolveRoomId createUniqueUuid room = k)
  /\ (forall earlier room later,
        rooms = earlier ++ room :: later ->
        (forall r, r ∈ later ->
                   resolveRoomId createUniqueUuid r <> resolveRoomId createUniqueUuid room) ->
        getOutputRoomConfig svc (resolveRoomId createUniqueUuid room)
        = Some (set_room room)).
Proof.
  cbn zeta. unfold isOutputRoom, getOutputRoomConfig. cbn [outputRooms].
  induction rooms as [|room rooms IH] using rev_ind.
  - split; [apply NoDup_nil_2 |]. split.
    + intros k. simpl. split; [discriminate |]. intros (room & Hin & _). inversion Hin.
    + intros earlier room later Heq. destruct earlier; discriminate.
  - destruct IH as (Hnd & Hroom & Hlast).
    rewrite loadOutputRooms_snoc.
    set (key := resolveRoomId createUniqueUuid room).
    split; [apply map_set_NoDup; exact Hnd |]. split.
    + intros k. destruct (decide (k = key)) as [-> | Hne].
      * rewrite map_set_get. split; [| reflexivity].
        intros _. exists room. split; [apply elem_of_app; right; left | reflexivity].
      * rewrite map_set_get_other by exact Hne. rewrite Hroom. split.
        -- intros (r & Hin & Hr). exists r. split; [apply elem_of_app; auto | exact Hr].
        -- intros (r & Hin & Hr). apply elem_of_app in Hin as [Hin | Hin]; [eauto |].
           apply list_elem_of_singleton in Hin as ->. subst key. congruence.
    + intros earlier room0 later Heq Hlater.
      destruct later as [|r later _] using rev_ind.
      * apply app_inj_tail in Heq as [-> ->]. apply map_set_get.
      * rewrite app_comm_cons, app_assoc in Heq.
        apply app_inj_tail in Heq as [-> ->].
        rewrite map_set_get_other.
        -- apply (Hlast earlier room0 later eq_refl).
           intros r' Hr'. apply Hlater. apply elem_of_app. auto.
        -- intros Heq. symmetry in Heq. revert Heq. apply Hlater.
           apply elem_of_app. right. left.
Qed.
